(** * Step-trace generators and players of the interactive algorithm notes

    A shallow embedding of the trace generators, the player controls and the
    input handlers of the React notes, with the properties of their
    specification.

    Conventions.
    - A JavaScript number is a [num]: an integer, [Infinity], [-Infinity] or
      [NaN].  The notes only ever build integers (inputs are typed as decimal
      digits) and the three special values, which the sources reach through
      [Math.min()], [Math.max()], [new Array(n).fill(Infinity)] and
      [Number] of a token that is not a numeral.  Rounding of integers above
      2^53 is outside the model.
    - A React component is a record of its [useState] cells; an event
      handler or an effect is a function from component to component, run
      with the values of the render it was created in.
    - A JavaScript array used as a stack is a list whose head is the top of
      the stack; a snapshot [[...stack]] is the reversed list. *)

From Stdlib Require Import ZArith List Bool String Ascii Lia QArith Qround.
From Stdlib Require Import DecimalString DecimalPos Sorted.
Import ListNotations.

Local Open Scope Z_scope.

(** ** JavaScript numbers *)

Module JS.

Inductive num : Type :=
| Fin (z : Z)
| PInf
| NInf
| NaN.

(** [a + b] *)
Definition add (a b : num) : num :=
  match a, b with
  | NaN, _ | _, NaN => NaN
  | Fin x, Fin y => Fin (x + y)
  | PInf, NInf | NInf, PInf => NaN
  | PInf, _ | _, PInf => PInf
  | NInf, _ | _, NInf => NInf
  end.

(** [-a] *)
Definition neg (a : num) : num :=
  match a with
  | Fin x => Fin (- x)
  | PInf => NInf
  | NInf => PInf
  | NaN => NaN
  end.

(** [a - b] *)
Definition sub (a b : num) : num := add a (neg b).

(** [a <= b]: false as soon as one side is NaN. *)
Definition le (a b : num) : bool :=
  match a, b with
  | NaN, _ | _, NaN => false
  | Fin x, Fin y => x <=? y
  | NInf, _ => true
  | _, PInf => true
  | _, _ => false
  end.

(** [a < b] *)
Definition lt (a b : num) : bool :=
  match a, b with
  | NaN, _ | _, NaN => false
  | Fin x, Fin y => x <? y
  | PInf, _ => false
  | _, NInf => false
  | NInf, _ => true
  | _, PInf => true
  end.

(** [a >= b] and [a > b] *)
Definition ge (a b : num) : bool := le b a.
Definition gt (a b : num) : bool := lt b a.

(** [a === b] on numbers *)
Definition eqb (a b : num) : bool :=
  match a, b with
  | Fin x, Fin y => x =? y
  | PInf, PInf | NInf, NInf => true
  | _, _ => false
  end.

(** [Math.min(a, b)] and [Math.max(a, b)]: NaN as soon as one argument is. *)
Definition min (a b : num) : num :=
  match a, b with
  | NaN, _ | _, NaN => NaN
  | _, _ => if le a b then a else b
  end.

Definition max (a b : num) : num :=
  match a, b with
  | NaN, _ | _, NaN => NaN
  | _, _ => if le a b then b else a
  end.

(** [Math.min(...xs)] is [Infinity] and [Math.max(...xs)] is [-Infinity] on
    no argument. *)
Definition Math_min (xs : list num) : num := fold_left min xs PInf.
Definition Math_max (xs : list num) : num := fold_left max xs NInf.

(** [Math.abs(a)] *)
Definition abs (a : num) : num :=
  match a with
  | Fin x => Fin (Z.abs x)
  | PInf | NInf => PInf
  | NaN => NaN
  end.

(** [a * b]: zero times an infinity is NaN. *)
Definition sgn_mul (pos : bool) (x : Z) : num :=
  if x =? 0 then NaN
  else if Bool.eqb pos (0 <? x) then PInf else NInf.

Definition mul (a b : num) : num :=
  match a, b with
  | NaN, _ | _, NaN => NaN
  | Fin x, Fin y => Fin (x * y)
  | PInf, Fin y | Fin y, PInf => sgn_mul true y
  | NInf, Fin y | Fin y, NInf => sgn_mul false y
  | PInf, PInf | NInf, NInf => PInf
  | PInf, NInf | NInf, PInf => NInf
  end.

(** [a % m] for a positive integer literal [m]: the remainder has the sign
    of the dividend ([Z.rem]); an infinite or NaN dividend gives NaN. *)
Definition rem (a : num) (m : Z) : num :=
  match a with
  | Fin x => Fin (Z.rem x m)
  | _ => NaN
  end.

(** [d / 2] followed by [lo + _] and [Math.floor]: on integers the quotient
    is an exact rational, of which the floor is taken. *)
Definition floor_add_half (lo d : num) : num :=
  match lo, d with
  | Fin l, Fin x => Fin (Qfloor (inject_Z l + inject_Z x / 2))
  | _, _ => add lo d
  end.

(** [xs.reduce((a, b) => a + b, 0)] *)
Definition sum (xs : list num) : num := fold_left add xs (Fin 0).

(** [String(a)], as a template literal or [join] prints a number. *)
Definition show (a : num) : string :=
  match a with
  | Fin x => NilZero.string_of_int (Z.to_int x)
  | PInf => "Infinity"
  | NInf => "-Infinity"
  | NaN => "NaN"
  end.

Definition showZ (z : Z) : string := show (Fin z).

(** [xs.join(sep)] *)
Fixpoint join (sep : string) (xs : list string) : string :=
  match xs with
  | [] => EmptyString
  | [x] => x
  | x :: rest => x ++ sep ++ join sep rest
  end.

(** The character [U+0022], for the template literals that print it. *)
Definition dquote : string := String (ascii_of_nat 34) EmptyString.

(** [xs[xs.length - 1]], [undefined] on an empty array *)
Definition last_opt {A} (xs : list A) : option A :=
  match xs with [] => None | x :: r => Some (List.last r x) end.

(** [xs[i]] for an index [i] that is a JavaScript number *)
Definition at_index {A} (xs : list A) (i : Z) : option A :=
  if i <? 0 then None else nth_error xs (Z.to_nat i).

(** [xs.length] *)
Definition len {A} (xs : list A) : Z := Z.of_nat (List.length xs).

(** [xs.slice(i, j)] for [0 <= i] *)
Definition slice {A} (xs : list A) (i j : Z) : list A :=
  firstn (Z.to_nat (j - i)) (skipn (Z.to_nat i) xs).

(** [xs[i] = v] for an index inside the array *)
Fixpoint set_nth {A} (i : nat) (v : A) (xs : list A) : list A :=
  match i, xs with
  | _, [] => []
  | O, _ :: r => v :: r
  | S j, x :: r => x :: set_nth j v r
  end.

(** [Array.from({length: k}, (_, i) => i)] *)
Definition range (k : Z) : list Z := map Z.of_nat (seq 0 (Z.to_nat k)).

(** [xs.sort((a, b) => cmp(a, b))], which is stable: an element is moved
    in front of another only when the comparator is positive. *)
Fixpoint insert_sorted {A} (cmp : A -> A -> num) (x : A) (xs : list A)
  : list A :=
  match xs with
  | [] => [x]
  | y :: r => if gt (cmp x y) (Fin 0) then y :: insert_sorted cmp x r
              else x :: xs
  end.

Definition sort {A} (cmp : A -> A -> num) (xs : list A) : list A :=
  fold_right (insert_sorted cmp) [] xs.

(** *** Text of an input field *)

Definition comma : ascii := ascii_of_nat 44.
Definition space : ascii := ascii_of_nat 32.
Definition minus : ascii := ascii_of_nat 45.

(** [\d] *)
Definition is_digit (c : ascii) : bool :=
  let n := nat_of_ascii c in (48 <=? n)%nat && (n <=? 57)%nat.

(** White space that [trim] removes, within ASCII. *)
Definition is_space (c : ascii) : bool :=
  let n := nat_of_ascii c in
  (n =? 32)%nat || ((9 <=? n)%nat && (n <=? 13)%nat).

(** [/^[cs]*$/.test(s)] for a character class [cls] *)
Fixpoint all_chars (cls : ascii -> bool) (s : string) : bool :=
  match s with
  | EmptyString => true
  | String c r => cls c && all_chars cls r
  end.

(** [s.split(",")]: the empty text gives one empty token. *)
Fixpoint split_comma (s : string) : list string :=
  match s with
  | EmptyString => [EmptyString]
  | String c r =>
      if Ascii.eqb c comma then EmptyString :: split_comma r
      else match split_comma r with
           | t :: ts => String c t :: ts
           | [] => [String c EmptyString]
           end
  end.

Fixpoint trim_start (s : string) : string :=
  match s with
  | String c r => if is_space c then trim_start r else s
  | EmptyString => s
  end.

(** Removes the white space that ends [s]. *)
Fixpoint trim_end (s : string) : string :=
  match s with
  | EmptyString => EmptyString
  | String c r =>
      match trim_end r with
      | EmptyString => if is_space c then EmptyString else String c EmptyString
      | r' => String c r'
      end
  end.

(** [s.trim()] *)
Definition trim (s : string) : string := trim_end (trim_start s).

(** [s !== ''] *)
Definition nonempty (s : string) : bool :=
  match s with EmptyString => false | _ => true end.

(** The value of a string of decimal digits read after [acc]; [None] when
    another character occurs. *)
Fixpoint digits_value (acc : Z) (s : string) : option Z :=
  match s with
  | EmptyString => Some acc
  | String c r =>
      if is_digit c
      then digits_value (10 * acc + Z.of_nat (nat_of_ascii c - 48)) r
      else None
  end.

(** The number that a numeral of value [a >= 0] denotes.  A number is a
    double: up to 2^53 every integer is one; beyond, the numeral denotes
    the nearest double, the one of even significand when two are as near,
    and [Infinity] once that reaches 2^1024. *)
Definition round_to_double (a : Z) : num :=
  if a <=? 9007199254740992 then Fin a
  else
    let e := Z.log2 a - 52 in
    let q := Z.shiftr a e in
    let r := a - Z.shiftl q e in
    let half := Z.shiftl 1 (e - 1) in
    let q' :=
      if (half <? r) || ((half =? r) && Z.odd q) then q + 1 else q in
    if 1024 <=? Z.log2 (Z.shiftl q' e) then PInf else Fin (Z.shiftl q' e).

(** [Number(s)] for a trimmed token that is not empty and is written with
    digits, spaces and minus signs (all that the patterns of the input
    handlers let through): a numeral is an optional sign followed by digits,
    every other token is NaN. *)
Definition Number (s : string) : num :=
  match s with
  | EmptyString => Fin 0
  | String c r =>
      if Ascii.eqb c minus then
        match r with
        | EmptyString => NaN
        | _ => match digits_value 0 r with
               | Some v => neg (round_to_double v)
               | None => NaN
               end
        end
      else match digits_value 0 s with
           | Some v => round_to_double v
           | None => NaN
           end
  end.

(** [val.split(',').map(s => s.trim()).filter(s => s !== '').map(Number)] *)
Definition parse_parts (val : string) : list num :=
  map Number (filter nonempty (map trim (split_comma val))).

End JS.

(** ** Next Greater Element (monotonic stack) *)

Module NGE.

Import JS.

Inductive Phase := init | loop | pop | record | push | reverse | complete.

Record StepState := mkStep {
  stack : list num;
  rawAns : list num;
  finalAns : list num;
  phase : Phase;
  currentIndex : Z;
  compareVal : option num;
  activeIndices : list Z;
  poppedVal : option num;
  highlightResultIdx : option Z;
  explanation : string;
  codeLine : string
}.

Definition MAX_ARR_SIZE : Z := 12.
Definition MAX_VAL : Z := 50.

(** The inner [while (stack.length > 0)] loop for the element [currentVal]
    at index [i].  [st] is the stack, top first; [ans] is [ansList].  The
    result is the Steps pushed and the stack the loop leaves. *)
Fixpoint pop_loop (i : Z) (currentVal : num) (st ans : list num)
  : list StepState * list num :=
  match st with
  | [] => ([], st)
  | topVal :: below =>
      let check :=
        mkStep (rev st) ans [] pop i (Some topVal) [i] None None
          ("Check Stack Top (" ++ show topVal ++ "). Is " ++ show currentVal
             ++ " >= " ++ show topVal ++ "?")
          "check-pop" in
      if ge currentVal topVal then
        let popped :=
          mkStep (rev below) ans [] pop i None [i] (Some topVal) None
            ("Yes, " ++ show currentVal ++ " >= " ++ show topVal ++ ". Pop "
               ++ show topVal ++ " because it cannot be the " ++ dquote
               ++ "Next Greater" ++ dquote ++ " for " ++ show currentVal
               ++ " or anyone to the left.")
            "do-pop" in
        let '(more, st') := pop_loop i currentVal below ans in
        (check :: popped :: more, st')
      else
        let stop :=
          mkStep (rev st) ans [] pop i (Some topVal) [i] None None
            ("No, " ++ show currentVal ++ " < " ++ show topVal
               ++ ". Stop popping. " ++ show topVal
               ++ " is the next greater element.")
            "check-pop" in
        ([check; stop], st)
  end.

(** Step 4 of the loop body: the answer recorded for the current element,
    read off the stack the pop loop left. *)
Definition recordedVal (st : list num) : num :=
  match st with
  | top :: _ => top
  | [] => Fin (-1)
  end.

Definition record_step (i : Z) (st ans' : list num) : StepState :=
  match st with
  | top :: _ =>
      mkStep (rev st) ans' [] record i None [i] None (Some (len ans' - 1))
        ("Stack is not empty. Next greater is stack top (" ++ show top
           ++ "). Add to 'ans'.")
        "add-peek"
  | [] =>
      mkStep (rev st) ans' [] record i None [i] None (Some (len ans' - 1))
        "Stack is empty. No greater element to the right. Add -1 to 'ans'."
        "add-neg1"
  end.

(** One iteration of [for (let i = n - 1; i >= 0; i--)] at index [i] with
    [currentVal = arr[i]]. *)
Definition body (i : Z) (currentVal : num) (st ans : list num)
  : list StepState * (list num * list num) :=
  let start :=
    mkStep (rev st) ans [] loop i None [i] None None
      ("Processing index " ++ showZ i ++ " (Value: " ++ show currentVal
         ++ ").")
      "loop" in
  let '(pops, st1) := pop_loop i currentVal st ans in
  let ans1 := ans ++ [recordedVal st1] in
  let rec := record_step i st1 ans1 in
  let st2 := currentVal :: st1 in
  let pushed :=
    mkStep (rev st2) ans1 [] push i None [i] None None
      ("Push current value " ++ show currentVal ++ " onto the stack.")
      "push" in
  (start :: pops ++ [rec; pushed], (st2, ans1)).

(** The [for] loop, from index [k - 1] down to [0]. *)
Fixpoint main_loop (arr : list num) (k : nat) (st ans : list num)
  : list StepState * (list num * list num) :=
  match k with
  | O => ([], (st, ans))
  | S i =>
      let '(steps1, (st1, ans1)) :=
        body (Z.of_nat i) (nth i arr NaN) st ans in
      let '(steps2, fin) := main_loop arr i st1 ans1 in
      (steps1 ++ steps2, fin)
  end.

Definition init_step : StepState :=
  mkStep [] [] [] init (-1) None [] None None
    "Initialize an empty Stack and an ArrayList 'ans'." "init".

(** The [newSteps] array that [generateSteps] builds from [arr]. *)
Definition trace (arr : list num) : list StepState :=
  let '(steps, (st, ans)) := main_loop arr (List.length arr) [] [] in
  let final := rev ans in
  init_step :: steps ++
    [ mkStep (rev st) ans [] reverse (-1) None [] None None
        "Loop complete. The 'ans' list was built backwards (for n-1 down to 0). Now reverse it."
        "reverse";
      mkStep (rev st) ans final complete (-1) None [] None None
        ("Reversed 'ans' matches the input array order. Final Result: ["
           ++ join ", " (map show final) ++ "]")
        "return" ].

(** *** The component *)

Record Component := mkComponent {
  arr : list num;
  isConfigOpen : bool;
  playbackSpeed : Z;
  isPlaying : bool;
  steps : list StepState;
  currentStepIndex : Z
}.

(** The state of the first render: the [useState] initial values. *)
Definition initial : Component :=
  mkComponent [Fin 1; Fin 3; Fin 2; Fin 4] true 1000 false [] 0.

(** [generateSteps]: reads [arr], then [setSteps(newSteps)],
    [setCurrentStepIndex(0)], [setIsPlaying(false)]. *)
Definition generateSteps (c : Component) : Component :=
  mkComponent (arr c) (isConfigOpen c) (playbackSpeed c) false
    (trace (arr c)) 0.

(** [setArr(parts)] followed by the effect [useEffect(..., [arr])] that the
    new array triggers. *)
Definition setArr (parts : list num) (c : Component) : Component :=
  generateSteps
    (mkComponent parts (isConfigOpen c) (playbackSpeed c) (isPlaying c)
       (steps c) (currentStepIndex c)).

(** The component once mounted: the effect has run on the first render. *)
Definition mounted : Component := generateSteps initial.

Definition setCurrentStepIndex (i : Z) (c : Component) : Component :=
  mkComponent (arr c) (isConfigOpen c) (playbackSpeed c) (isPlaying c)
    (steps c) i.

Definition setIsPlaying (b : bool) (c : Component) : Component :=
  mkComponent (arr c) (isConfigOpen c) (playbackSpeed c) b
    (steps c) (currentStepIndex c).

Definition setPlaybackSpeed (ms : Z) (c : Component) : Component :=
  mkComponent (arr c) (isConfigOpen c) ms (isPlaying c)
    (steps c) (currentStepIndex c).

Definition handleNext (c : Component) : Component :=
  if currentStepIndex c <? len (steps c) - 1
  then setCurrentStepIndex (currentStepIndex c + 1) c
  else setIsPlaying false c.

Definition handlePrev (c : Component) : Component :=
  if currentStepIndex c >? 0
  then setCurrentStepIndex (currentStepIndex c - 1) c
  else c.

Definition handleReset (c : Component) : Component :=
  setIsPlaying false (setCurrentStepIndex 0 c).

Definition togglePlay (c : Component) : Component :=
  setIsPlaying (negb (isPlaying c)) c.

(** The transport operations of the player; [Tick] is the interval timer
    calling [handleNext], which is armed only while [isPlaying]. *)
Inductive Op :=
| Next | Prev | Reset | Toggle | Tick | Speed (ms : Z).

Definition apply_op (o : Op) (c : Component) : Component :=
  match o with
  | Next => handleNext c
  | Prev => handlePrev c
  | Reset => handleReset c
  | Toggle => togglePlay c
  | Tick => if isPlaying c then handleNext c else c
  | Speed ms => setPlaybackSpeed ms c
  end.

Definition run (ops : list Op) (c : Component) : Component :=
  fold_left (fun c o => apply_op o c) ops c.

(** [/^[\d, -]*$/] *)
Definition allowed (c : ascii) : bool :=
  is_digit c || Ascii.eqb c comma || Ascii.eqb c space || Ascii.eqb c minus.

(** [handleArrChange] on the text [val] of the input field. *)
Definition handleArrChange (val : string) (c : Component) : Component :=
  if all_chars allowed val then
    let parts := parse_parts val in
    if (len parts <=? MAX_ARR_SIZE)
       && forallb (fun n => le (abs n) (Fin MAX_VAL)) parts
    then setArr parts c
    else c
  else c.

(** [currentStep = steps[currentStepIndex]], what the renderer draws. *)
Definition currentStep (c : Component) : option StepState :=
  at_index (steps c) (currentStepIndex c).

End NGE.

(** ** Sum of Subarray Minimums *)

Module SubarrayMins.

Import JS.

Record StepState := mkStep {
  startIdx : Z;
  endIdx : Z;
  currentMin : num;
  addedVal : num;
  totalSum : num;
  explanation : string;
  subarrayStr : string
}.

Definition MOD : Z := 1000000007.

(** The inner [for (let idx = i; idx < n; idx++)]; [rest] is [arr] from
    index [idx] on, so that [arr[idx]] is its head. *)
Fixpoint inner (arr : list num) (i idx : Z) (rest : list num)
    (currentMin totalSum : num) : list StepState * num :=
  match rest with
  | [] => ([], totalSum)
  | x :: rest' =>
      let currentMin := min currentMin x in
      let totalSum := rem (add totalSum currentMin) MOD in
      let step :=
        mkStep i idx currentMin currentMin totalSum
          ("Subarray [" ++ showZ i ++ "..." ++ showZ idx
             ++ "]: New element is " ++ show x ++ ". Min(" ++ show currentMin
             ++ ", " ++ show x ++ ") = " ++ show currentMin ++ ". Add "
             ++ show currentMin ++ " to total.")
          ("[" ++ join ", " (map show (slice arr i (idx + 1))) ++ "]") in
      let '(more, total) := inner arr i (idx + 1) rest' currentMin totalSum in
      (step :: more, total)
  end.

(** The outer [for (let i = 0; i < n; i++)]; [suffix] is [arr] from index
    [i] on. *)
Fixpoint outer (arr : list num) (i : Z) (suffix : list num) (totalSum : num)
  : list StepState * num :=
  match suffix with
  | [] => ([], totalSum)
  | _ :: suffix' =>
      let '(steps1, total1) := inner arr i i suffix PInf totalSum in
      let '(steps2, total2) := outer arr (i + 1) suffix' total1 in
      (steps1 ++ steps2, total2)
  end.

Definition done_step (totalSum : num) : StepState :=
  mkStep (-1) (-1) (Fin 0) (Fin 0) totalSum
    "All subarrays processed." "Complete".

(** The [newSteps] array that [generateSteps] builds from [arr]. *)
Definition trace (arr : list num) : list StepState :=
  let '(steps, total) := outer arr 0 arr (Fin 0) in
  steps ++ [done_step total].

Record Component := mkComponent {
  arr : list num;
  isPlaying : bool;
  playbackSpeed : Z;
  steps : list StepState;
  currentStepIndex : Z;
  isConfigOpen : bool
}.

Definition initial : Component :=
  mkComponent [Fin 3; Fin 1; Fin 2; Fin 4] false 800 [] 0 true.

Definition generateSteps (c : Component) : Component :=
  mkComponent (arr c) false (playbackSpeed c) (trace (arr c)) 0
    (isConfigOpen c).

(** [setArr(parts)] and the effect on [[arr]] it triggers. *)
Definition setArr (parts : list num) (c : Component) : Component :=
  generateSteps
    (mkComponent parts (isPlaying c) (playbackSpeed c) (steps c)
       (currentStepIndex c) (isConfigOpen c)).

Definition mounted : Component := generateSteps initial.

(** [/^[\d, ]*$/] *)
Definition allowed (c : ascii) : bool :=
  is_digit c || Ascii.eqb c comma || Ascii.eqb c space.

Definition handleArrChange (val : string) (c : Component) : Component :=
  if all_chars allowed val then
    let parts := parse_parts val in
    if (len parts >? 0) && (len parts <=? 15)
    then setArr parts c
    else c
  else c.

End SubarrayMins.

(** ** Number of Ways to Arrive at Destination (LeetCode 1976) *)

Module Ways.

Import JS.

Record Edge := mkEdge { to : Z; weight : Z }.

Record Entry := mkEntry { node : Z; edist : num }.

Inductive Highlight := none | relax | accumulate | ignore.

Record Step := mkStep {
  id : Z;
  description : string;
  pq : list Entry;
  dist : list num;
  ways : list num;
  activeNode : option Z;
  activeNeighbor : option Z;
  highlightType : Highlight;
  processed : list bool
}.

Definition n : Z := 7.

Definition roads : list (Z * Z * Z) :=
  [ (0, 6, 7); (0, 1, 2); (1, 2, 3); (1, 3, 3); (6, 3, 3);
    (3, 5, 1); (6, 5, 1); (2, 5, 1); (0, 4, 5); (4, 6, 2) ].

Definition MOD : Z := 1000000007.

(** [adj[u].push(e)] *)
Definition push_edge (u : Z) (e : Edge) (adj : list (list Edge))
  : list (list Edge) :=
  set_nth (Z.to_nat u) (nth (Z.to_nat u) adj [] ++ [e]) adj.

(** The adjacency lists: both directions of every road, then every list
    sorted by neighbour. *)
Definition build_adj (n : Z) (roads : list (Z * Z * Z)) : list (list Edge) :=
  let adj0 := repeat [] (Z.to_nat n) in
  let adj1 :=
    fold_left
      (fun adj '(u, v, w) =>
         push_edge v (mkEdge u w) (push_edge u (mkEdge v w) adj))
      roads adj0 in
  map (sort (fun a b => Fin (to a - to b))) adj1.

Definition by_dist (a b : Entry) : num := sub (edist a) (edist b).

(** The mutable state of the simulation. *)
Record Sim := mkSim {
  s_steps : list Step;
  s_pq : list Entry;
  s_dist : list num;
  s_ways : list num;
  s_processed : list bool
}.

Definition get (xs : list num) (i : Z) : num := nth (Z.to_nat i) xs NaN.

Definition addStep (desc : string) (currNode currNeigh : option Z)
    (type : Highlight) (s : Sim) : Sim :=
  mkSim
    (s_steps s ++
       [ mkStep (len (s_steps s)) desc (sort by_dist (s_pq s)) (s_dist s)
           (s_ways s) currNode currNeigh type (s_processed s) ])
    (s_pq s) (s_dist s) (s_ways s) (s_processed s).

(** The body of [for (const edge of adj[u])] for the entry [(u, d)]. *)
Definition relax_edge (u : Z) (d : num) (edge : Edge) (s : Sim) : Sim :=
  let v := to edge in
  let time := Fin (weight edge) in
  let newDist := add d time in
  let s :=
    addStep ("Check neighbor Node " ++ showZ v ++ " (weight " ++ show time
               ++ "). New path time: " ++ show d ++ " + " ++ show time
               ++ " = " ++ show newDist)
      (Some u) (Some v) none s in
  if lt newDist (get (s_dist s) v) then
    let dist' := set_nth (Z.to_nat v) newDist (s_dist s) in
    let ways' := set_nth (Z.to_nat v) (get (s_ways s) u) (s_ways s) in
    let pq' := s_pq s ++ [mkEntry v newDist] in
    addStep ("Found SHORTER path to " ++ showZ v ++ "! Update dist["
               ++ showZ v ++ "]=" ++ show newDist ++ ". Ways[" ++ showZ v
               ++ "] is now Ways[" ++ showZ u ++ "] (" ++ show (get ways' u)
               ++ "). Push to PQ.")
      (Some u) (Some v) relax
      (mkSim (s_steps s) pq' dist' ways' (s_processed s))
  else if eqb newDist (get (s_dist s) v) then
    let ways' :=
      set_nth (Z.to_nat v)
        (rem (add (get (s_ways s) v) (get (s_ways s) u)) MOD) (s_ways s) in
    addStep ("Found EQUAL path to " ++ showZ v ++ "! Add Ways[" ++ showZ u
               ++ "] (" ++ show (get ways' u) ++ ") to Ways[" ++ showZ v
               ++ "]. New Ways[" ++ showZ v ++ "] = " ++ show (get ways' v)
               ++ ".")
      (Some u) (Some v) accumulate
      (mkSim (s_steps s) (s_pq s) (s_dist s) ways' (s_processed s))
  else
    addStep ("Path to " ++ showZ v ++ " (" ++ show newDist
               ++ ") is longer than existing (" ++ show (get (s_dist s) v)
               ++ "). Ignore.")
      (Some u) (Some v) ignore s.

(** [while (pq.length > 0)], at most [fuel] iterations; [None] when the
    queue is not empty after them. *)
Fixpoint dijkstra (adj : list (list Edge)) (fuel : nat) (s : Sim)
  : option Sim :=
  match sort by_dist (s_pq s) with
  | [] => Some s
  | mkEntry u d :: rest =>
      match fuel with
      | O => None
      | S fuel' =>
          let s :=
            addStep ("Pop Node " ++ showZ u ++ " (time: " ++ show d
                       ++ ") from Priority Queue")
              (Some u) None none
              (mkSim (s_steps s) rest (s_dist s) (s_ways s) (s_processed s))
          in
          if gt d (get (s_dist s) u) then
            dijkstra adj fuel'
              (addStep ("Node " ++ showZ u
                          ++ " has already been processed with a shorter time. Ignore.")
                 (Some u) None ignore s)
          else
            let s :=
              mkSim (s_steps s) (s_pq s) (s_dist s) (s_ways s)
                (set_nth (Z.to_nat u) true (s_processed s)) in
            dijkstra adj fuel'
              (fold_left (fun s e => relax_edge u d e s)
                 (nth (Z.to_nat u) adj []) s)
      end
  end.

(** The [useMemo] body on the graph [(n, roads)], with [fuel] iterations
    of the main loop allowed. *)
Definition simulate (fuel : nat) (n : Z) (roads : list (Z * Z * Z))
  : option (list Step) :=
  let adj := build_adj n roads in
  let k := Z.to_nat n in
  let s0 :=
    mkSim [] [mkEntry 0 (Fin 0)]
      (set_nth 0 (Fin 0) (repeat PInf k))
      (set_nth 0 (Fin 1) (repeat (Fin 0) k))
      (repeat false k) in
  let s1 :=
    addStep "Initialize: Start at Node 0 with dist=0, ways=1" None None
      none s0 in
  match dijkstra adj fuel s1 with
  | Some s =>
      Some (s_steps
              (addStep "Queue is empty. Algorithm Finished." None None none s))
  | None => None
  end.

(** [simulation.steps] of the component; the queue of the fixed graph is
    empty well before the iterations allowed here. *)
Definition steps : list Step :=
  match simulate 64 n roads with
  | Some t => t
  | None => []
  end.

(** *** The player of the component *)

Record Player := mkPlayer {
  stepIndex : Z;
  isPlaying : bool
}.

(** [useState(0)] and [useState(false)] *)
Definition initial : Player := mkPlayer 0 false.

(** The effect on [[isPlaying, stepIndex, simulation.steps.length]], for a
    simulation of [count] Steps: it arms the 1500 ms timeout or stops the
    playback.  It runs after every render that changed one of the three,
    before the next event is handled. *)
Definition effect (count : Z) (p : Player) : Player :=
  if isPlaying p && (stepIndex p <? count - 1) then p
  else mkPlayer (stepIndex p) false.

(** The four buttons and the timeout, which is armed only while the
    playback runs below the last index. *)
Inductive Op := Reset | Back | Toggle | Forward | Timeout.

Definition handle (count : Z) (o : Op) (p : Player) : Player :=
  match o with
  | Reset => mkPlayer 0 (isPlaying p)
  | Back => mkPlayer (Z.max 0 (stepIndex p - 1)) (isPlaying p)
  | Toggle => mkPlayer (stepIndex p) (negb (isPlaying p))
  | Forward => mkPlayer (Z.min (count - 1) (stepIndex p + 1)) (isPlaying p)
  | Timeout =>
      if isPlaying p && (stepIndex p <? count - 1)
      then mkPlayer (stepIndex p + 1) (isPlaying p)
      else p
  end.

(** An event and the effect that follows its render. *)
Definition apply_op (count : Z) (o : Op) (p : Player) : Player :=
  effect count (handle count o p).

Definition run (count : Z) (ops : list Op) (p : Player) : Player :=
  fold_left (fun p o => apply_op count o p) ops p.

End Ways.

(** ** Capacity To Ship Packages Within D Days (LeetCode 1011) *)

Module Ship.

Import JS.

Inductive Phase :=
| search | sim_start | sim_load | sim_overflow | sim_fail | sim_success
| complete.

Record StepState := mkStep {
  low : num;
  high : num;
  mid : num;
  ans : num;
  phase : Phase;
  currentDay : Z;
  currentLoad : num;
  processedPackages : list Z;
  dayLoads : list (list num);
  errorMsg : option string;
  explanation : string;
  codeLine : string
}.

Definition MAX_ARR_SIZE : Z := 15.
Definition MAX_VAL : Z := 50.

(** [allDayLoads[day - 1].push(wt)] *)
Definition push_at (i : Z) (wt : num) (bins : list (list num))
  : list (list num) :=
  set_nth (Z.to_nat i) (nth (Z.to_nat i) bins [] ++ [wt]) bins.

(** What the simulation of [canShip] leaves: [possible], [currWeight],
    [day]. *)
Record SimResult := mkSim {
  possible : bool;
  currWeight : num;
  day : Z;
  allDayLoads : list (list num)
}.

(** The [for (let i = 0; i < weights.length; i++)] loop of one probe;
    [rest] is [weights] from index [i] on.  The snapshots of [allDayLoads]
    go through JSON, which keeps the integers that the bins hold. *)
Fixpoint sim (low high mid ans : num) (i : Z) (rest : list num)
    (currWeight : num) (day : Z) (bins : list (list num))
  : list StepState * SimResult :=
  match rest with
  | [] => ([], mkSim true currWeight day bins)
  | wt :: rest' =>
      let consider :=
        mkStep low high mid ans sim_load day currWeight (range i) bins None
          ("Checking package weight " ++ show wt ++ ". Current load: "
             ++ show currWeight ++ "/" ++ show mid ++ ".")
          "sim-check" in
      let '(loaded, currWeight', day', bins') :=
        if le (add currWeight wt) mid then
          let cw := add currWeight wt in
          let bins1 := push_at (day - 1) wt bins in
          (mkStep low high mid ans sim_load day cw (range (i + 1)) bins1 None
             ("Added " ++ show wt ++ ". Load is now " ++ show cw ++ ".")
             "sim-add",
           cw, day, bins1)
        else
          let bins1 := bins ++ [[wt]] in
          (mkStep low high mid ans sim_overflow (day + 1) wt (range (i + 1))
             bins1 None
             ("Capacity exceeded! Starting Day " ++ showZ (day + 1)
                ++ " with package " ++ show wt ++ ".")
             "sim-new-day",
           wt, day + 1, bins1) in
      if gt currWeight' mid then
        ([ consider; loaded;
           mkStep low high mid ans sim_fail day' currWeight' (range (i + 1))
             bins'
             (Some ("Package " ++ show wt ++ " is heavier than capacity "
                      ++ show mid ++ "!")%string)
             ("Impossible. Single package " ++ show wt ++ " > Capacity "
                ++ show mid ++ ".")
             "sim-fail-weight" ],
         mkSim false currWeight' day' bins')
      else
        let '(more, r) :=
          sim low high mid ans (i + 1) rest' currWeight' day' bins' in
        (consider :: loaded :: more, r)
  end.

(** One iteration of [while (low <= high)]: the Steps it pushes and the
    new [low], [high], [ans]. *)
Definition probe (weights : list num) (days : Z) (low high ans : num)
  : list StepState * (num * num * num) :=
  let mid := floor_add_half low (sub high low) in
  let start :=
    mkStep low high mid ans sim_start 1 (Fin 0) [] [[]] None
      ("Test Capacity: " ++ show mid ++ ". Can we ship within "
         ++ showZ days ++ " days?")
      "calc-mid" in
  let '(steps, r) := sim low high mid ans 0 weights (Fin 0) 1 [[]] in
  if possible r then
    if day r <=? days then
      (start :: steps ++
         [ mkStep low high mid mid sim_success (day r) (currWeight r)
             (range (len weights)) (allDayLoads r) None
             ("Success! Used " ++ showZ (day r) ++ " days (<= "
                ++ showZ days ++ "). Capacity " ++ show mid
                ++ " is valid. Try smaller?")
             "check-success" ],
       (low, sub mid (Fin 1), mid))
    else
      (start :: steps ++
         [ mkStep low high mid ans sim_fail (day r) (currWeight r)
             (range (len weights)) (allDayLoads r)
             (Some ("Took " ++ showZ (day r) ++ " days! Limit is "
                      ++ showZ days ++ ".")%string)
             ("Too many days (" ++ showZ (day r) ++ " > " ++ showZ days
                ++ "). Need larger capacity.")
             "check-fail-days" ],
       (add mid (Fin 1), high, ans))
  else
    (start :: steps, (add mid (Fin 1), high, ans)).

(** [while (low <= high)], at most [fuel] iterations; [None] when the
    condition still holds after them. *)
Fixpoint search_loop (weights : list num) (days : Z) (fuel : nat)
    (low high ans : num) : option (list StepState * (num * num * num)) :=
  if le low high then
    match fuel with
    | O => None
    | S fuel' =>
        let '(steps1, (low1, high1, ans1)) :=
          probe weights days low high ans in
        match search_loop weights days fuel' low1 high1 ans1 with
        | Some (steps2, fin) => Some (steps1 ++ steps2, fin)
        | None => None
        end
    end
  else Some ([], (low, high, ans)).

Definition init_step (low high : num) : StepState :=
  mkStep low high (Fin 0) (Fin 0) search 0 (Fin 0) [] [] None
    ("Initialize Binary Search. Low (min element) = " ++ show low
       ++ ", High (sum) = " ++ show high ++ ".")
    "init".

Definition complete_step (low high ans : num) : StepState :=
  mkStep low high (Fin (-1)) ans complete 0 (Fin 0) [] [] None
    ("Binary Search Complete. Minimum Capacity: " ++ show ans ++ ".")
    "return".

(** The [newSteps] array of [generateSteps], when the search loop ends
    within [fuel] iterations. *)
Definition trace_fuel (fuel : nat) (weights : list num) (days : Z)
  : option (list StepState) :=
  let low := Math_min weights in
  let high := sum weights in
  match search_loop weights days fuel low high (Fin 0) with
  | Some (steps, (low', high', ans')) =>
      Some (init_step low high :: steps ++ [complete_step low' high' ans'])
  | None => None
  end.

(** Every iteration shrinks an interval of integers, so its width bounds
    the number of iterations; one iteration covers the bounds that are not
    both integers. *)
Definition iterations (low high : num) : nat :=
  match low, high with
  | Fin l, Fin h => Z.to_nat (h - l + 1)
  | _, _ => 1
  end.

Definition trace (weights : list num) (days : Z) : option (list StepState) :=
  trace_fuel (iterations (Math_min weights) (sum weights)) weights days.

Record Component := mkComponent {
  weights : list num;
  days : Z;
  isConfigOpen : bool;
  playbackSpeed : Z;
  isPlaying : bool;
  steps : list StepState;
  currentStepIndex : Z
}.

Definition initial : Component :=
  mkComponent (map Fin [1; 2; 3; 4; 5; 6; 7; 8; 9; 10]) 5 true 1000 false
    [] 0.

(** [generateSteps]; a run of the search loop that does not end never
    reaches the three setters. *)
Definition generateSteps (c : Component) : option Component :=
  match trace (weights c) (days c) with
  | Some t =>
      Some (mkComponent (weights c) (days c) (isConfigOpen c)
              (playbackSpeed c) false t 0)
  | None => None
  end.

(** [setWeights(parts)] and the effect on [[weights, days]]. *)
Definition setWeights (parts : list num) (c : Component)
  : option Component :=
  generateSteps
    (mkComponent parts (days c) (isConfigOpen c) (playbackSpeed c)
       (isPlaying c) (steps c) (currentStepIndex c)).

(** [/^[\d, ]*$/] *)
Definition allowed (c : ascii) : bool :=
  is_digit c || Ascii.eqb c comma || Ascii.eqb c space.

Definition handleWeightChange (val : string) (c : Component)
  : option Component :=
  if all_chars allowed val then
    let parts := parse_parts val in
    if (len parts <=? MAX_ARR_SIZE)
       && forallb (fun n => le n (Fin MAX_VAL)) parts
    then setWeights parts c
    else Some c
  else Some c.

End Ship.

(** ** Split Array Largest Sum (LeetCode 410) *)

Module SplitArray.

Import JS.

Inductive Phase := search | check_start | check_process | check_result.

Record StepState := mkStep {
  lo : num;
  hi : num;
  mid : num;
  res : num;
  phase : Phase;
  checkIndex : option Z;
  currentSum : option num;
  partitionCount : option Z;
  splitIndices : list Z;
  explanation : string;
  codeLine : string;
  isFeasible : option bool
}.

Definition MAX_VAL : Z := 100.
Definition MAX_ARR_SIZE : Z := 12.

(** The [for (let i = 0; i < n; i++)] loop of the check function; [rest]
    is [arr] from index [i] on.  It leaves [partitions], [currentSum] and
    [splits]. *)
Fixpoint check (lo hi mid res : num) (i : Z) (rest : list num)
    (partitions : Z) (currentSum : num) (splits : list Z)
  : list StepState * (Z * num * list Z) :=
  match rest with
  | [] => ([], (partitions, currentSum, splits))
  | val :: rest' =>
      let processing :=
        mkStep lo hi mid res check_process (Some i) (Some currentSum)
          (Some partitions) splits
          ("Checking element " ++ show val ++ ". Current Sum: "
             ++ show currentSum ++ ".")
          "check-loop" None in
      let '(placed, partitions', currentSum', splits') :=
        if gt (add currentSum val) mid then
          let splits1 := splits ++ [i] in
          (mkStep lo hi mid res check_process (Some i) (Some val)
             (Some (partitions + 1)) splits1
             ("Adding " ++ show val ++ " exceeds limit " ++ show mid
                ++ ". SPLIT! New partition starts at " ++ show val
                ++ ". Count: " ++ showZ (partitions + 1))
             "check-split" None,
           partitions + 1, val, splits1)
        else
          let cs := add currentSum val in
          (mkStep lo hi mid res check_process (Some i) (Some cs)
             (Some partitions) splits
             ("Adding " ++ show val ++ " fits (" ++ show cs ++ " ≤ "
                ++ show mid ++ "). Continue.")
             "check-add" None,
           partitions, cs, splits) in
      let '(more, r) :=
        check lo hi mid res (i + 1) rest' partitions' currentSum' splits' in
      (processing :: placed :: more, r)
  end.

(** One iteration of [while (lo <= hi)]. *)
Definition probe (arr : list num) (k : Z) (lo hi res : num)
  : list StepState * (num * num * num) :=
  let mid := floor_add_half lo (sub hi lo) in
  let start :=
    mkStep lo hi mid res check_start (Some (-1)) (Some (Fin 0)) (Some 1) []
      ("Test Capacity: " ++ show mid ++ ". Can we split the array into ≤ "
         ++ showZ k ++ " subarrays where each sum ≤ " ++ show mid ++ "?")
      "calc-mid" None in
  let '(steps, (partitions, currentSum, splits)) :=
    check lo hi mid res 0 arr 1 (Fin 0) [] in
  let valid := partitions <=? k in
  let result :=
    mkStep lo hi mid res check_result (Some (len arr - 1)) (Some currentSum)
      (Some partitions) splits
      ("Check complete. Partitions Needed: " ++ showZ partitions
         ++ ". Target (k): " ++ showZ k ++ ". "
         ++ (if valid then "Valid! (Try smaller capacity)"
             else "Invalid! (Need larger capacity)"))
      "check-return" (Some valid) in
  if valid then
    let hi' := sub mid (Fin 1) in
    (start :: steps ++
       [ result;
         mkStep lo hi' mid mid search None None None splits
           ("Store result " ++ show mid ++ ". Try lower half: set High = "
              ++ show (sub mid (Fin 1)) ++ ".")
           "update-hi" None ],
     (lo, hi', mid))
  else
    let lo' := add mid (Fin 1) in
    (start :: steps ++
       [ result;
         mkStep lo' hi mid res search None None None splits
           ("Capacity too small. Try upper half: set Low = "
              ++ show (add mid (Fin 1)) ++ ".")
           "update-lo" None ],
     (lo', hi, res)).

Fixpoint search_loop (arr : list num) (k : Z) (fuel : nat)
    (lo hi res : num) : option (list StepState * (num * num * num)) :=
  if le lo hi then
    match fuel with
    | O => None
    | S fuel' =>
        let '(steps1, (lo1, hi1, res1)) := probe arr k lo hi res in
        match search_loop arr k fuel' lo1 hi1 res1 with
        | Some (steps2, fin) => Some (steps1 ++ steps2, fin)
        | None => None
        end
    end
  else Some ([], (lo, hi, res)).

Definition init_step (lo hi : num) : StepState :=
  mkStep lo hi (Fin (-1)) (Fin (-1)) search (Some (-1)) (Some (Fin 0))
    (Some 0) []
    ("Initialize Binary Search range. Low (max element) = " ++ show lo
       ++ ", High (sum of array) = " ++ show hi ++ ".")
    "init" None.

Definition final_step (lo hi res : num) : StepState :=
  mkStep lo hi (Fin (-1)) res search None None None []
    ("Search complete. The minimal largest sum is " ++ show res ++ ".")
    "return-res" None.

Definition trace_fuel (fuel : nat) (arr : list num) (k : Z)
  : option (list StepState) :=
  let lo := Math_max arr in
  let hi := sum arr in
  match search_loop arr k fuel lo hi (Fin (-1)) with
  | Some (steps, (lo', hi', res')) =>
      Some (init_step lo hi :: steps ++ [final_step lo' hi' res'])
  | None => None
  end.

Definition iterations (lo hi : num) : nat :=
  match lo, hi with
  | Fin l, Fin h => Z.to_nat (h - l + 1)
  | _, _ => 1
  end.

Definition trace (arr : list num) (k : Z) : option (list StepState) :=
  trace_fuel (iterations (Math_max arr) (sum arr)) arr k.

Record Component := mkComponent {
  arr : list num;
  k : Z;
  isConfigOpen : bool;
  playbackSpeed : Z;
  isPlaying : bool;
  steps : list StepState;
  currentStepIndex : Z
}.

Definition initial : Component :=
  mkComponent (map Fin [7; 2; 5; 10; 8]) 2 true 1000 false [] 0.

Definition generateSteps (c : Component) : option Component :=
  match trace (arr c) (k c) with
  | Some t =>
      Some (mkComponent (arr c) (k c) (isConfigOpen c) (playbackSpeed c)
              false t 0)
  | None => None
  end.

(** What becomes of the note after an event: it shows a state; it is
    unmounted, an exception having left the render, which nothing catches;
    or it never leaves [generateSteps]. *)
Inductive Outcome :=
| Shows (c : Component)
| Unmounted
| Hangs.

(** [currentStep = steps[currentStepIndex]] *)
Definition currentStep (c : Component) : option StepState :=
  at_index (steps c) (currentStepIndex c).

(** The render draws the bar of the range under [currentStep && ...], and
    there evaluates [arr.reduce((a, b) => a + b)], without initial value:
    on the empty array this throws. *)
Definition render_throws (c : Component) : bool :=
  match currentStep c, arr c with
  | Some _, [] => true
  | _, _ => false
  end.

Definition render (c : Component) : Outcome :=
  if render_throws c then Unmounted else Shows c.

(** A state [c] in which [arr] or [k] has just been set: the render of
    [c], then the effect on [[arr, k]], which runs [generateSteps], and the
    render of what it has set. *)
Definition update (c : Component) : Outcome :=
  if render_throws c then Unmounted
  else match generateSteps c with
       | Some c' => render c'
       | None => Hangs
       end.

Definition setArr (parts : list num) (c : Component) : Outcome :=
  update
    (mkComponent parts (k c) (isConfigOpen c) (playbackSpeed c)
       (isPlaying c) (steps c) (currentStepIndex c)).

(** The first render has no Step yet; the effect follows. *)
Definition mounted : Outcome := update initial.

(** [/^[\d, ]*$/] *)
Definition allowed (c : ascii) : bool :=
  is_digit c || Ascii.eqb c comma || Ascii.eqb c space.

Definition handleArrChange (val : string) (c : Component) : Outcome :=
  if all_chars allowed val then
    let parts := parse_parts val in
    if (len parts <=? MAX_ARR_SIZE)
       && forallb (fun n => le n (Fin MAX_VAL)) parts
    then setArr parts c
    else Shows c
  else Shows c.

End SplitArray.

(** ** Maximum Product Subarray *)

Module MaxProduct.

Import JS.

Inductive Phase :=
| init | check_neg | swap | calc_max | calc_min | update_res | complete.

Record StepState := mkStep {
  nums : list num;
  phase : Phase;
  currentIndex : Z;
  currVal : num;
  maxSoFar : num;
  minSoFar : num;
  result : num;
  prevMax : num;
  prevMin : num;
  didSwap : bool;
  explanation : string;
  codeLine : string
}.

(** The [for (let i = 1; i < nums.length; i++)] loop; [rest] is [nums]
    from index [i] on. *)
Fixpoint main_loop (nums : list num) (i : Z) (rest : list num)
    (maxSoFar minSoFar result : num) : list StepState * (num * num * num) :=
  match rest with
  | [] => ([], (maxSoFar, minSoFar, result))
  | curr :: rest' =>
      let prevMax := maxSoFar in
      let prevMin := minSoFar in
      let check :=
        mkStep nums check_neg i curr maxSoFar minSoFar result prevMax prevMin
          false
          ("Process index " ++ showZ i ++ " (Value: " ++ show curr
             ++ "). Is " ++ show curr ++ " < 0?")
          "loop-start" in
      let '(swaps, maxSoFar, minSoFar) :=
        if lt curr (Fin 0) then
          ([ mkStep nums swap i curr minSoFar maxSoFar result prevMax prevMin
               true
               ("Yes, " ++ show curr
                  ++ " is negative. Multiplying by a negative flips signs, so max becomes min and min becomes max. Swap them!")
               "swap" ],
           minSoFar, maxSoFar)
        else ([], maxSoFar, minSoFar) in
      let calcPrevMax := maxSoFar in
      let calcPrevMin := minSoFar in
      let newMax := max curr (mul curr maxSoFar) in
      let cmax :=
        mkStep nums calc_max i curr maxSoFar minSoFar result calcPrevMax
          calcPrevMin false
          ("Update maxSoFar: Max(" ++ show curr ++ ", " ++ show curr ++ " * "
             ++ show calcPrevMax ++ ") = " ++ show newMax ++ ".")
          "calc-max" in
      let maxSoFar := newMax in
      let newMin := min curr (mul curr calcPrevMin) in
      let cmin :=
        mkStep nums calc_min i curr maxSoFar minSoFar result calcPrevMax
          calcPrevMin false
          ("Update minSoFar: Min(" ++ show curr ++ ", " ++ show curr ++ " * "
             ++ show calcPrevMin ++ ") = " ++ show newMin ++ ".")
          "calc-min" in
      let minSoFar := newMin in
      let newResult := max result maxSoFar in
      let upd :=
        mkStep nums update_res i curr maxSoFar minSoFar newResult calcPrevMax
          calcPrevMin false
          ("Update Global Max: Max(" ++ show result ++ ", " ++ show maxSoFar
             ++ ") = " ++ show newResult ++ ".")
          "update-res" in
      let '(more, fin) :=
        main_loop nums (i + 1) rest' maxSoFar minSoFar newResult in
      (check :: swaps ++ cmax :: cmin :: upd :: more, fin)
  end.

(** The [newSteps] array of [generateSteps]; [None] is the early
    [if (nums.length === 0) return;], which builds no array. *)
Definition trace (nums : list num) : option (list StepState) :=
  match nums with
  | [] => None
  | first :: rest =>
      let start :=
        mkStep nums init 0 first first first first first first false
          ("Initialize maxSoFar, minSoFar, and result with the first element: "
             ++ show first ++ ".")
          "init" in
      let '(steps, (maxSoFar, minSoFar, result)) :=
        main_loop nums 1 rest first first first in
      Some (start :: steps ++
              [ mkStep nums complete (-1) (Fin 0) maxSoFar minSoFar result
                  (Fin 0) (Fin 0) false
                  ("Finished processing array. Maximum Product Subarray is "
                     ++ show result ++ ".")
                  "return" ])
  end.

Record Component := mkComponent {
  arrInput : string;
  c_nums : list num;
  isConfigOpen : bool;
  playbackSpeed : Z;
  isPlaying : bool;
  steps : list StepState;
  currentStepIndex : Z
}.

Definition initial : Component :=
  mkComponent "2,3,-2,4" [Fin 2; Fin 3; Fin (-2); Fin 4] true 1000 false
    [] 0.

(** [generateSteps]: on the early return no setter is called. *)
Definition generateSteps (c : Component) : Component :=
  match trace (c_nums c) with
  | Some t =>
      mkComponent (arrInput c) (c_nums c) (isConfigOpen c) (playbackSpeed c)
        false t 0
  | None => c
  end.

End MaxProduct.

(** ** The phase tag of a Step

    [step.phase] as the renderer of a note can read it: the name of the
    phase where the [StepState] interface of the note declares the field,
    [undefined] where it does not. *)

Class Tagged (S : Type) := phase_tag : S -> option string.



(** The [StepState] of the Sum of Subarray Minimums note and the [Step] of
    the Number of Ways note have no [phase] field. *)
#[export] Instance SubarrayMins_tagged : Tagged SubarrayMins.StepState :=
  fun _ => None.

#[export] Instance Ways_tagged : Tagged Ways.Step :=
  fun _ => None.

(** ** Maximum Width Ramp (the second note of the Next Greater Element
       file) *)

Module Ramp.

Import JS.

Inductive Phase := build_stack | find_width | complete.

Record StepState := mkStep {
  stack : list Z;
  maxWidth : Z;
  phase : Phase;
  currentIndex : Z;
  compareIndex : option Z;
  activeIndices : list Z;
  rampStart : option Z;
  rampEnd : option Z;
  currentWidth : option Z;
  explanation : string;
  codeLine : string
}.

Definition MAX_ARR_SIZE : Z := 15.
Definition MAX_VAL : Z := 50.

(** [arr[t]] for an index [t] taken from the stack.  Outside the array the
    read is [undefined], which fails every comparison as NaN does. *)
Definition get (arr : list num) (t : Z) : num :=
  match at_index arr t with
  | Some v => v
  | None => NaN
  end.

(** The stack is kept with its top first; a Step records [[...stack]],
    which has the top last. *)

Definition init_step : StepState :=
  mkStep [] 0 build_stack (-1) None [] None None None
    "Initialize an empty stack. We will perform two passes over the array."
    "init".

(** Pass 1, [for (let i = 0; i < n; i++)]; [rest] is [arr] from index [i]
    on. *)
Fixpoint build (arr : list num) (i : Z) (rest : list num) (st : list Z)
  : list StepState * list Z :=
  match rest with
  | [] => ([], st)
  | x :: rest' =>
      let look :=
        mkStep (rev st) 0 build_stack i None [i] None None None
          ("Pass 1 (Forward): Checking index " ++ showZ i ++ " (Value: "
             ++ show x ++ ").")
          "loop-1" in
      let '(placed, st') :=
        match st with
        | [] =>
            (mkStep (rev [i]) 0 build_stack i None [i] None None None
               ("Stack is empty. Push index " ++ showZ i
                  ++ " as a potential ramp start.")
               "check-push",
             [i])
        | t :: _ =>
            if lt x (get arr t) then
              (mkStep (rev (i :: st)) 0 build_stack i None [i] None None None
                 ("Value " ++ show x ++ " < " ++ show (get arr t)
                    ++ " (Stack Top). Push index " ++ showZ i
                    ++ " because it's smaller and occurs later.")
                 "check-push",
               i :: st)
            else
              (mkStep (rev st) 0 build_stack i (Some t) [i; t] None None None
                 ("Value " ++ show x ++ " >= " ++ show (get arr t)
                    ++ " (Stack Top). We ignore this. Why? Because if "
                    ++ show x ++ " starts a ramp, " ++ show (get arr t)
                    ++ " is to its left and smaller, so "
                    ++ show (get arr t)
                    ++ " would produce a wider ramp for the same end point.")
                 "check-push",
               st)
        end in
      let '(more, fin) := build arr (i + 1) rest' st' in
      (look :: placed :: more, fin)
  end.

Definition transition_step (st : list Z) (n : Z) : StepState :=
  mkStep (rev st) 0 find_width n None [] None None None
    "Stack built with a strictly decreasing subsequence. Now starting Pass 2 (Backward) to find maximum width."
    "init-ans".

(** [while (stack.length > 0 && arr[i] >= arr[stack[stack.length - 1]])]
    for [x = arr[i]]. *)
Fixpoint pops (arr : list num) (i : Z) (x : num) (st : list Z)
    (maxWidth : Z) : list StepState * (list Z * Z) :=
  match st with
  | [] => ([], ([], maxWidth))
  | t :: st' =>
      if ge x (get arr t) then
        let width := i - t in
        let newMax := Z.max maxWidth width in
        let found :=
          mkStep (rev st) maxWidth find_width i (Some t) [i; t] (Some t)
            (Some i) (Some width)
            ("Found Ramp! " ++ show x ++ " >= " ++ show (get arr t)
               ++ " (Stack Top). Width = " ++ showZ i ++ " - " ++ showZ t
               ++ " = " ++ showZ width ++ ".")
            "check-pop" in
        let popped :=
          mkStep (rev st') newMax find_width i None [i] None None None
            ("Updated Max Width to " ++ showZ newMax ++ ". Popped index "
               ++ showZ t ++ " to see if " ++ show x
               ++ " can form a ramp with the next stack element.")
            "update-ans" in
        let '(more, fin) := pops arr i x st' newMax in
        (found :: popped :: more, fin)
      else ([], (st, maxWidth))
  end.

(** Pass 2, [for (let i = n - 1; i >= 0; i--)]; [upto] is [arr] up to index
    [i], last element first. *)
Fixpoint widths (arr : list num) (upto : list num) (st : list Z)
    (maxWidth : Z) : list StepState * (list Z * Z) :=
  match upto with
  | [] => ([], (st, maxWidth))
  | x :: upto' =>
      let i := len upto' in
      let look :=
        mkStep (rev st) maxWidth find_width i None [i] None None None
          ("Pass 2 (Backward): Checking index " ++ showZ i ++ " (Value: "
             ++ show x ++ ").")
          "loop-2" in
      let '(popping, (st1, mw1)) := pops arr i x st maxWidth in
      let failed :=
        match st1 with
        | [] => []
        | t :: _ =>
            [ mkStep (rev st1) mw1 find_width i (Some t) [i; t] None None
                None
                ("Value " ++ show x ++ " < " ++ show (get arr t)
                   ++ " (Stack Top). Cannot form a ramp. Move to next index (leftwards).")
                "loop-2" ]
        end in
      let '(more, fin) := widths arr upto' st1 mw1 in
      (look :: popping ++ failed ++ more, fin)
  end.

Definition complete_step (st : list Z) (maxWidth : Z) : StepState :=
  mkStep (rev st) maxWidth complete (-1) None [] None None None
    ("Algorithm finished. Maximum Width Ramp is " ++ showZ maxWidth ++ ".")
    "return".

(** The [newSteps] array of [generateSteps]. *)
Definition trace (arr : list num) : list StepState :=
  let '(steps1, st1) := build arr 0 arr [] in
  let '(steps2, (st2, mw)) := widths arr (rev arr) st1 0 in
  init_step :: steps1 ++ [transition_step st1 (len arr)] ++ steps2
    ++ [complete_step st2 mw].

End Ramp.

(** ** The field of [k] of the Split Array note *)

Module SplitControls.

Import JS.

(** [parseInt(e.target.value) || 1]: [parsed] is what [parseInt] returns,
    an integer, an infinity or NaN; 0 and NaN are falsy. *)
Definition or_one (parsed : num) : num :=
  match parsed with
  | NaN => Fin 1
  | Fin z => if z =? 0 then Fin 1 else parsed
  | _ => parsed
  end.

(** [setK(k')] and the effect on [[arr, k]]; a state set to the value it
    holds runs no effect. *)
Definition setK (k' : Z) (c : SplitArray.Component) : SplitArray.Outcome :=
  if k' =? SplitArray.k c then SplitArray.Shows c
  else
    SplitArray.update
      (SplitArray.mkComponent (SplitArray.arr c) k'
         (SplitArray.isConfigOpen c) (SplitArray.playbackSpeed c)
         (SplitArray.isPlaying c) (SplitArray.steps c)
         (SplitArray.currentStepIndex c)).

(** The [onChange] handler of the field:
    [setK(Math.min(Math.max(1, val), arr.length))].  The minimum with a
    length is an integer; the component holds it as one. *)
Definition handleKChange (parsed : num) (c : SplitArray.Component)
  : SplitArray.Outcome :=
  match min (max (Fin 1) (or_one parsed)) (Fin (len (SplitArray.arr c))) with
  | Fin k' => setK k' c
  | _ => SplitArray.Shows c
  end.

End SplitControls.

(** * Vocabulary of the properties *)

Import JS.

(** After the effect of the Number of Ways note has run, the playback is
    never on at the last index of a simulation of [count] Steps. *)
Definition settled (count : Z) (p : Ways.Player) : Prop :=
  Ways.isPlaying p = true -> Ways.stepIndex p < count - 1.

(** The validation the notes document, stated on the text itself.  The
    tokens of a text are the trimmed fields between commas that are not
    blank, read as numbers. *)

Definition in_class (cls : ascii -> bool) (val : string) : Prop :=
  Forall (fun ch => cls ch = true) (list_ascii_of_string val).

(** A number within the bound of the Next Greater Element note: an integer
    of absolute value at most 50. *)
Definition within_bound (n : num) : Prop :=
  exists z, n = Fin z /\ Z.abs z <= NGE.MAX_VAL.

(** The edit passes the validation of the Next Greater Element note: only
    digits, commas, spaces and minus signs; at most 12 tokens; every token
    an integer within the bound. *)
Definition nge_valid (val : string) : Prop :=
  in_class NGE.allowed val /\
  len (parse_parts val) <= NGE.MAX_ARR_SIZE /\
  Forall within_bound (parse_parts val).

(** What the handler of the Sum of Subarray Minimums note asks of an
    edit: only digits, commas and spaces; between 1 and 15 tokens.  It
    does not ask that the tokens are numerals. *)
Definition mins_accepted (val : string) : Prop :=
  in_class SubarrayMins.allowed val /\
  1 <= len (parse_parts val) <= 15.

(** What can happen to the mounted Next Greater Element note: a transport
    operation or an edit of the input field. *)
Inductive Event :=
| Transport (o : NGE.Op)
| Edit (val : string).

Definition react (e : Event) (c : NGE.Component) : NGE.Component :=
  match e with
  | Transport o => NGE.apply_op o c
  | Edit val => NGE.handleArrChange val c
  end.

(** The component after the events [es], from the mounted state. *)
Definition session (es : list Event) : NGE.Component :=
  fold_left (fun c e => react e c) es NGE.mounted.

(** What holds of the component between two events: the trace is the one
    of the stored array, the index is inside it, and the array is within
    the caps of the input field. *)
Definition consistent (c : NGE.Component) : Prop :=
  NGE.steps c = NGE.trace (NGE.arr c) /\
  0 <= NGE.currentStepIndex c <= len (NGE.steps c) - 1 /\
  len (NGE.arr c) <= NGE.MAX_ARR_SIZE /\
  Forall within_bound (NGE.arr c).

(** The first element of [rest] that is greater than [x] (for which
    [x >= _] fails), and -1 when there is none. *)
Definition first_greater (x : num) (rest : list num) : num :=
  match find (fun t => negb (ge x t)) rest with
  | Some t => t
  | None => Fin (-1)
  end.

(** The answer of the problem: for every position, the first greater
    element to its right. *)
Fixpoint next_greater (arr : list num) : list num :=
  match arr with
  | [] => []
  | x :: rest => first_greater x rest :: next_greater rest
  end.

(** What the pop loop leaves of a stack. *)
Fixpoint drop_ge (x : num) (st : list num) : list num :=
  match st with
  | [] => []
  | t :: below => if ge x t then drop_ge x below else st
  end.

(** The stack after the elements of [suffix] have been processed, last
    one first. *)
Fixpoint stack_of (suffix : list num) : list num :=
  match suffix with
  | [] => []
  | y :: rest => y :: drop_ge y (stack_of rest)
  end.

(** An integer, as opposed to an infinity or NaN. *)
Definition is_int (n : num) : Prop := exists z, n = Fin z.

Definition probe_fields (low high mid : num) (s : Ship.StepState) : Prop :=
  Ship.low s = low /\ Ship.high s = high /\ Ship.mid s = mid.

Definition probed_within (s : Ship.StepState) : Prop :=
  exists l m h,
    Ship.low s = Fin l /\ Ship.mid s = Fin m /\ Ship.high s = Fin h /\
    l <= m <= h.

Definition check_fields (lo hi mid : num) (s : SplitArray.StepState) : Prop :=
  SplitArray.lo s = lo /\ SplitArray.hi s = hi /\ SplitArray.mid s = mid.

Definition split_probed_within (s : SplitArray.StepState) : Prop :=
  exists l m h,
    SplitArray.lo s = Fin l /\ SplitArray.mid s = Fin m /\
    SplitArray.hi s = Fin h /\ l <= m <= h.

(** The Steps of a probe, the one that shows the updated bound apart. *)
Definition split_step_ok (s : SplitArray.StepState) : Prop :=
  SplitArray.phase s = SplitArray.search \/ split_probed_within s.

(** A Step of a probe of the Ship Packages search: it records the bounds
    [low <= high] of the iteration and their midpoint
    [floor(low + (high - low) / 2)], which lies within them. *)
Definition ship_probe_step (s : Ship.StepState) : Prop :=
  exists l h,
    Ship.low s = Fin l /\ Ship.high s = Fin h /\
    Ship.mid s = Fin (l + (h - l) / 2) /\
    l <= h /\ l <= l + (h - l) / 2 <= h.

(** The same for the Steps of the check of the Split Array search. *)
Definition split_probe_step (s : SplitArray.StepState) : Prop :=
  SplitArray.phase s <> SplitArray.search /\
  exists l h,
    SplitArray.lo s = Fin l /\ SplitArray.hi s = Fin h /\
    SplitArray.mid s = Fin (l + (h - l) / 2) /\
    l <= h /\ l <= l + (h - l) / 2 <= h.

(** The Step that the Split Array search pushes after the probe of the
    bounds [l <= h]: it records the midpoint of the probe next to the
    bound as updated. *)
Definition split_update_step (s : SplitArray.StepState) : Prop :=
  SplitArray.phase s = SplitArray.search /\
  exists l h,
    l <= h /\
    SplitArray.mid s = Fin (l + (h - l) / 2) /\
    ((SplitArray.lo s = Fin l /\
      SplitArray.hi s = Fin (l + (h - l) / 2 - 1)) \/
     (SplitArray.lo s = Fin (l + (h - l) / 2 + 1) /\
      SplitArray.hi s = Fin h)).

(** A non-negative integer, what a numeral typed with digits denotes. *)
Definition nonneg_int (n : num) : Prop := exists z, n = Fin z /\ 0 <= z.

(** A number in [0, 1000000007). *)
Definition reduced (n : num) : Prop :=
  exists t, n = Fin t /\ 0 <= t < SubarrayMins.MOD.

(** ** Vocabulary of the further properties *)

(** The answer of the Next Greater Element problem on integers: for every
    position the first strictly greater element to its right, -1 when
    there is none. *)
Fixpoint next_greater_int (zs : list Z) : list Z :=
  match zs with
  | [] => []
  | x :: rest =>
      match find (fun t => x <? t) rest with
      | Some t => t
      | None => -1
      end :: next_greater_int rest
  end.

(** In a recorded stack (bottom first) an element lies on another one
    only when it is not greater or equal: on integers, when it is strictly
    smaller. *)
Definition smaller_on_top (lower upper : num) : Prop := ge upper lower = false.

(** The same relation read on the stack of the generator, top first. *)
Definition larger_beneath (upper lower : num) : Prop :=
  ge upper lower = false.

(** [k] firings of the interval timer. *)
Definition ticks (k : nat) : list NGE.Op := repeat NGE.Tick k.

(** The non-empty prefixes of a list, shortest first. *)
Fixpoint prefixes (xs : list Z) : list (list Z) :=
  match xs with
  | [] => []
  | x :: rest => [x] :: map (cons x) (prefixes rest)
  end.

(** The non-empty contiguous subarrays of a list, by start and then by
    end. *)
Fixpoint subarrays (xs : list Z) : list (list Z) :=
  match xs with
  | [] => []
  | x :: rest => prefixes (x :: rest) ++ subarrays rest
  end.

(** The least element of a list that is not empty. *)
Definition list_min (l : list Z) : Z :=
  match l with
  | [] => 0
  | x :: rest => fold_left Z.min rest x
  end.

(** The sum of the minimums of all contiguous subarrays. *)
Definition sum_of_mins (xs : list Z) : Z :=
  fold_right Z.add 0 (map list_min (subarrays xs)).

(** The minimums of the prefixes of [rest] that extend a run of minimum
    [m]. *)
Fixpoint running_mins (m : Z) (rest : list Z) : list Z :=
  match rest with
  | [] => []
  | y :: rest' => Z.min m y :: running_mins (Z.min m y) rest'
  end.

(** One update of the accumulator of the Sum of Subarray Minimums note. *)
Definition add_mod (t m : Z) : Z := Z.rem (t + m) SubarrayMins.MOD.

(** The product of the elements of a list. *)
Definition list_prod (l : list Z) : Z := fold_right Z.mul 1 l.

(** [sub] is a contiguous subarray of [l] that is not empty. *)
Definition is_subarray (sub l : list Z) : Prop :=
  sub <> [] /\ exists pre post, l = pre ++ sub ++ post.

(** [sub] is a subarray of [l] that ends where [l] ends. *)
Definition is_suffix (sub l : list Z) : Prop :=
  sub <> [] /\ exists pre, l = pre ++ sub.

(** [M] is the greatest product of a subarray that ends where [l] ends,
    [m] the least one, [R] the greatest product of any subarray of [l]. *)
Definition greatest_ending (l : list Z) (M : Z) : Prop :=
  (exists s, is_suffix s l /\ list_prod s = M) /\
  (forall s, is_suffix s l -> list_prod s <= M).

Definition least_ending (l : list Z) (m : Z) : Prop :=
  (exists s, is_suffix s l /\ list_prod s = m) /\
  (forall s, is_suffix s l -> m <= list_prod s).

Definition greatest_product (l : list Z) (R : Z) : Prop :=
  (exists s, is_subarray s l /\ list_prod s = R) /\
  (forall s, is_subarray s l -> list_prod s <= R).

(** The text the input field of a note shows for the stored array:
    [value={arr.join(", ")}]. *)
Definition field_value (arr : list num) : string :=
  join ", " (map show arr).

(** The value of the decimal digits [d] read after [acc]. *)
Fixpoint uint_value (d : Decimal.uint) (acc : Z) : Z :=
  match d with
  | Decimal.Nil => acc
  | Decimal.D0 l => uint_value l (10 * acc + 0)
  | Decimal.D1 l => uint_value l (10 * acc + 1)
  | Decimal.D2 l => uint_value l (10 * acc + 2)
  | Decimal.D3 l => uint_value l (10 * acc + 3)
  | Decimal.D4 l => uint_value l (10 * acc + 4)
  | Decimal.D5 l => uint_value l (10 * acc + 5)
  | Decimal.D6 l => uint_value l (10 * acc + 6)
  | Decimal.D7 l => uint_value l (10 * acc + 7)
  | Decimal.D8 l => uint_value l (10 * acc + 8)
  | Decimal.D9 l => uint_value l (10 * acc + 9)
  end.

(** A character of a printed integer: a digit or the minus sign. *)
Definition numeral_char (c : ascii) : bool :=
  is_digit c || Ascii.eqb c minus.

(** A character that does not end a field of the text. *)
Definition field_char (c : ascii) : bool := negb (Ascii.eqb c comma).

(** The token [t], after the space that follows a comma when [b] holds. *)
Definition lead (b : bool) (t : string) : string :=
  if b then String space t else t.

(** The total weight of a load. *)
Definition load_weight (load : list Z) : Z := fold_right Z.add 0 load.

(** A ship of capacity [cap] can carry the packages [ws], in their order,
    within [days] days: they split into at most [days] consecutive loads,
    none heavier than [cap]. *)
Definition can_ship (ws : list Z) (days cap : Z) : Prop :=
  exists loads : list (list Z),
    List.concat loads = ws /\ len loads <= days /\
    Forall (fun load => load_weight load <= cap) loads.

Definition least_capacity (ws : list Z) (days cap : Z) : Prop :=
  can_ship ws days cap /\ forall c, can_ship ws days c -> cap <= c.

(** [allDayLoads] when the loads hold integers. *)
Definition bins_of (loads : list (list Z)) : list (list num) :=
  map (map Fin) loads.

(** What a Step of a successful probe shows for the packages [ws]: its
    [dayLoads] are consecutive loads of the packages, one for each of the
    [currentDay] days used, none heavier than the capacity [mid] under
    test, which is also the [ans] recorded. *)
Definition shows_loading (ws : list Z) (days : Z) (s : Ship.StepState)
  : Prop :=
  exists cap loads,
    Ship.mid s = Fin cap /\ Ship.ans s = Fin cap /\
    Ship.dayLoads s = bins_of loads /\
    List.concat loads = ws /\
    len loads = Ship.currentDay s /\
    Ship.currentDay s <= days /\
    Forall (fun load => load_weight load <= cap) loads.

(** The array [arr] splits into at most [k] consecutive subarrays, none
    of a sum greater than [cap]; [cap] is the least largest sum when no
    smaller bound admits such a split. *)
Definition can_split (arr : list Z) (k cap : Z) : Prop :=
  exists parts : list (list Z),
    List.concat parts = arr /\ len parts <= k /\
    Forall (fun part => load_weight part <= cap) parts.

Definition least_largest_sum (arr : list Z) (k cap : Z) : Prop :=
  can_split arr k cap /\ forall c, can_split arr k c -> cap <= c.

(** The number of partitions that the check function leaves. *)
Definition partitions_of (r : Z * num * list Z) : Z := fst (fst r).

(** The Maximum Width Ramp note on an array [zs] of integers.  A ramp is
    a pair of indices [i <= j] with [zs[i] <= zs[j]]; its width is
    [j - i]. *)
Definition value_at (zs : list Z) (t : Z) : Z := nth (Z.to_nat t) zs 0.

Definition is_ramp (zs : list Z) (i j : Z) : Prop :=
  0 <= i /\ i <= j /\ j < len zs /\ value_at zs i <= value_at zs j.

(** [w] is the greatest width of a ramp of [zs], and 0 when [zs] is
    empty. *)
Definition widest_ramp (zs : list Z) (w : Z) : Prop :=
  (forall i j, is_ramp zs i j -> j - i <= w) /\
  ((zs = [] /\ w = 0) \/ exists i j, is_ramp zs i j /\ w = j - i).

(** The index [t] lies on the stack above [u]: it comes later and holds a
    smaller value. *)
Definition above (zs : list Z) (t u : Z) : Prop :=
  u < t /\ value_at zs t < value_at zs u.

(** Every index below [i] has on the stack [st] an index that is not after
    it and holds no greater value. *)
Definition covers (zs : list Z) (st : list Z) (i : Z) : Prop :=
  forall k, 0 <= k < i ->
    exists t, In t st /\ t <= k /\ value_at zs t <= value_at zs k.

(** The stack after the first pass has read the indices below [i]. *)
Definition built (zs : list Z) (i : Z) (st : list Z) : Prop :=
  Forall (fun t => 0 <= t < i) st /\
  StronglySorted (above zs) st /\
  covers zs st i.

(** The state of the second pass when the indices above [j] are done;
    [st0] is the stack that the first pass left. *)
Definition popping (zs st0 : list Z) (j : Z) (st : list Z) (mw : Z)
  : Prop :=
  Forall (fun t => 0 <= t <= j) st /\
  StronglySorted (above zs) st /\
  (forall t, In t st0 -> In t st \/ j + 1 - t <= mw) /\
  (mw = 0 \/ exists i' j', is_ramp zs i' j' /\ mw = j' - i') /\
  (forall k j', is_ramp zs k j' -> j < j' -> j' - k <= mw).

(** The Ship Packages note once mounted, and after the texts [vals] have
    been typed in its field of weights, one after the other. *)
Definition ship_mounted : option Ship.Component :=
  Ship.generateSteps Ship.initial.

Definition ship_edits (vals : list string) : option Ship.Component :=
  fold_left
    (fun oc val =>
       match oc with
       | Some c => Ship.handleWeightChange val c
       | None => None
       end)
    vals ship_mounted.

(** What holds of the Ship Packages note between two edits. *)
Definition ship_ready (c : Ship.Component) : Prop :=
  Ship.days c = 5 /\
  exists ws, Ship.weights c = map Fin ws /\
             Forall (fun w => 0 <= w) ws /\
             Ship.trace (Ship.weights c) (Ship.days c) = Some (Ship.steps c).

(** What can happen to the fields of the Split Array note: an edit of the
    array or an edit of [k], of which [parseInt] reads [parsed]. *)
Inductive SplitEvent :=
| EditArr (val : string)
| EditK (parsed : num).

Definition split_react (e : SplitEvent) (c : SplitArray.Component)
  : SplitArray.Outcome :=
  match e with
  | EditArr val => SplitArray.handleArrChange val c
  | EditK parsed => SplitControls.handleKChange parsed c
  end.

(** An event reaches the note only while it is shown. *)
Definition split_step (o : SplitArray.Outcome) (e : SplitEvent)
  : SplitArray.Outcome :=
  match o with
  | SplitArray.Shows c => split_react e c
  | _ => o
  end.

Definition split_session_from (es : list SplitEvent)
    (start : SplitArray.Outcome) : SplitArray.Outcome :=
  fold_left split_step es start.

Definition split_session (es : list SplitEvent) : SplitArray.Outcome :=
  split_session_from es SplitArray.mounted.

(** What holds of the Split Array note while it is shown. *)
Definition split_ready (c : SplitArray.Component) : Prop :=
  1 <= SplitArray.k c /\
  exists z zs, SplitArray.arr c = map Fin (z :: zs) /\
               Forall (fun x => 0 <= x <= 100) (z :: zs) /\
               SplitArray.trace (SplitArray.arr c) (SplitArray.k c)
               = Some (SplitArray.steps c).

(** The edit leaves an array to show: it is an edit of [k], or the text
    of the array has a token. *)
Definition keeps_array (e : SplitEvent) : Prop :=
  match e with
  | EditArr val => parse_parts val <> []
  | EditK _ => True
  end.

(** A character of a text without token. *)
Definition blank_char (c : ascii) : bool :=
  Ascii.eqb c comma || Ascii.eqb c space.

(** A JavaScript number holds every integer up to
    [Number.MAX_SAFE_INTEGER], 2^53 - 1, exactly, and rounds beyond it.
    The properties that involve arithmetic on the elements of an array are
    stated for arrays on which every number the note computes stays
    within it. *)
Definition MAX_SAFE_INTEGER : Z := 9007199254740991.

Definition safe_integer (z : Z) : Prop := Z.abs z <= MAX_SAFE_INTEGER.

(** Sums of elements, and the halves that a midpoint goes through, are
    exact. *)
Definition safe_total (ws : list Z) : Prop :=
  2 * load_weight ws <= MAX_SAFE_INTEGER.

(** The product of the magnitudes of the elements, a 0 counting for 1: it
    bounds the product of every subarray. *)
Definition magnitude (zs : list Z) : Z :=
  fold_right (fun z acc => Z.max 1 (Z.abs z) * acc) 1 zs.

(** * Properties *)

(** ** The player of the Next Greater Element note *)

Section NGEPlayer.

Import NGE.

Lemma nge_apply_op_steps (o : Op) (c : Component) :
  steps (apply_op o c) = steps c /\ arr (apply_op o c) = arr c.
Proof.
  destruct o; cbn [apply_op]; unfold handleNext, handlePrev, handleReset,
    togglePlay; repeat match goal with |- context [if ?b then _ else _] =>
      destruct b end; cbn; auto.
Qed.

Lemma nge_run_steps (ops : list Op) :
  forall c, steps (run ops c) = steps c /\ arr (run ops c) = arr c.
Proof.
  induction ops as [|o ops IH]; intros c; cbn; [auto|].
  destruct (IH (apply_op o c)) as [Hs Ha].
  destruct (nge_apply_op_steps o c) as [Hs' Ha'].
  unfold run in *. rewrite Hs, Ha. auto.
Qed.

(** The index stays inside the trace under one operation. *)
Lemma nge_apply_op_bounds (o : Op) (c : Component) :
  0 <= currentStepIndex c <= len (steps c) - 1 ->
  0 <= currentStepIndex (apply_op o c) <= len (steps c) - 1.
Proof.
  intros H.
  destruct o; cbn [apply_op]; unfold handleNext, handlePrev, handleReset,
    togglePlay;
    repeat match goal with |- context [if ?b then _ else _] =>
      destruct b eqn:? end; cbn; try lia.
Qed.

Lemma nge_run_bounds (ops : list Op) :
  forall c,
    0 <= currentStepIndex c <= len (steps c) - 1 ->
    0 <= currentStepIndex (run ops c) <= len (steps c) - 1.
Proof.
  induction ops as [|o ops IH]; intros c H; cbn; [exact H|].
  pose proof (nge_apply_op_bounds o c H) as Hb.
  destruct (nge_apply_op_steps o c) as [Hs _].
  rewrite <- Hs in Hb |- *. unfold run in IH. apply IH. exact Hb.
Qed.

End NGEPlayer.

(** ** The player of the Number of Ways note *)

Section WaysPlayer.

Import Ways.

Variable count : Z.

Lemma ways_apply_op_bounds (o : Op) (p : Player) :
  0 <= stepIndex p <= count - 1 ->
  0 <= stepIndex (apply_op count o p) <= count - 1.
Proof.
  intros H. unfold apply_op, effect.
  destruct o; cbn [handle];
    repeat match goal with |- context [if ?b then _ else _] =>
      destruct b eqn:? end; cbn in *; try lia.
Qed.

Lemma ways_run_bounds (ops : list Op) :
  forall p,
    0 <= stepIndex p <= count - 1 ->
    0 <= stepIndex (run count ops p) <= count - 1.
Proof.
  induction ops as [|o ops IH]; intros p H; cbn; [exact H|].
  apply IH, ways_apply_op_bounds, H.
Qed.

Lemma effect_settled (p : Player) : settled count (effect count p).
Proof.
  unfold settled, effect.
  destruct (isPlaying p) eqn:Hp; cbn; [|discriminate].
  destruct (stepIndex p <? count - 1) eqn:Hlt; cbn.
  - intros _. lia.
  - discriminate.
Qed.

Lemma effect_idempotent (p : Player) :
  effect count (effect count p) = effect count p.
Proof.
  unfold effect.
  destruct (isPlaying p) eqn:Hp; cbn;
    [destruct (stepIndex p <? count - 1) eqn:Hlt; cbn|];
    rewrite ?Hp, ?Hlt; reflexivity.
Qed.

End WaysPlayer.

(** ** The result of the Next Greater Element generator *)

Lemma le_trans (a b c : num) :
  le a b = true -> le b c = true -> le a c = true.
Proof.
  destruct a, b, c; cbn; try discriminate; try reflexivity.
  rewrite !Z.leb_le. lia.
Qed.

Lemma pop_loop_stack (i : Z) (x : num) (st ans : list num) :
  snd (NGE.pop_loop i x st ans) = drop_ge x st.
Proof.
  induction st as [|t below IH]; cbn [NGE.pop_loop drop_ge]; [reflexivity|].
  destruct (ge x t); [|reflexivity].
  destruct (NGE.pop_loop i x below ans) as [more st'] eqn:E.
  cbn in *. exact IH.
Qed.

Lemma recorded_first_greater (x : num) (st : list num) :
  NGE.recordedVal (drop_ge x st) = first_greater x st.
Proof.
  unfold first_greater.
  induction st as [|t below IH]; cbn [drop_ge find]; [reflexivity|].
  destruct (ge x t); cbn [negb]; [exact IH | reflexivity].
Qed.

Lemma find_drop_ge (x y : num) (st : list num) :
  ge x y = true ->
  find (fun t => negb (ge x t)) (drop_ge y st)
  = find (fun t => negb (ge x t)) st.
Proof.
  intros Hxy. induction st as [|t below IH]; cbn [drop_ge find]; [reflexivity|].
  destruct (ge y t) eqn:Hyt; [|reflexivity].
  assert (Hxt : ge x t = true) by (unfold ge in *; eapply le_trans; eauto).
  rewrite Hxt. cbn [negb]. exact IH.
Qed.

Lemma first_greater_stack (x : num) (suffix : list num) :
  first_greater x (stack_of suffix) = first_greater x suffix.
Proof.
  unfold first_greater.
  induction suffix as [|y rest IH]; cbn [stack_of find]; [reflexivity|].
  destruct (ge x y) eqn:Hxy; cbn [negb]; [|reflexivity].
  rewrite (find_drop_ge x y _ Hxy). exact IH.
Qed.

Lemma body_result (i : Z) (x : num) (st ans : list num) :
  snd (NGE.body i x st ans)
  = (x :: drop_ge x st, ans ++ [first_greater x st]).
Proof.
  unfold NGE.body.
  pose proof (pop_loop_stack i x st ans) as H.
  destruct (NGE.pop_loop i x st ans) as [pops st1]. cbn in H. subst st1.
  cbn. rewrite recorded_first_greater. reflexivity.
Qed.

Lemma skipn_nth_cons {A} (d : A) (l : list A) (i : nat) :
  (i < List.length l)%nat -> skipn i l = nth i l d :: skipn (S i) l.
Proof.
  revert i. induction l as [|a l IH]; intros i H; cbn in H; [lia|].
  destruct i; [reflexivity|]. cbn. apply IH. lia.
Qed.

Lemma firstn_snoc {A} (d : A) (l : list A) (i : nat) :
  (i < List.length l)%nat -> firstn (S i) l = firstn i l ++ [nth i l d].
Proof.
  revert i. induction l as [|a l IH]; intros i H; cbn in H; [lia|].
  destruct i; [reflexivity|]. cbn. f_equal. apply IH. lia.
Qed.

Lemma next_greater_length (arr : list num) :
  List.length (next_greater arr) = List.length arr.
Proof. induction arr; cbn; congruence. Qed.

Lemma next_greater_nth (arr : list num) (i : nat) :
  (i < List.length arr)%nat ->
  nth i (next_greater arr) NaN
  = first_greater (nth i arr NaN) (skipn (S i) arr).
Proof.
  revert i. induction arr as [|x rest IH]; intros i H; cbn in H; [lia|].
  destruct i; [reflexivity|]. cbn. apply IH. lia.
Qed.

Lemma main_loop_result (arr : list num) (k : nat) :
  (k <= List.length arr)%nat ->
  forall ans,
    snd (NGE.main_loop arr k (stack_of (skipn k arr)) ans)
    = (stack_of arr, ans ++ rev (firstn k (next_greater arr))).
Proof.
  induction k as [|i IH]; intros Hk ans.
  - cbn. rewrite app_nil_r. reflexivity.
  - cbn [NGE.main_loop].
    remember (skipn (S i) arr) as sfx eqn:Hsfx.
    assert (Hst : nth i arr NaN :: drop_ge (nth i arr NaN) (stack_of sfx)
                  = stack_of (skipn i arr)).
    { rewrite (skipn_nth_cons NaN arr i), <- Hsfx by lia. reflexivity. }
    pose proof (body_result (Z.of_nat i) (nth i arr NaN) (stack_of sfx) ans)
      as Hb.
    destruct (NGE.body _ _ _ _) as [steps1 [st1 ans1]].
    cbv beta iota delta [snd] in Hb. injection Hb as -> ->.
    rewrite Hst.
    specialize (IH ltac:(lia)
                  (ans ++ [first_greater (nth i arr NaN) (stack_of sfx)])).
    destruct (NGE.main_loop arr i _ _) as [steps2 fin].
    cbv beta iota delta [snd] in IH |- *. rewrite IH. f_equal.
    rewrite (firstn_snoc NaN (next_greater arr) i)
      by (rewrite next_greater_length; lia).
    rewrite rev_app_distr. cbn [rev app]. rewrite <- app_assoc. cbn [app].
    rewrite first_greater_stack, next_greater_nth, Hsfx by lia. reflexivity.
Qed.

(** The last Step of a trace is the complete Step, and its [finalAns] is
    the answer of the problem. *)
Lemma nge_trace_shape (arr : list num) :
  exists middle s,
    NGE.trace arr = NGE.init_step :: middle ++ [s] /\
    NGE.phase s = NGE.complete /\
    NGE.codeLine s = "return"%string /\
    NGE.finalAns s = rev (NGE.rawAns s) /\
    NGE.finalAns s = next_greater arr.
Proof.
  unfold NGE.trace.
  pose proof (main_loop_result arr (List.length arr) (Nat.le_refl _) [])
    as H.
  rewrite skipn_all in H. cbn [stack_of] in H.
  destruct (NGE.main_loop arr (List.length arr) [] []) as [steps [st ans]].
  cbn in H. injection H as -> ->.
  eexists (steps ++ [_]), _. split.
  - rewrite <- app_assoc. cbn. reflexivity.
  - cbn. repeat split.
    rewrite rev_involutive, firstn_all2
      by (rewrite next_greater_length; lia).
    reflexivity.
Qed.

(** On integers, [first_greater] is the first strictly greater element. *)
Lemma first_greater_int (x : Z) (zs : list Z) :
  first_greater (Fin x) (map Fin zs)
  = match find (fun t => x <? t) zs with
    | Some t => Fin t
    | None => Fin (-1)
    end.
Proof.
  unfold first_greater.
  induction zs as [|t zs IH]; cbn [map find]; [reflexivity|].
  unfold ge at 1. cbn [le]. rewrite <- Z.ltb_antisym.
  destruct (x <? t); [reflexivity | exact IH].
Qed.

Lemma nge_trace_head (arr : list num) :
  exists rest, NGE.trace arr = NGE.init_step :: rest.
Proof.
  unfold NGE.trace.
  destruct (NGE.main_loop arr (List.length arr) [] []) as [steps [st ans]].
  eexists. reflexivity.
Qed.

(** ** The input handlers *)

Lemma all_chars_spec (cls : ascii -> bool) (val : string) :
  all_chars cls val = true <-> in_class cls val.
Proof.
  unfold in_class. induction val as [|ch r IH]; cbn.
  - split; [constructor | reflexivity].
  - rewrite andb_true_iff, IH. split.
    + intros [H1 H2]. constructor; assumption.
    + intros H. inversion H; subst. split; assumption.
Qed.

Lemma within_bound_spec (n : num) :
  le (abs n) (Fin NGE.MAX_VAL) = true <-> within_bound n.
Proof.
  unfold within_bound. destruct n as [z| | |]; cbn.
  - rewrite Z.leb_le. split.
    + intros H. exists z. split; [reflexivity | exact H].
    + intros [z' [Hz H]]. injection Hz as ->. exact H.
  - split; [discriminate | intros [z [H _]]; discriminate H].
  - split; [discriminate | intros [z [H _]]; discriminate H].
  - split; [discriminate | intros [z [H _]]; discriminate H].
Qed.

Lemma forallb_within_bound (ns : list num) :
  forallb (fun n => le (abs n) (Fin NGE.MAX_VAL)) ns = true
  <-> Forall within_bound ns.
Proof.
  rewrite forallb_forall, Forall_forall.
  split; intros H n Hn; apply within_bound_spec, H, Hn.
Qed.

Lemma nge_handler_accepts (val : string) :
  all_chars NGE.allowed val
  && ((len (parse_parts val) <=? NGE.MAX_ARR_SIZE)
      && forallb (fun n => le (abs n) (Fin NGE.MAX_VAL)) (parse_parts val))
  = true <-> nge_valid val.
Proof.
  unfold nge_valid.
  rewrite !andb_true_iff, all_chars_spec, Z.leb_le, forallb_within_bound.
  reflexivity.
Qed.

Lemma mins_handler_accepts (val : string) :
  all_chars SubarrayMins.allowed val
  && ((len (parse_parts val) >? 0) && (len (parse_parts val) <=? 15))
  = true <-> mins_accepted val.
Proof.
  unfold mins_accepted.
  rewrite !andb_true_iff, all_chars_spec, Z.leb_le, Z.gtb_ltb, Z.ltb_lt.
  intuition lia.
Qed.

Lemma nge_handler_cases (val : string) (c : NGE.Component) :
  NGE.handleArrChange val c =
  if all_chars NGE.allowed val
     && ((len (parse_parts val) <=? NGE.MAX_ARR_SIZE)
         && forallb (fun n => le (abs n) (Fin NGE.MAX_VAL)) (parse_parts val))
  then NGE.setArr (parse_parts val) c else c.
Proof.
  unfold NGE.handleArrChange.
  destruct (all_chars NGE.allowed val); reflexivity.
Qed.

Lemma mins_handler_cases (val : string) (c : SubarrayMins.Component) :
  SubarrayMins.handleArrChange val c =
  if all_chars SubarrayMins.allowed val
     && ((len (parse_parts val) >? 0) && (len (parse_parts val) <=? 15))
  then SubarrayMins.setArr (parse_parts val) c else c.
Proof.
  unfold SubarrayMins.handleArrChange.
  destruct (all_chars SubarrayMins.allowed val); reflexivity.
Qed.

(** ** The reachable states of the Next Greater Element note *)

Lemma consistent_after_generate (c : NGE.Component) :
  len (NGE.arr c) <= NGE.MAX_ARR_SIZE ->
  Forall within_bound (NGE.arr c) ->
  consistent (NGE.generateSteps c).
Proof.
  intros Hl Hb. unfold consistent, NGE.generateSteps.
  cbn [NGE.steps NGE.arr NGE.currentStepIndex].
  destruct (nge_trace_head (NGE.arr c)) as [rest E].
  split; [reflexivity|]. split; [|split; assumption].
  rewrite E. unfold len. cbn [List.length]. lia.
Qed.

Lemma consistent_react (e : Event) (c : NGE.Component) :
  consistent c -> consistent (react e c).
Proof.
  intros Hc. pose proof Hc as [Hs [Hi [Hl Hb]]].
  destruct e as [o|val]; cbn [react].
  - destruct (nge_apply_op_steps o c) as [Es Ea].
    pose proof (nge_apply_op_bounds o c Hi) as Hi'.
    unfold consistent. rewrite Es, Ea. auto.
  - rewrite nge_handler_cases.
    destruct (_ && _) eqn:E; [|exact Hc].
    apply nge_handler_accepts in E. destruct E as [_ [El Eb]].
    apply consistent_after_generate; assumption.
Qed.

(** Whatever the user does, the trace shown is the trace of the stored
    array, the index is inside it, and the array is within the caps. *)
Theorem session_consistent (es : list Event) : consistent (session es).
Proof.
  unfold session.
  assert (H0 : consistent NGE.mounted).
  { apply consistent_after_generate; [vm_compute; discriminate|].
    repeat constructor; eexists; (split; [reflexivity|]);
      vm_compute; discriminate. }
  revert H0. generalize NGE.mounted.
  induction es as [|e es IH]; intros c Hc; cbn; [exact Hc|].
  apply IH, consistent_react, Hc.
Qed.

(** ** C1 *)

(** C1. For the input [[1,3,2,4]] the last Step of the Next Greater Element
    trace records [finalAns = [3,4,4,-1]]; and after any sequence of
    transport operations on the mounted component, scrubbing to index 0
    shows the Step with an empty stack and empty result lists. *)
Theorem C1_next_greater_example :
  let t := NGE.trace [Fin 1; Fin 3; Fin 2; Fin 4] in
  (exists s, last_opt t = Some s /\
             NGE.finalAns s = [Fin 3; Fin 4; Fin 4; Fin (-1)]) /\
  (forall ops : list NGE.Op,
      exists s0,
        NGE.currentStep (NGE.setCurrentStepIndex 0 (NGE.run ops NGE.mounted))
          = Some s0 /\
        at_index t 0 = Some s0 /\
        NGE.stack s0 = [] /\ NGE.rawAns s0 = [] /\ NGE.finalAns s0 = []).
Proof.
  cbv zeta. split.
  - eexists. split; [vm_compute; reflexivity | reflexivity].
  - intros ops. exists NGE.init_step.
    unfold NGE.currentStep, NGE.setCurrentStepIndex. cbn [NGE.steps NGE.currentStepIndex].
    destruct (nge_run_steps ops NGE.mounted) as [Hs _]. rewrite Hs.
    repeat split; vm_compute; reflexivity.
Qed.

(** ** C3 *)



(** ** C4 *)

(** C4. In a trace of N >= 1 Steps with the index inside [0, N-1]: the
    forward control adds exactly 1 below the last index and otherwise keeps
    the index and leaves the playback stopped; the back control subtracts
    exactly 1 above 0 and otherwise keeps the index; and under every
    sequence of transport operations the index stays inside [0, N-1].
    This holds for [handleNext]/[handlePrev] of the Next Greater Element
    note and for the clamped [setStepIndex] buttons of the Number of Ways
    note, whose playback flag is lowered by its effect: in a state the
    effect has settled, the flag is already down at the last index. *)
Theorem C4_transport_keeps_index_in_bounds
    (c : NGE.Component) (count : Z) (p : Ways.Player) :
  1 <= len (NGE.steps c) ->
  0 <= NGE.currentStepIndex c <= len (NGE.steps c) - 1 ->
  1 <= count ->
  0 <= Ways.stepIndex p <= count - 1 ->
  settled count p ->
  let i := NGE.currentStepIndex c in
  let N := len (NGE.steps c) in
  let j := Ways.stepIndex p in
  ((i < N - 1 ->
      NGE.currentStepIndex (NGE.handleNext c) = i + 1 /\
      NGE.isPlaying (NGE.handleNext c) = NGE.isPlaying c) /\
   (i = N - 1 ->
      NGE.currentStepIndex (NGE.handleNext c) = i /\
      NGE.isPlaying (NGE.handleNext c) = false) /\
   (0 < i -> NGE.currentStepIndex (NGE.handlePrev c) = i - 1) /\
   (i = 0 -> NGE.handlePrev c = c) /\
   (forall ops,
       0 <= NGE.currentStepIndex (NGE.run ops c) <= N - 1 /\
       NGE.steps (NGE.run ops c) = NGE.steps c)) /\
  ((j < count - 1 ->
      Ways.stepIndex (Ways.handle count Ways.Forward p) = j + 1) /\
   (j = count - 1 ->
      Ways.stepIndex (Ways.handle count Ways.Forward p) = j /\
      Ways.isPlaying (Ways.handle count Ways.Forward p) = false /\
      Ways.isPlaying (Ways.apply_op count Ways.Forward p) = false) /\
   (0 < j -> Ways.stepIndex (Ways.handle count Ways.Back p) = j - 1) /\
   (j = 0 -> Ways.stepIndex (Ways.handle count Ways.Back p) = j) /\
   (forall ops, 0 <= Ways.stepIndex (Ways.run count ops p) <= count - 1)).
Proof.
  intros HN Hi Hc Hj Hset. cbv zeta. split.
  - repeat split.
    + unfold NGE.handleNext.
      destruct (Z.ltb_spec (NGE.currentStepIndex c) (len (NGE.steps c) - 1));
        [reflexivity | lia].
    + unfold NGE.handleNext.
      destruct (Z.ltb_spec (NGE.currentStepIndex c) (len (NGE.steps c) - 1));
        [reflexivity | lia].
    + unfold NGE.handleNext.
      destruct (Z.ltb_spec (NGE.currentStepIndex c) (len (NGE.steps c) - 1));
        [lia | reflexivity].
    + unfold NGE.handleNext.
      destruct (Z.ltb_spec (NGE.currentStepIndex c) (len (NGE.steps c) - 1));
        [lia | reflexivity].
    + intros H. unfold NGE.handlePrev.
      destruct (Z.gtb_spec (NGE.currentStepIndex c) 0); [reflexivity | lia].
    + intros H. unfold NGE.handlePrev.
      destruct (Z.gtb_spec (NGE.currentStepIndex c) 0); [lia | reflexivity].
    + apply (nge_run_bounds ops c Hi).
    + apply (nge_run_bounds ops c Hi).
    + apply (nge_run_steps ops c).
  - repeat split.
    + cbn. lia.
    + cbn. lia.
    + cbn. destruct (Ways.isPlaying p) eqn:Hp; [|reflexivity].
      specialize (Hset Hp). lia.
    + unfold Ways.apply_op, Ways.effect. cbn.
      destruct (Ways.isPlaying p); cbn; [|reflexivity].
      destruct (Z.ltb_spec (Z.min (count - 1) (Ways.stepIndex p + 1))
                  (count - 1)); [lia | reflexivity].
    + cbn. lia.
    + cbn. lia.
    + apply (ways_run_bounds count ops p Hj).
    + apply (ways_run_bounds count ops p Hj).
Qed.

Lemma C4_transport_keeps_index_in_bounds_witness :
  let c := NGE.setCurrentStepIndex 22 NGE.mounted in
  let p := Ways.mkPlayer 48 false in
  len (NGE.steps c) = 23 /\ len Ways.steps = 49 /\
  NGE.currentStepIndex (NGE.handleNext c) = 22 /\
  NGE.isPlaying (NGE.handleNext c) = false /\
  NGE.currentStepIndex (NGE.handlePrev c) = 21 /\
  Ways.stepIndex (Ways.handle 49 Ways.Forward p) = 48 /\
  (forall ops, 0 <= NGE.currentStepIndex (NGE.run ops c) <= 22) /\
  (forall ops, 0 <= Ways.stepIndex (Ways.run 49 ops p) <= 48).
Proof.
  cbv zeta.
  assert (H1 : 1 <= len (NGE.steps (NGE.setCurrentStepIndex 22 NGE.mounted)))
    by (vm_compute; discriminate).
  assert (H2 : 0 <= NGE.currentStepIndex (NGE.setCurrentStepIndex 22 NGE.mounted)
               <= len (NGE.steps (NGE.setCurrentStepIndex 22 NGE.mounted)) - 1)
    by (vm_compute; split; discriminate).
  assert (H3 : 1 <= 49) by lia.
  assert (H4 : 0 <= Ways.stepIndex (Ways.mkPlayer 48 false) <= 49 - 1)
    by (cbn; lia).
  assert (H5 : settled 49 (Ways.mkPlayer 48 false))
    by (intros H; discriminate H).
  pose proof (C4_transport_keeps_index_in_bounds
                (NGE.setCurrentStepIndex 22 NGE.mounted) 49
                (Ways.mkPlayer 48 false) H1 H2 H3 H4 H5) as H.
  cbv zeta in H.
  destruct H as [[_ [Hlast [Hprev [_ Hrun]]]] [_ [Hw [_ [_ Hwrun]]]]].
  split; [vm_compute; reflexivity|].
  split; [vm_compute; reflexivity|].
  destruct (Hlast eq_refl) as [Ha Hb].
  split; [exact Ha|]. split; [exact Hb|].
  split; [apply Hprev; cbn; lia|].
  split; [apply Hw; reflexivity|].
  split.
  - intros ops. apply (Hrun ops).
  - intros ops. apply (Hwrun ops).
Defined.

(** ** C5 *)


(** ** The probed midpoint on integer bounds *)

(** On integers the floor of [lo + (hi - lo) / 2] is the truncated-down
    half-sum, which lies between the bounds. *)
Lemma floor_add_half_int (l h : Z) :
  floor_add_half (Fin l) (sub (Fin h) (Fin l)) = Fin (l + (h - l) / 2).
Proof.
  unfold floor_add_half, sub, neg, add. f_equal.
  assert (E : (inject_Z l + inject_Z (h + - l) / 2
               == inject_Z (l * 2 + (h - l)) / inject_Z 2)%Q).
  { rewrite !inject_Z_plus, inject_Z_mult, inject_Z_opp.
    unfold Z.sub. rewrite inject_Z_plus, inject_Z_opp. field. }
  rewrite (Qfloor_comp _ _ E), <- Zdiv_Qdiv, Z.div_add_l by lia.
  reflexivity.
Qed.

Lemma midpoint_bounds (l h : Z) :
  l <= h -> l <= l + (h - l) / 2 <= h.
Proof.
  intros H. pose proof (Z.div_pos (h - l) 2 ltac:(lia) ltac:(lia)).
  pose proof (Z.div_le_upper_bound (h - l) 2 (h - l) ltac:(lia) ltac:(lia)).
  lia.
Qed.

(** *** Ship Packages: every Step of a probe records a midpoint within
    the bounds, and the search ends *)

Lemma ship_sim_fields (low high mid ans : num) (rest : list num) :
  forall i cw day bins,
    Forall (probe_fields low high mid)
      (fst (Ship.sim low high mid ans i rest cw day bins)).
Proof.
  induction rest as [|wt rest IH]; intros i cw day bins;
    cbn [Ship.sim fst]; [constructor|].
  destruct (le (add cw wt) mid).
  - destruct (gt (add cw wt) mid).
    + cbn [fst]. repeat constructor.
    + specialize (IH (i + 1) (add cw wt) day
                    (Ship.push_at (day - 1) wt bins)).
      destruct (Ship.sim low high mid ans (i + 1) rest _ _ _) as [more r].
      cbn [fst] in *. repeat (constructor; [repeat split|]). exact IH.
  - destruct (gt wt mid).
    + cbn [fst]. repeat constructor.
    + specialize (IH (i + 1) wt (day + 1) (bins ++ [[wt]])).
      destruct (Ship.sim low high mid ans (i + 1) rest _ _ _) as [more r].
      cbn [fst] in *. repeat (constructor; [repeat split|]). exact IH.
Qed.

Lemma ship_probe_steps (weights : list num) (days : Z) (low high ans : num) :
  Forall (probe_fields low high (floor_add_half low (sub high low)))
    (fst (Ship.probe weights days low high ans)).
Proof.
  unfold Ship.probe.
  pose proof (ship_sim_fields low high (floor_add_half low (sub high low))
                ans weights 0 (Fin 0) 1 [[]]) as Hs.
  destruct (Ship.sim low high _ ans 0 weights (Fin 0) 1 [[]]) as [steps r].
  cbn [fst] in Hs.
  destruct (Ship.possible r); [destruct (Ship.day r <=? days)|]; cbn [fst];
    constructor; try (repeat split);
    try (apply Forall_app; split; [exact Hs | repeat constructor]);
    exact Hs.
Qed.

Lemma ship_probe_next (weights : list num) (days : Z) (l h : Z) (ans : num) :
  let m := l + (h - l) / 2 in
  exists ans',
    snd (Ship.probe weights days (Fin l) (Fin h) ans) = (Fin l, Fin (m - 1), ans')
    \/ snd (Ship.probe weights days (Fin l) (Fin h) ans) = (Fin (m + 1), Fin h, ans').
Proof.
  cbv zeta. unfold Ship.probe. rewrite floor_add_half_int.
  destruct (Ship.sim _ _ _ ans 0 weights (Fin 0) 1 [[]]) as [steps r].
  destruct (Ship.possible r); [destruct (Ship.day r <=? days)|]; cbn [snd].
  - eexists. left. cbn. unfold Z.sub. reflexivity.
  - eexists. right. reflexivity.
  - eexists. right. reflexivity.
Qed.

Lemma ship_search_loop_within (weights : list num) (days : Z) (fuel : nat) :
  forall l h ans steps fin,
    Ship.search_loop weights days fuel (Fin l) (Fin h) ans
      = Some (steps, fin) ->
    Forall probed_within steps.
Proof.
  induction fuel as [|fuel IH]; intros l h ans steps fin H;
    cbn [Ship.search_loop] in H; cbn [le] in H;
    destruct (Z.leb_spec l h) as [Hle|Hgt].
  - discriminate H.
  - injection H as <- _. constructor.
  - pose proof (ship_probe_steps weights days (Fin l) (Fin h) ans) as Hp.
    rewrite floor_add_half_int in Hp.
    destruct (ship_probe_next weights days l h ans) as [ans' Hn].
    destruct (Ship.probe weights days (Fin l) (Fin h) ans)
      as [steps1 [[low1 high1] ans1]].
    cbn [fst snd] in Hp, Hn.
    assert (Hw : Forall probed_within steps1).
    { eapply Forall_impl; [|exact Hp].
      intros s [Hl [Hh Hm]]. exists l, (l + (h - l) / 2), h.
      repeat split; try assumption; apply midpoint_bounds; exact Hle. }
    destruct Hn as [Hn|Hn]; injection Hn as -> -> ->;
      match type of H with
      | context [Ship.search_loop ?w ?d ?f ?a ?b ?c] =>
          destruct (Ship.search_loop w d f a b c) as [[steps2 fin2]|] eqn:E
      end; try discriminate H;
      injection H as <- _; apply Forall_app; split; try exact Hw;
      eapply IH; exact E.
  - injection H as <- _. constructor.
Qed.

Lemma ship_search_loop_ends (weights : list num) (days : Z) (fuel : nat) :
  forall l h ans,
    (Z.to_nat (h - l + 1) <= fuel)%nat ->
    exists r, Ship.search_loop weights days fuel (Fin l) (Fin h) ans = Some r.
Proof.
  induction fuel as [|fuel IH]; intros l h ans Hf;
    cbn [Ship.search_loop]; cbn [le];
    destruct (Z.leb_spec l h) as [Hle|Hgt]; try (eexists; reflexivity).
  - lia.
  - destruct (ship_probe_next weights days l h ans) as [ans' Hn].
    pose proof (midpoint_bounds l h Hle) as Hm.
    destruct (Ship.probe weights days (Fin l) (Fin h) ans)
      as [steps1 [[low1 high1] ans1]].
    cbn [snd] in Hn.
    destruct Hn as [Hn|Hn]; injection Hn as -> -> ->.
    + destruct (IH l (l + (h - l) / 2 - 1) ans' ltac:(lia)) as [[s2 f2] E].
      rewrite E. eexists. reflexivity.
    + destruct (IH (l + (h - l) / 2 + 1) h ans' ltac:(lia)) as [[s2 f2] E].
      rewrite E. eexists. reflexivity.
Qed.

Lemma sum_is_int (ws : list num) :
  Forall is_int ws -> forall acc, is_int acc -> is_int (fold_left add ws acc).
Proof.
  induction 1 as [|w ws [z ->] _ IH]; intros acc [a ->]; cbn.
  - exists a. reflexivity.
  - apply IH. eexists. reflexivity.
Qed.

Lemma min_is_int (ws : list num) :
  Forall is_int ws ->
  forall acc, acc = PInf \/ is_int acc ->
    (ws = [] /\ fold_left min ws acc = acc) \/ is_int (fold_left min ws acc).
Proof.
  induction 1 as [|w ws [z ->] _ IH]; intros acc Hacc; cbn [fold_left].
  - left. auto.
  - right.
    assert (Hm : is_int (min acc (Fin z))).
    { destruct Hacc as [->|[a ->]]; cbn; [eexists; reflexivity|].
      destruct (a <=? z); eexists; reflexivity. }
    destruct (IH (min acc (Fin z)) (or_intror Hm)) as [[_ E]|Hi].
    + rewrite E. exact Hm.
    + exact Hi.
Qed.

(** On a list of integer weights the generator of the Ship Packages note
    ends, and every Step between the init Step and the complete Step
    records integer bounds with [low <= mid <= high]. *)
Theorem ship_midpoints_within (weights : list num) (days : Z) :
  Forall is_int weights ->
  exists steps low' high' ans',
    Ship.trace weights days
    = Some (Ship.init_step (Math_min weights) (sum weights)
              :: steps ++ [Ship.complete_step low' high' ans']) /\
    Forall probed_within steps.
Proof.
  intros Hw. unfold Ship.trace, Ship.trace_fuel.
  destruct (sum_is_int weights Hw (Fin 0) (ex_intro _ 0 eq_refl)) as [h Hh].
  fold (sum weights) in Hh. rewrite Hh.
  destruct (min_is_int weights Hw PInf (or_introl eq_refl)) as [[_ Hm]|[l Hm]];
    fold (Math_min weights) in Hm; rewrite Hm.
  - cbn. exists [], PInf, (Fin h), (Fin 0).
    split; [reflexivity | constructor].
  - unfold Ship.iterations.
    destruct (ship_search_loop_ends weights days (Z.to_nat (h - l + 1))
                l h (Fin 0) (Nat.le_refl _)) as [[steps [[low' high'] ans']] E].
    rewrite E. exists steps, low', high', ans'.
    split; [reflexivity|].
    eapply ship_search_loop_within. exact E.
Qed.

(** *** Split Array: the same on an array of integers that is not empty *)

Lemma split_check_fields (lo hi mid res : num) (rest : list num) :
  forall i parts cs splits,
    Forall (fun s => check_fields lo hi mid s /\
                     SplitArray.phase s = SplitArray.check_process)
      (fst (SplitArray.check lo hi mid res i rest parts cs splits)).
Proof.
  induction rest as [|val rest IH]; intros i parts cs splits;
    cbn [SplitArray.check fst]; [constructor|].
  destruct (gt (add cs val) mid).
  - specialize (IH (i + 1) (parts + 1) val (splits ++ [i])).
    destruct (SplitArray.check lo hi mid res (i + 1) rest _ _ _) as [more r].
    cbn [fst] in *. repeat (constructor; [repeat split|]). exact IH.
  - specialize (IH (i + 1) parts (add cs val) splits).
    destruct (SplitArray.check lo hi mid res (i + 1) rest _ _ _) as [more r].
    cbn [fst] in *. repeat (constructor; [repeat split|]). exact IH.
Qed.

Lemma split_probe_steps (arr : list num) (k : Z) (l h : Z) (res : num) :
  l <= h ->
  Forall split_step_ok (fst (SplitArray.probe arr k (Fin l) (Fin h) res)).
Proof.
  intros Hle. unfold SplitArray.probe. rewrite floor_add_half_int.
  pose proof (split_check_fields (Fin l) (Fin h) (Fin (l + (h - l) / 2)) res
                arr 0 1 (Fin 0) []) as Hs.
  destruct (SplitArray.check _ _ _ res 0 arr 1 (Fin 0) [])
    as [steps [[parts cs] splits]].
  cbn [fst] in Hs.
  assert (Hin : forall s, check_fields (Fin l) (Fin h)
                            (Fin (l + (h - l) / 2)) s -> split_step_ok s).
  { intros s [Hl [Hh Hm]]. right. exists l, (l + (h - l) / 2), h.
    repeat split; try assumption; apply midpoint_bounds; exact Hle. }
  assert (Hsteps : Forall split_step_ok steps).
  { eapply Forall_impl; [|exact Hs]. intros s [Hf _]. apply Hin, Hf. }
  destruct (parts <=? k); cbn [fst];
    (constructor; [apply Hin; repeat split|]);
    (apply Forall_app; split; [exact Hsteps|]);
    (constructor; [apply Hin; repeat split|]);
    (constructor; [left; reflexivity | constructor]).
Qed.

Lemma split_probe_next (arr : list num) (k : Z) (l h : Z) (res : num) :
  let m := l + (h - l) / 2 in
  exists res',
    snd (SplitArray.probe arr k (Fin l) (Fin h) res)
      = (Fin l, Fin (m - 1), res')
    \/ snd (SplitArray.probe arr k (Fin l) (Fin h) res)
      = (Fin (m + 1), Fin h, res').
Proof.
  cbv zeta. unfold SplitArray.probe. rewrite floor_add_half_int.
  destruct (SplitArray.check _ _ _ res 0 arr 1 (Fin 0) [])
    as [steps [[parts cs] splits]].
  destruct (parts <=? k); cbn [snd].
  - eexists. left. cbn. unfold Z.sub. reflexivity.
  - eexists. right. reflexivity.
Qed.

Lemma split_search_loop_within (arr : list num) (k : Z) (fuel : nat) :
  forall l h res steps fin,
    SplitArray.search_loop arr k fuel (Fin l) (Fin h) res
      = Some (steps, fin) ->
    Forall split_step_ok steps.
Proof.
  induction fuel as [|fuel IH]; intros l h res steps fin H;
    cbn [SplitArray.search_loop] in H; cbn [le] in H;
    destruct (Z.leb_spec l h) as [Hle|Hgt].
  - discriminate H.
  - injection H as <- _. constructor.
  - pose proof (split_probe_steps arr k l h res Hle) as Hp.
    destruct (split_probe_next arr k l h res) as [res' Hn].
    destruct (SplitArray.probe arr k (Fin l) (Fin h) res)
      as [steps1 [[lo1 hi1] res1]].
    cbn [fst snd] in Hp, Hn.
    destruct Hn as [Hn|Hn]; injection Hn as -> -> ->;
      match type of H with
      | context [SplitArray.search_loop ?w ?d ?f ?a ?b ?c] =>
          destruct (SplitArray.search_loop w d f a b c)
            as [[steps2 fin2]|] eqn:E
      end; try discriminate H;
      injection H as <- _; apply Forall_app; split; try exact Hp;
      eapply IH; exact E.
  - injection H as <- _. constructor.
Qed.

Lemma split_search_loop_ends (arr : list num) (k : Z) (fuel : nat) :
  forall l h res,
    (Z.to_nat (h - l + 1) <= fuel)%nat ->
    exists r,
      SplitArray.search_loop arr k fuel (Fin l) (Fin h) res = Some r.
Proof.
  induction fuel as [|fuel IH]; intros l h res Hf;
    cbn [SplitArray.search_loop]; cbn [le];
    destruct (Z.leb_spec l h) as [Hle|Hgt]; try (eexists; reflexivity).
  - lia.
  - destruct (split_probe_next arr k l h res) as [res' Hn].
    pose proof (midpoint_bounds l h Hle) as Hm.
    destruct (SplitArray.probe arr k (Fin l) (Fin h) res)
      as [steps1 [[lo1 hi1] res1]].
    cbn [snd] in Hn.
    destruct Hn as [Hn|Hn]; injection Hn as -> -> ->.
    + destruct (IH l (l + (h - l) / 2 - 1) res' ltac:(lia)) as [[s2 f2] E].
      rewrite E. eexists. reflexivity.
    + destruct (IH (l + (h - l) / 2 + 1) h res' ltac:(lia)) as [[s2 f2] E].
      rewrite E. eexists. reflexivity.
Qed.

Lemma max_is_int (ws : list num) :
  Forall is_int ws ->
  forall acc, acc = NInf \/ is_int acc ->
    (ws = [] /\ fold_left max ws acc = acc) \/ is_int (fold_left max ws acc).
Proof.
  induction 1 as [|w ws [z ->] _ IH]; intros acc Hacc; cbn [fold_left].
  - left. auto.
  - right.
    assert (Hm : is_int (max acc (Fin z))).
    { destruct Hacc as [->|[a ->]]; cbn; [eexists; reflexivity|].
      destruct (a <=? z); eexists; reflexivity. }
    destruct (IH (max acc (Fin z)) (or_intror Hm)) as [[_ E]|Hi].
    + rewrite E. exact Hm.
    + exact Hi.
Qed.

(** On an array of integers that is not empty the generator of the Split
    Array note ends, and every Step of a probe, the Step that shows the
    updated bound apart, records integer bounds with [lo <= mid <= hi]. *)
Theorem split_midpoints_within (first : num) (rest : list num) (k : Z) :
  Forall is_int (first :: rest) ->
  exists steps lo' hi' res',
    SplitArray.trace (first :: rest) k
    = Some (SplitArray.init_step (Math_max (first :: rest))
              (sum (first :: rest))
              :: steps ++ [SplitArray.final_step lo' hi' res']) /\
    Forall split_step_ok steps.
Proof.
  intros Hw. unfold SplitArray.trace, SplitArray.trace_fuel.
  destruct (sum_is_int _ Hw (Fin 0) (ex_intro _ 0 eq_refl)) as [h Hh].
  fold (sum (first :: rest)) in Hh. rewrite Hh.
  destruct (max_is_int _ Hw NInf (or_introl eq_refl)) as [[Hnil _]|[l Hm]];
    [discriminate Hnil|].
  fold (Math_max (first :: rest)) in Hm. rewrite Hm.
  unfold SplitArray.iterations.
  destruct (split_search_loop_ends (first :: rest) k (Z.to_nat (h - l + 1))
              l h (Fin (-1)) (Nat.le_refl _)) as [[steps [[lo' hi'] res']] E].
  rewrite E. exists steps, lo', hi', res'.
  split; [reflexivity|].
  eapply split_search_loop_within. exact E.
Qed.

(** ** C6 *)

Lemma ship_search_loop_probes (weights : list num) (days : Z) (fuel : nat) :
  forall l h ans steps fin,
    Ship.search_loop weights days fuel (Fin l) (Fin h) ans
      = Some (steps, fin) ->
    Forall ship_probe_step steps.
Proof.
  induction fuel as [|fuel IH]; intros l h ans steps fin H;
    cbn [Ship.search_loop] in H; cbn [le] in H;
    destruct (Z.leb_spec l h) as [Hle|Hgt].
  - discriminate H.
  - injection H as <- _. constructor.
  - pose proof (ship_probe_steps weights days (Fin l) (Fin h) ans) as Hp.
    rewrite floor_add_half_int in Hp.
    destruct (ship_probe_next weights days l h ans) as [ans' Hn].
    destruct (Ship.probe weights days (Fin l) (Fin h) ans)
      as [steps1 [[low1 high1] ans1]].
    cbn [fst snd] in Hp, Hn.
    assert (Hw : Forall ship_probe_step steps1).
    { eapply Forall_impl; [|exact Hp].
      intros s [Hl [Hh Hm]]. exists l, h.
      repeat split; try assumption; apply midpoint_bounds; exact Hle. }
    destruct Hn as [Hn|Hn]; injection Hn as -> -> ->;
      match type of H with
      | context [Ship.search_loop ?w ?d ?f ?a ?b ?c] =>
          destruct (Ship.search_loop w d f a b c) as [[steps2 fin2]|] eqn:E
      end; try discriminate H;
      injection H as <- _; apply Forall_app; split; try exact Hw;
      eapply IH; exact E.
  - injection H as <- _. constructor.
Qed.

Lemma split_probe_kinds (arr : list num) (k : Z) (l h : Z) (res : num) :
  l <= h ->
  Forall (fun s => split_probe_step s \/ split_update_step s)
    (fst (SplitArray.probe arr k (Fin l) (Fin h) res)).
Proof.
  intros Hle. unfold SplitArray.probe. rewrite floor_add_half_int.
  pose proof (split_check_fields (Fin l) (Fin h) (Fin (l + (h - l) / 2)) res
                arr 0 1 (Fin 0) []) as Hs.
  destruct (SplitArray.check _ _ _ res 0 arr 1 (Fin 0) [])
    as [steps [[parts cs] splits]].
  cbn [fst] in Hs.
  pose proof (midpoint_bounds l h Hle) as Hm.
  assert (Hin : forall s,
            check_fields (Fin l) (Fin h) (Fin (l + (h - l) / 2)) s ->
            SplitArray.phase s <> SplitArray.search ->
            split_probe_step s \/ split_update_step s).
  { intros s [Hl [Hh Hmid]] Hph. left. split; [exact Hph|].
    exists l, h. repeat split; try assumption; lia. }
  assert (Hsteps : Forall (fun s => split_probe_step s \/ split_update_step s)
                     steps).
  { eapply Forall_impl; [|exact Hs]. cbv beta. intros s [Hf Hph].
    apply Hin; [exact Hf|]. rewrite Hph. discriminate. }
  destruct (parts <=? k); cbn [fst];
    (constructor; [apply Hin; [repeat split | discriminate]|]);
    (apply Forall_app; split; [exact Hsteps|]);
    (constructor; [apply Hin; [repeat split | discriminate]|]);
    (constructor; [|constructor]); right;
    (split; [reflexivity|]); exists l, h;
    (split; [exact Hle|]); (split; [reflexivity|]).
  - left. split; [reflexivity|]. cbn. unfold Z.sub. reflexivity.
  - right. split; reflexivity.
Qed.

Lemma split_search_loop_kinds (arr : list num) (k : Z) (fuel : nat) :
  forall l h res steps fin,
    SplitArray.search_loop arr k fuel (Fin l) (Fin h) res
      = Some (steps, fin) ->
    Forall (fun s => split_probe_step s \/ split_update_step s) steps.
Proof.
  induction fuel as [|fuel IH]; intros l h res steps fin H;
    cbn [SplitArray.search_loop] in H; cbn [le] in H;
    destruct (Z.leb_spec l h) as [Hle|Hgt].
  - discriminate H.
  - injection H as <- _. constructor.
  - pose proof (split_probe_kinds arr k l h res Hle) as Hp.
    destruct (split_probe_next arr k l h res) as [res' Hn].
    destruct (SplitArray.probe arr k (Fin l) (Fin h) res)
      as [steps1 [[lo1 hi1] res1]].
    cbn [fst snd] in Hp, Hn.
    destruct Hn as [Hn|Hn]; injection Hn as -> -> ->;
      match type of H with
      | context [SplitArray.search_loop ?w ?d ?f ?a ?b ?c] =>
          destruct (SplitArray.search_loop w d f a b c)
            as [[steps2 fin2]|] eqn:E
      end; try discriminate H;
      injection H as <- _; apply Forall_app; split; try exact Hp;
      eapply IH; exact E.
  - injection H as <- _. constructor.
Qed.

(** C6, as stated, fails on the Split Array note with its default input
    (the array 7, 2, 5, 10, 8 and [k = 2]): the first probe, of the bounds
    10 and 32, has the midpoint 21 and is feasible; the Step pushed next,
    of the [update-hi] line, records [hi] as already lowered to 20 next to
    that midpoint, so that it holds [lo <= hi] and a [mid] above [hi]. *)
Lemma C6_counterexample_update_step :
  exists t s,
    SplitArray.trace (map Fin [7; 2; 5; 10; 8]) 2 = Some t /\
    nth_error t 13 = Some s /\
    SplitArray.codeLine s = "update-hi"%string /\
    SplitArray.lo s = Fin 10 /\ SplitArray.hi s = Fin 20 /\
    SplitArray.mid s = Fin 21 /\
    le (SplitArray.lo s) (SplitArray.hi s) = true /\
    le (SplitArray.mid s) (SplitArray.hi s) = false.
Proof.
  eexists. eexists. split; [vm_compute; reflexivity|].
  split; [reflexivity|]. repeat split.
Qed.

(** C6, amended.  On the weights and arrays that the notes hold (integers
    that are not negative; for the Split Array note the array is not
    empty), of a safe total, the generators end and every Step between
    the first and the last one belongs to a probe of bounds [low <= high]:
    a Step of the probe itself records these bounds and the midpoint
    [floor(low + (high - low) / 2)], which lies within them; the Step that
    the Split Array generator pushes after a probe records this midpoint
    next to the bound as updated, [hi = mid - 1] or [lo = mid + 1]. *)
Theorem C6_midpoints_within_bounds :
  (forall ws days,
      Forall (fun w => 0 <= w) ws -> safe_total ws ->
      exists steps low' high' ans',
        Ship.trace (map Fin ws) days
        = Some (Ship.init_step (Math_min (map Fin ws)) (sum (map Fin ws))
                  :: steps ++ [Ship.complete_step low' high' ans']) /\
        Forall ship_probe_step steps) /\
  (forall v vs k,
      Forall (fun w => 0 <= w) (v :: vs) -> safe_total (v :: vs) ->
      exists steps lo' hi' res',
        SplitArray.trace (map Fin (v :: vs)) k
        = Some (SplitArray.init_step (Math_max (map Fin (v :: vs)))
                  (sum (map Fin (v :: vs)))
                  :: steps ++ [SplitArray.final_step lo' hi' res']) /\
        Forall (fun s => split_probe_step s \/ split_update_step s) steps).
Proof.
  assert (Hint : forall zs, Forall is_int (map Fin zs)).
  { intros zs. apply Forall_map, Forall_forall. intros z _.
    exists z. reflexivity. }
  split.
  - intros ws days _ _. pose proof (Hint ws) as Hw.
    unfold Ship.trace, Ship.trace_fuel.
    destruct (sum_is_int _ Hw (Fin 0) (ex_intro _ 0 eq_refl)) as [h Hh].
    fold (sum (map Fin ws)) in Hh. rewrite Hh.
    destruct (min_is_int _ Hw PInf (or_introl eq_refl))
      as [[_ Hm]|[l Hm]];
      fold (Math_min (map Fin ws)) in Hm; rewrite Hm.
    + cbn. exists [], PInf, (Fin h), (Fin 0).
      split; [reflexivity | constructor].
    + unfold Ship.iterations.
      destruct (ship_search_loop_ends (map Fin ws) days
                  (Z.to_nat (h - l + 1)) l h (Fin 0) (Nat.le_refl _))
        as [[steps [[low' high'] ans']] E].
      rewrite E. exists steps, low', high', ans'.
      split; [reflexivity|].
      eapply ship_search_loop_probes. exact E.
  - intros v vs k _ _. pose proof (Hint (v :: vs)) as Hw.
    unfold SplitArray.trace, SplitArray.trace_fuel.
    destruct (sum_is_int _ Hw (Fin 0) (ex_intro _ 0 eq_refl)) as [h Hh].
    fold (sum (map Fin (v :: vs))) in Hh. rewrite Hh.
    destruct (max_is_int _ Hw NInf (or_introl eq_refl))
      as [[Hnil _]|[l Hm]]; [discriminate Hnil|].
    fold (Math_max (map Fin (v :: vs))) in Hm. rewrite Hm.
    unfold SplitArray.iterations.
    destruct (split_search_loop_ends (map Fin (v :: vs)) k
                (Z.to_nat (h - l + 1)) l h (Fin (-1)) (Nat.le_refl _))
      as [[steps [[lo' hi'] res']] E].
    rewrite E. exists steps, lo', hi', res'.
    split; [reflexivity|].
    eapply split_search_loop_kinds. exact E.
Qed.

Lemma C6_midpoints_within_bounds_witness :
  (exists steps low' high' ans',
      Ship.trace (map Fin [1; 2; 3; 4; 5; 6; 7; 8; 9; 10]) 5
      = Some (Ship.init_step (Fin 1) (Fin 55)
                :: steps ++ [Ship.complete_step low' high' ans']) /\
      Forall ship_probe_step steps) /\
  (exists steps lo' hi' res',
      SplitArray.trace (map Fin [7; 2; 5; 10; 8]) 2
      = Some (SplitArray.init_step (Fin 10) (Fin 32)
                :: steps ++ [SplitArray.final_step lo' hi' res']) /\
      Forall (fun s => split_probe_step s \/ split_update_step s) steps).
Proof.
  split.
  - apply (proj1 C6_midpoints_within_bounds
             [1; 2; 3; 4; 5; 6; 7; 8; 9; 10] 5).
    + repeat constructor; lia.
    + vm_compute. discriminate.
  - apply (proj2 C6_midpoints_within_bounds 7 [2; 5; 10; 8] 2).
    + repeat constructor; lia.
    + vm_compute. discriminate.
Defined.

(** ** The accumulators reduced modulo 1000000007 *)

Lemma reduced_step (total cm x : num) :
  reduced total -> cm = PInf \/ nonneg_int cm -> nonneg_int x ->
  nonneg_int (min cm x) /\
  reduced (rem (add total (min cm x)) SubarrayMins.MOD).
Proof.
  intros [t [-> Ht]] Hcm [z [-> Hz]].
  assert (Hm : nonneg_int (min cm (Fin z))).
  { destruct Hcm as [->|[m [-> Hm]]]; cbn.
    - exists z. auto.
    - destruct (m <=? z); eexists; split; try reflexivity; lia. }
  split; [exact Hm|].
  destruct Hm as [m [-> Hm]]. cbn. eexists. split; [reflexivity|].
  apply Z.rem_bound_pos; unfold SubarrayMins.MOD in *; lia.
Qed.

Lemma mins_inner_reduced (arr : list num) (i : Z) (rest : list num) :
  Forall nonneg_int rest ->
  forall idx cm total,
    cm = PInf \/ nonneg_int cm -> reduced total ->
    Forall (fun s => reduced (SubarrayMins.totalSum s))
      (fst (SubarrayMins.inner arr i idx rest cm total)) /\
    reduced (snd (SubarrayMins.inner arr i idx rest cm total)).
Proof.
  induction 1 as [|x rest Hx _ IH]; intros idx cm total Hcm Ht;
    cbn [SubarrayMins.inner]; [split; [constructor | exact Ht]|].
  destruct (reduced_step total cm x Ht Hcm Hx) as [Hm Hr].
  specialize (IH (idx + 1) (min cm x)
                (rem (add total (min cm x)) SubarrayMins.MOD)
                (or_intror Hm) Hr).
  destruct (SubarrayMins.inner arr i (idx + 1) rest _ _) as [more t].
  cbn [fst snd] in *. destruct IH as [IH1 IH2].
  split; [constructor; [exact Hr | exact IH1] | exact IH2].
Qed.

Lemma mins_outer_reduced (arr : list num) (suffix : list num) :
  Forall nonneg_int suffix ->
  forall i total,
    reduced total ->
    Forall (fun s => reduced (SubarrayMins.totalSum s))
      (fst (SubarrayMins.outer arr i suffix total)) /\
    reduced (snd (SubarrayMins.outer arr i suffix total)).
Proof.
  induction 1 as [|x suffix Hx Hs IH]; intros i total Ht;
    cbn [SubarrayMins.outer]; [split; [constructor | exact Ht]|].
  destruct (mins_inner_reduced arr i (x :: suffix)
              (Forall_cons x Hx Hs) i PInf total (or_introl eq_refl) Ht)
    as [H1 H2].
  destruct (SubarrayMins.inner arr i i (x :: suffix) PInf total)
    as [steps1 total1].
  cbn [fst snd] in H1, H2. specialize (IH (i + 1) total1 H2).
  destruct (SubarrayMins.outer arr (i + 1) suffix total1) as [steps2 total2].
  cbn [fst snd] in *. destruct IH as [IH1 IH2].
  split; [apply Forall_app; split; assumption | exact IH2].
Qed.

(** On an array of non-negative integers every [totalSum] that the Sum of
    Subarray Minimums generator records lies in [0, 1000000007). *)
Theorem mins_total_reduced (arr : list num) :
  Forall nonneg_int arr ->
  Forall (fun s => reduced (SubarrayMins.totalSum s)) (SubarrayMins.trace arr).
Proof.
  intros H. unfold SubarrayMins.trace.
  assert (H0 : reduced (Fin 0)).
  { exists 0. split; [reflexivity | unfold SubarrayMins.MOD; lia]. }
  destruct (mins_outer_reduced arr arr H 0 (Fin 0) H0) as [H1 H2].
  destruct (SubarrayMins.outer arr 0 arr (Fin 0)) as [steps total].
  cbn [fst snd] in *. apply Forall_app. split; [exact H1|].
  constructor; [exact H2 | constructor].
Qed.

(** Every entry of [ways] in every Step of the Number of Ways simulation
    lies in [0, 1000000007); the simulation ends with the queue empty. *)
Theorem ways_reduced :
  (exists t, Ways.simulate 64 Ways.n Ways.roads = Some t /\ Ways.steps = t) /\
  forallb
    (fun s =>
       forallb (fun w => le (Fin 0) w && lt w (Fin Ways.MOD)) (Ways.ways s))
    Ways.steps = true.
Proof.
  split; [|vm_compute; reflexivity].
  unfold Ways.steps.
  destruct (Ways.simulate 64 Ways.n Ways.roads) as [t|] eqn:E.
  - exists t. auto.
  - vm_compute in E. discriminate E.
Qed.

(** ** C7 *)

(** C7, at the failing input: the text [3, 1, 2 4] passes the pattern and
    the length check of the Sum of Subarray Minimums note, its last token
    is not a numeral, the array [3, 1, NaN] is stored, and from the third
    Step on the recorded [totalSum] is NaN, outside [0, 1000000007). *)
Theorem C7_subarray_mins_total_is_NaN (c : SubarrayMins.Component) :
  let c' := SubarrayMins.handleArrChange "3, 1, 2 4" c in
  SubarrayMins.arr c' = [Fin 3; Fin 1; NaN] /\
  map SubarrayMins.totalSum (SubarrayMins.steps c')
    = [Fin 3; Fin 4; NaN; NaN; NaN; NaN; NaN] /\
  (exists s, nth_error (SubarrayMins.steps c') 2 = Some s /\
             SubarrayMins.startIdx s = 0 /\ SubarrayMins.endIdx s = 2 /\
             SubarrayMins.totalSum s = NaN /\
             le (Fin 0) (SubarrayMins.totalSum s) = false /\
             lt (SubarrayMins.totalSum s) (Fin SubarrayMins.MOD) = false).
Proof.
  cbv zeta.
  assert (E : SubarrayMins.handleArrChange "3, 1, 2 4" c
              = SubarrayMins.setArr [Fin 3; Fin 1; NaN] c) by reflexivity.
  rewrite E. unfold SubarrayMins.setArr, SubarrayMins.generateSteps.
  cbn [SubarrayMins.arr SubarrayMins.steps].
  split; [reflexivity|]. split; [vm_compute; reflexivity|].
  eexists. split; [vm_compute; reflexivity|]. repeat split.
Qed.

(** ** C8 *)

(** What the two handlers do with an edit.  The Next Greater Element
    handler leaves the whole component as it was (the stored array, the
    trace, the index and the playback flag) unless the text is valid: only
    digits, commas, spaces and minus signs, at most 12 tokens, every token
    an integer of absolute value at most 50; and then it stores the array
    that the text denotes.  The Sum of Subarray Minimums handler does the
    same for the texts it accepts, but it accepts on the pattern and the
    number of tokens alone. *)
Lemma handlers_keep_or_store :
  (forall val c, ~ nge_valid val -> NGE.handleArrChange val c = c) /\
  (forall val c,
      NGE.handleArrChange val c <> c ->
      nge_valid val /\
      NGE.arr (NGE.handleArrChange val c) = parse_parts val) /\
  (forall val c,
      ~ mins_accepted val -> SubarrayMins.handleArrChange val c = c) /\
  (forall val c,
      SubarrayMins.handleArrChange val c <> c ->
      mins_accepted val /\
      SubarrayMins.arr (SubarrayMins.handleArrChange val c) = parse_parts val).
Proof.
  split; [|split; [|split]].
  - intros val c H. rewrite nge_handler_cases.
    destruct (_ && _) eqn:E; [|reflexivity].
    apply nge_handler_accepts in E. contradiction.
  - intros val c H. rewrite nge_handler_cases in *.
    destruct (_ && _) eqn:E; [|contradiction].
    apply nge_handler_accepts in E. split; [exact E | reflexivity].
  - intros val c H. rewrite mins_handler_cases.
    destruct (_ && _) eqn:E; [|reflexivity].
    apply mins_handler_accepts in E. contradiction.
  - intros val c H. rewrite mins_handler_cases in *.
    destruct (_ && _) eqn:E; [|contradiction].
    apply mins_handler_accepts in E. split; [exact E | reflexivity].
Qed.

(** C8, at the failing input: the text of the Sum of Subarray Minimums
    note with its first comma deleted.  Its first token, 3 1, is no
    numeral, so the text does not parse; the handler stores it all the
    same, whatever the component held: the array becomes NaN, 2, 4, the
    trace is generated anew from it, and the index goes back to 0. *)
Theorem C8_subarray_mins_stores_unparsed_text (c : SubarrayMins.Component) :
  let val := "3 1, 2, 4"%string in
  let c' := SubarrayMins.handleArrChange val c in
  filter nonempty (map trim (split_comma val)) = ["3 1"; "2"; "4"]%string /\
  Number "3 1" = NaN /\
  SubarrayMins.arr c' = [NaN; Fin 2; Fin 4] /\
  SubarrayMins.steps c' = SubarrayMins.trace [NaN; Fin 2; Fin 4] /\
  SubarrayMins.currentStepIndex c' = 0.
Proof.
  cbv zeta. repeat split.
Qed.

(** ** C9 *)


Lemma last_opt_snoc {A} (l : list A) (x : A) :
  last_opt (l ++ [x]) = Some x.
Proof.
  unfold last_opt. destruct l as [|a l]; [reflexivity|].
  cbn [app]. rewrite last_last. reflexivity.
Qed.






(** ** C10 *)

(** C10. The blank text passes the checks of the weight field of the Ship
    Packages note and stores the empty list; on it [low] is
    [Math.min()], which is Infinity, and [high] is 0, the loop condition
    [low <= high] is false at once, and the trace is exactly the init
    Step followed by the complete Step, with [ans = 0]. *)
Theorem C10_ship_empty_weights :
  (forall c, exists c',
      Ship.handleWeightChange EmptyString c = Some c' /\
      Ship.weights c' = [] /\
      Ship.steps c' = [Ship.init_step PInf (Fin 0);
                       Ship.complete_step PInf (Fin 0) (Fin 0)]) /\
  Math_min [] = PInf /\ sum [] = Fin 0 /\ le PInf (Fin 0) = false /\
  (forall fuel days,
      Ship.search_loop [] days fuel (Math_min []) (sum []) (Fin 0)
        = Some ([], (PInf, Fin 0, Fin 0)) /\
      Ship.trace_fuel fuel [] days
        = Some [Ship.init_step PInf (Fin 0);
                Ship.complete_step PInf (Fin 0) (Fin 0)]) /\
  (Ship.phase (Ship.init_step PInf (Fin 0)) = Ship.search /\
   Ship.codeLine (Ship.init_step PInf (Fin 0)) = "init"%string /\
   Ship.low (Ship.init_step PInf (Fin 0)) = PInf /\
   Ship.high (Ship.init_step PInf (Fin 0)) = Fin 0) /\
  (Ship.phase (Ship.complete_step PInf (Fin 0) (Fin 0)) = Ship.complete /\
   Ship.ans (Ship.complete_step PInf (Fin 0) (Fin 0)) = Fin 0).
Proof.
  assert (loop : forall fuel days,
             Ship.search_loop [] days fuel PInf (Fin 0) (Fin 0)
             = Some ([], (PInf, Fin 0, Fin 0))).
  { intros fuel days. destruct fuel; reflexivity. }
  split; [|repeat split].
  - intros c. eexists. split; [|split].
    + unfold Ship.handleWeightChange. cbn.
      unfold Ship.setWeights, Ship.generateSteps, Ship.trace, Ship.trace_fuel.
      cbn. reflexivity.
    + reflexivity.
    + reflexivity.
  - apply loop.
  - unfold Ship.trace_fuel. cbn [Math_min sum fold_left].
    rewrite loop. reflexivity.
Qed.

(** * Further properties *)

(** ** The Next Greater Element generator *)

Lemma next_greater_map_int (zs : list Z) :
  next_greater (map Fin zs) = map Fin (next_greater_int zs).
Proof.
  induction zs as [|x rest IH]; [reflexivity|].
  cbn [map next_greater next_greater_int]. rewrite IH, first_greater_int.
  destruct (find (fun t => x <? t) rest); reflexivity.
Qed.

(** X1. On every array of integers the last Step of the trace is the
    complete Step and its [finalAns] holds, for every position, the first
    strictly greater element to its right, and -1 where there is none; it
    has the length of the input. *)
Theorem nge_final_answer_is_next_greater (zs : list Z) :
  exists s,
    last_opt (NGE.trace (map Fin zs)) = Some s /\
    NGE.phase s = NGE.complete /\
    NGE.finalAns s = map Fin (next_greater_int zs) /\
    List.length (NGE.finalAns s) = List.length zs.
Proof.
  destruct (nge_trace_shape (map Fin zs)) as [middle [s [Ht [Hp [_ [_ Hn]]]]]].
  exists s. rewrite Ht.
  split.
  { change (NGE.init_step :: middle ++ [s])
      with ((NGE.init_step :: middle) ++ [s]). apply last_opt_snoc. }
  split; [exact Hp|].
  rewrite Hn, next_greater_map_int. split; [reflexivity|].
  rewrite length_map.
  clear. induction zs as [|x rest IH]; cbn; congruence.
Qed.

Lemma Sorted_snoc {A} (R : A -> A -> Prop) (l : list A) (x : A) :
  Sorted R l ->
  (forall l' y, l = l' ++ [y] -> R y x) ->
  Sorted R (l ++ [x]).
Proof.
  induction 1 as [|a l Hs IH Hd]; intros Hlast; cbn [app].
  - repeat constructor.
  - constructor.
    + apply IH. intros l' y ->. apply (Hlast (a :: l') y). reflexivity.
    + destruct l as [|b l]; cbn [app].
      * constructor. apply (Hlast [] a). reflexivity.
      * constructor. inversion Hd. assumption.
Qed.

Lemma Sorted_rev_flip {A} (R : A -> A -> Prop) (l : list A) :
  Sorted (fun a b => R b a) l -> Sorted R (rev l).
Proof.
  induction 1 as [|a l Hs IH Hd]; cbn [rev]; [constructor|].
  apply Sorted_snoc; [exact IH|].
  intros l' y E. destruct l as [|b l].
  - destruct l'; discriminate E.
  - cbn [rev] in E. apply app_inj_tail in E. destruct E as [_ <-].
    inversion Hd. assumption.
Qed.

Lemma drop_ge_sorted (x : num) (st : list num) :
  Sorted larger_beneath st -> Sorted larger_beneath (x :: drop_ge x st).
Proof.
  induction 1 as [|t st Hs IH Hd]; cbn [drop_ge].
  - repeat constructor.
  - destruct (ge x t) eqn:E; [exact IH|].
    constructor; [constructor; assumption|]. constructor. exact E.
Qed.

Lemma pop_loop_sorted (i : Z) (x : num) (st ans : list num) :
  Sorted larger_beneath st ->
  Forall (fun s => Sorted smaller_on_top (NGE.stack s))
    (fst (NGE.pop_loop i x st ans)).
Proof.
  induction 1 as [|t st Hs IH Hd]; cbn [NGE.pop_loop fst]; [constructor|].
  assert (Hst : Sorted smaller_on_top (rev (t :: st))).
  { apply Sorted_rev_flip. constructor; assumption. }
  destruct (ge x t).
  - destruct (NGE.pop_loop i x st ans) as [more st'].
    cbn [fst] in *. constructor; [exact Hst|].
    constructor; [|exact IH]. cbn [NGE.stack].
    apply Sorted_rev_flip. exact Hs.
  - cbn [fst]. repeat constructor; exact Hst.
Qed.

Lemma body_sorted (i : Z) (x : num) (st ans : list num) :
  Sorted larger_beneath st ->
  Forall (fun s => Sorted smaller_on_top (NGE.stack s))
    (fst (NGE.body i x st ans)) /\
  Sorted larger_beneath (fst (snd (NGE.body i x st ans))).
Proof.
  intros Hs. unfold NGE.body.
  pose proof (pop_loop_sorted i x st ans Hs) as Hp.
  pose proof (pop_loop_stack i x st ans) as He.
  pose proof (drop_ge_sorted x st Hs) as Hd.
  destruct (NGE.pop_loop i x st ans) as [pops st1].
  cbn [fst snd] in *. subst st1.
  assert (H1 : Sorted smaller_on_top (rev (drop_ge x st))).
  { apply Sorted_rev_flip. inversion Hd. assumption. }
  assert (H2 : Sorted smaller_on_top (rev (x :: drop_ge x st))).
  { apply Sorted_rev_flip. exact Hd. }
  split; [|exact Hd].
  constructor; [apply Sorted_rev_flip; exact Hs|].
  apply Forall_app. split; [exact Hp|].
  constructor.
  - unfold NGE.record_step. destruct (drop_ge x st); exact H1.
  - constructor; [exact H2 | constructor].
Qed.

Lemma main_loop_sorted (arr : list num) (k : nat) :
  forall st ans,
    Sorted larger_beneath st ->
    Forall (fun s => Sorted smaller_on_top (NGE.stack s))
      (fst (NGE.main_loop arr k st ans)) /\
    Sorted larger_beneath (fst (snd (NGE.main_loop arr k st ans))).
Proof.
  induction k as [|i IH]; intros st ans Hs; cbn [NGE.main_loop].
  - split; [constructor | exact Hs].
  - destruct (body_sorted (Z.of_nat i) (nth i arr NaN) st ans Hs) as [H1 H2].
    destruct (NGE.body (Z.of_nat i) (nth i arr NaN) st ans)
      as [steps1 [st1 ans1]].
    cbn [fst snd] in H1, H2.
    destruct (IH st1 ans1 H2) as [H3 H4].
    destruct (NGE.main_loop arr i st1 ans1) as [steps2 fin].
    cbn [fst snd] in *. split; [apply Forall_app; split; assumption|].
    exact H4.
Qed.

(** X2. The stack is monotonic in every Step of every trace: read from the
    bottom, each element is followed only by one that is not greater or
    equal, which between integers means strictly smaller. *)
Theorem nge_stack_is_monotonic :
  (forall arr,
      Forall (fun s => Sorted smaller_on_top (NGE.stack s)) (NGE.trace arr)) /\
  (forall a b, smaller_on_top (Fin a) (Fin b) <-> b < a).
Proof.
  split.
  - intros arr. unfold NGE.trace.
    destruct (main_loop_sorted arr (List.length arr) [] [] (Sorted_nil _))
      as [H1 H2].
    destruct (NGE.main_loop arr (List.length arr) [] []) as [steps [st ans]].
    cbn [fst snd] in *.
    assert (Hr : Sorted smaller_on_top (rev st))
      by (apply Sorted_rev_flip; exact H2).
    constructor; [constructor|].
    apply Forall_app. split; [exact H1|].
    repeat constructor; exact Hr.
  - intros a b. unfold smaller_on_top, ge. cbn [le].
    rewrite Z.leb_gt. reflexivity.
Qed.

(** ** The player of the Next Greater Element note, continued *)

(** X3. Whatever the user does to the mounted note (transport operations
    and edits, in any order), the trace held is the trace of the array
    held, the array is within the caps of the field (at most 12 integers
    of absolute value at most 50), the index is inside the trace, and the
    renderer finds a Step at the index. *)
Theorem nge_session_invariant (es : list Event) :
  let c := session es in
  NGE.steps c = NGE.trace (NGE.arr c) /\
  len (NGE.arr c) <= 12 /\
  Forall (fun n => exists z, n = Fin z /\ -50 <= z <= 50) (NGE.arr c) /\
  0 <= NGE.currentStepIndex c <= len (NGE.steps c) - 1 /\
  exists s, NGE.currentStep c = Some s.
Proof.
  cbv zeta. destruct (session_consistent es) as [Hs [Hi [Hl Hb]]].
  split; [exact Hs|]. split; [exact Hl|]. split; [|split; [exact Hi|]].
  - eapply Forall_impl; [|exact Hb].
    intros n [z [-> Hz]]. exists z. unfold NGE.MAX_VAL in Hz.
    split; [reflexivity | lia].
  - unfold NGE.currentStep, at_index.
    destruct (Z.ltb_spec (NGE.currentStepIndex (session es)) 0); [lia|].
    destruct (nth_error (NGE.steps (session es))
                (Z.to_nat (NGE.currentStepIndex (session es)))) eqn:E.
    + eexists. reflexivity.
    + apply nth_error_None in E. unfold len in Hi. lia.
Qed.

Lemma nge_run_app (ops1 ops2 : list NGE.Op) (c : NGE.Component) :
  NGE.run (ops1 ++ ops2) c = NGE.run ops2 (NGE.run ops1 c).
Proof. unfold NGE.run. apply fold_left_app. Qed.

Lemma ticks_advance (j : nat) :
  forall c,
    NGE.isPlaying c = true ->
    NGE.currentStepIndex c + Z.of_nat j <= len (NGE.steps c) - 1 ->
    NGE.run (ticks j) c
    = NGE.setCurrentStepIndex (NGE.currentStepIndex c + Z.of_nat j) c.
Proof.
  induction j as [|j IH]; intros c Hp Hj.
  - destruct c. cbn. unfold NGE.setCurrentStepIndex. cbn.
    rewrite Z.add_0_r. reflexivity.
  - cbn [ticks repeat NGE.run fold_left NGE.apply_op]. rewrite Hp.
    unfold NGE.handleNext.
    destruct (Z.ltb_spec (NGE.currentStepIndex c) (len (NGE.steps c) - 1));
      [|lia].
    change (fold_left (fun c o => NGE.apply_op o c) (repeat NGE.Tick j) ?x)
      with (NGE.run (ticks j) x).
    rewrite IH; cbn [NGE.isPlaying NGE.steps NGE.currentStepIndex
                     NGE.setCurrentStepIndex]; [|exact Hp|lia].
    unfold NGE.setCurrentStepIndex. cbn. f_equal. lia.
Qed.

Lemma ticks_while_stopped (m : nat) (c : NGE.Component) :
  NGE.isPlaying c = false -> NGE.run (ticks m) c = c.
Proof.
  intros Hp. induction m as [|m IH]; [reflexivity|].
  cbn [ticks repeat NGE.run fold_left NGE.apply_op]. rewrite Hp. exact IH.
Qed.

(** X4. Unattended playback ends by itself.  From a state where the
    playback is on at index [i] of a trace of N Steps, each of the first
    [N - 1 - i] timer ticks advances the index by one and leaves the
    playback on; the next tick stops the playback at the last index; every
    later tick changes nothing. *)
Theorem nge_playback_stops_at_the_end (c : NGE.Component) :
  NGE.isPlaying c = true ->
  0 <= NGE.currentStepIndex c <= len (NGE.steps c) - 1 ->
  let i := NGE.currentStepIndex c in
  let N := len (NGE.steps c) in
  let k := Z.to_nat (N - 1 - i) in
  (forall j, (j <= k)%nat ->
     NGE.run (ticks j) c = NGE.setCurrentStepIndex (i + Z.of_nat j) c) /\
  (forall m,
     NGE.run (ticks (S k + m)) c
     = NGE.setIsPlaying false (NGE.setCurrentStepIndex (N - 1) c)).
Proof.
  intros Hp Hi. cbv zeta. split.
  - intros j Hj. apply ticks_advance; [exact Hp | lia].
  - intros m. unfold ticks.
    replace (S (Z.to_nat (len (NGE.steps c) - 1 - NGE.currentStepIndex c)) + m)%nat
      with (Z.to_nat (len (NGE.steps c) - 1 - NGE.currentStepIndex c)
            + (1 + m))%nat by lia.
    rewrite repeat_app, nge_run_app.
    change (repeat NGE.Tick ?n) with (ticks n).
    rewrite (ticks_advance
               (Z.to_nat (len (NGE.steps c) - 1 - NGE.currentStepIndex c))
               c Hp) by lia.
    replace (NGE.currentStepIndex c
             + Z.of_nat (Z.to_nat (len (NGE.steps c) - 1 - NGE.currentStepIndex c)))
      with (len (NGE.steps c) - 1) by lia.
    cbn [ticks repeat Nat.add NGE.run fold_left NGE.apply_op
         NGE.isPlaying NGE.setCurrentStepIndex].
    rewrite Hp. unfold NGE.handleNext.
    cbn [NGE.currentStepIndex NGE.steps].
    rewrite Z.ltb_irrefl.
    change (fold_left (fun c o => NGE.apply_op o c) (repeat NGE.Tick m) ?x)
      with (NGE.run (ticks m) x).
    apply ticks_while_stopped. reflexivity.
Qed.

Lemma nge_playback_stops_at_the_end_witness :
  let c := NGE.togglePlay (NGE.setCurrentStepIndex 20 NGE.mounted) in
  NGE.run (ticks 2) c = NGE.setCurrentStepIndex 22 c /\
  NGE.run (ticks 3) c
  = NGE.setIsPlaying false (NGE.setCurrentStepIndex 22 c) /\
  NGE.run (ticks 10) c
  = NGE.setIsPlaying false (NGE.setCurrentStepIndex 22 c).
Proof.
  cbv zeta.
  destruct (nge_playback_stops_at_the_end
              (NGE.togglePlay (NGE.setCurrentStepIndex 20 NGE.mounted)))
    as [H1 H2].
  - reflexivity.
  - vm_compute. split; discriminate.
  - split; [exact (H1 2%nat ltac:(vm_compute; lia))|].
    split; [exact (H2 0%nat) | exact (H2 7%nat)].
Defined.

(** X5. Stepping forward and then back, or back and then forward, returns
    the very same component, as long as the first step can move: below the
    last index for forward, above index 0 for back. *)
Theorem nge_next_prev_round_trip (c : NGE.Component) :
  0 <= NGE.currentStepIndex c <= len (NGE.steps c) - 1 ->
  (NGE.currentStepIndex c < len (NGE.steps c) - 1 ->
     NGE.handlePrev (NGE.handleNext c) = c) /\
  (0 < NGE.currentStepIndex c ->
     NGE.handleNext (NGE.handlePrev c) = c).
Proof.
  intros Hi. destruct c as [a o sp pl st i].
  cbn [NGE.currentStepIndex NGE.steps] in *. split; intros H.
  - unfold NGE.handleNext. cbn [NGE.currentStepIndex NGE.steps].
    destruct (Z.ltb_spec i (len st - 1)); [|lia].
    unfold NGE.handlePrev, NGE.setCurrentStepIndex.
    cbn [NGE.currentStepIndex NGE.steps NGE.arr NGE.isConfigOpen
         NGE.playbackSpeed NGE.isPlaying].
    destruct (Z.gtb_spec (i + 1) 0); [|lia].
    f_equal. lia.
  - unfold NGE.handlePrev. cbn [NGE.currentStepIndex NGE.steps].
    destruct (Z.gtb_spec i 0); [|lia].
    unfold NGE.handleNext, NGE.setCurrentStepIndex.
    cbn [NGE.currentStepIndex NGE.steps NGE.arr NGE.isConfigOpen
         NGE.playbackSpeed NGE.isPlaying].
    destruct (Z.ltb_spec (i - 1) (len st - 1)); [|lia].
    f_equal. lia.
Qed.

Lemma nge_next_prev_round_trip_witness :
  let c := NGE.setCurrentStepIndex 5 NGE.mounted in
  NGE.handlePrev (NGE.handleNext c) = c /\
  NGE.handleNext (NGE.handlePrev c) = c.
Proof.
  cbv zeta.
  destruct (nge_next_prev_round_trip (NGE.setCurrentStepIndex 5 NGE.mounted))
    as [H1 H2].
  - vm_compute. split; discriminate.
  - split; [apply H1 | apply H2]; vm_compute; reflexivity.
Defined.

(** ** The player of the Number of Ways note, continued *)

Lemma ways_run_settled (count : Z) (ops : list Ways.Op) :
  forall p, settled count p -> settled count (Ways.run count ops p).
Proof.
  induction ops as [|o ops IH]; intros p Hp; cbn; [exact Hp|].
  apply IH. unfold Ways.apply_op. apply effect_settled.
Qed.

(** X6. In every state the player of the Number of Ways note can reach
    from its first render, on a simulation of at least one Step, the index
    is inside the simulation and the playback is never on at the last
    index. *)
Theorem ways_player_invariant (count : Z) (ops : list Ways.Op) :
  1 <= count ->
  let p := Ways.run count ops Ways.initial in
  0 <= Ways.stepIndex p <= count - 1 /\
  (Ways.isPlaying p = true -> Ways.stepIndex p < count - 1).
Proof.
  intros Hc. cbv zeta. split.
  - apply ways_run_bounds. cbn. lia.
  - apply (ways_run_settled count ops Ways.initial).
    intros H. discriminate H.
Qed.

Lemma ways_player_invariant_witness :
  let p := Ways.run (len Ways.steps)
             [Ways.Toggle; Ways.Timeout; Ways.Forward; Ways.Back; Ways.Reset]
             Ways.initial in
  0 <= Ways.stepIndex p <= len Ways.steps - 1 /\
  (Ways.isPlaying p = true -> Ways.stepIndex p < len Ways.steps - 1).
Proof.
  cbv zeta.
  apply (ways_player_invariant (len Ways.steps)
           [Ways.Toggle; Ways.Timeout; Ways.Forward; Ways.Back; Ways.Reset]).
  vm_compute. discriminate.
Defined.

Lemma ways_timeouts_advance (count : Z) (j : nat) :
  forall i,
    0 <= i -> i + Z.of_nat j < count - 1 ->
    Ways.run count (repeat Ways.Timeout j) (Ways.mkPlayer i true)
    = Ways.mkPlayer (i + Z.of_nat j) true.
Proof.
  induction j as [|j IH]; intros i Hi Hj.
  - cbn. rewrite Z.add_0_r. reflexivity.
  - cbn [repeat Ways.run fold_left].
    change (fold_left (fun p o => Ways.apply_op count o p)
              (repeat Ways.Timeout j) ?x)
      with (Ways.run count (repeat Ways.Timeout j) x).
    assert (E : Ways.apply_op count Ways.Timeout (Ways.mkPlayer i true)
                = Ways.mkPlayer (i + 1) true).
    { unfold Ways.apply_op, Ways.handle, Ways.effect.
      cbn [Ways.isPlaying Ways.stepIndex andb].
      destruct (Z.ltb_spec i (count - 1)); [|lia].
      cbn [Ways.isPlaying Ways.stepIndex andb].
      destruct (Z.ltb_spec (i + 1) (count - 1)); [reflexivity | lia]. }
    rewrite E, IH by lia. f_equal. lia.
Qed.

Lemma ways_timeouts_while_stopped (count : Z) (m : nat) (i : Z) :
  Ways.run count (repeat Ways.Timeout m) (Ways.mkPlayer i false)
  = Ways.mkPlayer i false.
Proof.
  induction m as [|m IH]; [reflexivity|].
  cbn [repeat Ways.run fold_left]. exact IH.
Qed.

(** X7. Unattended playback of the Number of Ways note ends by itself, on
    arrival: from a playing state at index [i] below the last index of a
    simulation of [count] Steps, fewer than [count - 1 - i] timeouts leave
    the playback on and the index advanced by their number; the timeout
    that reaches the last index stops the playback; later timeouts never
    fire. *)
Theorem ways_playback_stops_on_arrival (count i : Z) :
  0 <= i < count - 1 ->
  let k := Z.to_nat (count - 1 - i) in
  (forall j, (j < k)%nat ->
     Ways.run count (repeat Ways.Timeout j) (Ways.mkPlayer i true)
     = Ways.mkPlayer (i + Z.of_nat j) true) /\
  (forall m,
     Ways.run count (repeat Ways.Timeout (k + m)) (Ways.mkPlayer i true)
     = Ways.mkPlayer (count - 1) false).
Proof.
  intros Hi. cbv zeta. split.
  - intros j Hj. apply ways_timeouts_advance; lia.
  - intros m.
    replace (Z.to_nat (count - 1 - i) + m)%nat
      with (Z.to_nat (count - 1 - i) - 1 + (1 + m))%nat by lia.
    rewrite repeat_app. unfold Ways.run. rewrite fold_left_app.
    fold (Ways.run count (repeat Ways.Timeout (Z.to_nat (count - 1 - i) - 1))
            (Ways.mkPlayer i true)).
    rewrite ways_timeouts_advance by lia.
    replace (i + Z.of_nat (Z.to_nat (count - 1 - i) - 1)) with (count - 2)
      by lia.
    cbn [repeat Nat.add fold_left].
    assert (E : Ways.apply_op count Ways.Timeout
                  (Ways.mkPlayer (count - 2) true)
                = Ways.mkPlayer (count - 1) false).
    { unfold Ways.apply_op, Ways.handle, Ways.effect.
      cbn [Ways.isPlaying Ways.stepIndex andb].
      destruct (Z.ltb_spec (count - 2) (count - 1)); [|lia].
      cbn [Ways.isPlaying Ways.stepIndex andb].
      destruct (Z.ltb_spec (count - 2 + 1) (count - 1)); [lia|].
      f_equal. lia. }
    rewrite E. apply ways_timeouts_while_stopped.
Qed.

Lemma ways_playback_stops_on_arrival_witness :
  Ways.run 49 (repeat Ways.Timeout 3) (Ways.mkPlayer 40 true)
    = Ways.mkPlayer 43 true /\
  Ways.run 49 (repeat Ways.Timeout 8) (Ways.mkPlayer 40 true)
    = Ways.mkPlayer 48 false /\
  Ways.run 49 (repeat Ways.Timeout 20) (Ways.mkPlayer 40 true)
    = Ways.mkPlayer 48 false.
Proof.
  destruct (ways_playback_stops_on_arrival 49 40 ltac:(lia)) as [H1 H2].
  split; [exact (H1 3%nat ltac:(vm_compute; lia))|].
  split; [exact (H2 0%nat) | exact (H2 12%nat)].
Defined.

(** ** What the input handlers store *)

Lemma split_comma_chars (cls : ascii -> bool) (s : string) :
  all_chars cls s = true ->
  Forall (fun t => all_chars cls t = true) (split_comma s).
Proof.
  induction s as [|ch r IH]; intros H; cbn [split_comma].
  - repeat constructor.
  - cbn [all_chars] in H. apply andb_true_iff in H. destruct H as [Hc Hr].
    specialize (IH Hr). destruct (Ascii.eqb ch comma).
    + constructor; [reflexivity | exact IH].
    + destruct (split_comma r) as [|t ts].
      * repeat constructor. cbn. rewrite Hc. reflexivity.
      * inversion IH; subst. constructor; [|assumption].
        cbn. rewrite Hc. assumption.
Qed.

Lemma trim_start_chars (cls : ascii -> bool) (s : string) :
  all_chars cls s = true -> all_chars cls (trim_start s) = true.
Proof.
  induction s as [|ch r IH]; intros H; cbn [trim_start]; [exact H|].
  destruct (is_space ch); [|exact H].
  cbn [all_chars] in H. apply andb_true_iff in H. apply IH, H.
Qed.

Lemma trim_end_chars (cls : ascii -> bool) (s : string) :
  all_chars cls s = true -> all_chars cls (trim_end s) = true.
Proof.
  induction s as [|ch r IH]; intros H; cbn [trim_end]; [reflexivity|].
  cbn [all_chars] in H. apply andb_true_iff in H. destruct H as [Hc Hr].
  specialize (IH Hr). destruct (trim_end r) as [|ch' r'].
  - destruct (is_space ch); cbn; [reflexivity|]. rewrite Hc. reflexivity.
  - cbn [all_chars] in *. rewrite Hc. exact IH.
Qed.

Lemma tokens_chars (cls : ascii -> bool) (val : string) :
  all_chars cls val = true ->
  Forall (fun t => all_chars cls t = true)
    (filter nonempty (map trim (split_comma val))).
Proof.
  intros H. apply Forall_forall. intros t Ht.
  apply filter_In in Ht. destruct Ht as [Ht _].
  apply in_map_iff in Ht. destruct Ht as [t0 [<- Ht0]].
  pose proof (split_comma_chars cls val H) as Hs.
  rewrite Forall_forall in Hs.
  apply trim_end_chars, trim_start_chars, Hs, Ht0.
Qed.

Lemma digits_value_nonneg (s : string) :
  forall acc v, 0 <= acc -> digits_value acc s = Some v -> 0 <= v.
Proof.
  induction s as [|ch r IH]; intros acc v Ha H; cbn [digits_value] in H.
  - injection H as <-. exact Ha.
  - destruct (is_digit ch); [|discriminate H].
    eapply IH; [|exact H]. lia.
Qed.

Lemma round_to_double_exact (a : Z) :
  a <= 9007199254740992 -> round_to_double a = Fin a.
Proof.
  intros H. unfold round_to_double.
  destruct (Z.leb_spec a 9007199254740992); [reflexivity | lia].
Qed.

Lemma round_to_double_nonneg (a : Z) :
  0 <= a ->
  round_to_double a = PInf \/ exists z, round_to_double a = Fin z /\ 0 <= z.
Proof.
  intros H. unfold round_to_double.
  destruct (a <=? 9007199254740992); [right; exists a; auto|].
  cbv zeta.
  match goal with
  | |- context [Z.shiftl ?q ?e] =>
      destruct (1024 <=? Z.log2 (Z.shiftl q e)); [left; reflexivity|];
      right; exists (Z.shiftl q e); split; [reflexivity|];
      apply Z.shiftl_nonneg
  end.
  assert (Hq : 0 <= Z.shiftr a (Z.log2 a - 52)) by (apply Z.shiftr_nonneg, H).
  destruct (_ || _); lia.
Qed.

(** A token without a minus sign is NaN, [Infinity] or a non-negative
    integer. *)
Lemma Number_unsigned (t : string) :
  all_chars (fun ch => negb (Ascii.eqb ch minus)) t = true ->
  Number t = NaN \/ Number t = PInf \/ exists z, Number t = Fin z /\ 0 <= z.
Proof.
  intros H. destruct t as [|ch r]; cbn [Number].
  - right. right. exists 0. split; [reflexivity | lia].
  - cbn [all_chars] in H. apply andb_true_iff in H. destruct H as [Hc _].
    apply negb_true_iff in Hc. rewrite Hc.
    destruct (digits_value 0 (String ch r)) as [v|] eqn:E; [|left; reflexivity].
    right. apply round_to_double_nonneg.
    eapply digits_value_nonneg; [|exact E]. lia.
Qed.

Lemma all_chars_impl (cls1 cls2 : ascii -> bool) (s : string) :
  (forall ch, cls1 ch = true -> cls2 ch = true) ->
  all_chars cls1 s = true -> all_chars cls2 s = true.
Proof.
  intros Hi. induction s as [|ch r IH]; intros H; [reflexivity|].
  cbn [all_chars] in *. apply andb_true_iff in H. destruct H as [Hc Hr].
  rewrite (Hi ch Hc), (IH Hr). reflexivity.
Qed.

Lemma unsigned_class (ch : ascii) :
  is_digit ch || Ascii.eqb ch comma || Ascii.eqb ch space = true ->
  negb (Ascii.eqb ch minus) = true.
Proof.
  intros H. apply negb_true_iff.
  destruct (Ascii.eqb_spec ch minus) as [->|]; [|reflexivity].
  vm_compute in H. discriminate H.
Qed.

(** The numbers of a text written with digits, commas and spaces that are
    at most [bound] are integers between 0 and [bound]. *)
Lemma unsigned_parts_in_range (val : string) (bound : Z) :
  all_chars (fun ch => is_digit ch || Ascii.eqb ch comma || Ascii.eqb ch space)
    val = true ->
  forallb (fun n => le n (Fin bound)) (parse_parts val) = true ->
  Forall (fun n => exists z, n = Fin z /\ 0 <= z <= bound) (parse_parts val).
Proof.
  intros Hp Hb. rewrite forallb_forall in Hb. apply Forall_forall.
  intros n Hn. specialize (Hb n Hn).
  unfold parse_parts in Hn. apply in_map_iff in Hn.
  destruct Hn as [t [<- Ht]].
  pose proof (tokens_chars _ val Hp) as Hc. rewrite Forall_forall in Hc.
  specialize (Hc t Ht).
  apply (all_chars_impl _ _ t unsigned_class) in Hc.
  destruct (Number_unsigned t Hc) as [E|[E|[z [E Hz]]]]; rewrite E in Hb |- *.
  - discriminate Hb.
  - discriminate Hb.
  - exists z. cbn in Hb. apply Z.leb_le in Hb. split; [reflexivity | lia].
Qed.

Lemma in_range_is_int (bound : Z) (ns : list num) :
  Forall (fun n => exists z, n = Fin z /\ 0 <= z <= bound) ns ->
  Forall is_int ns.
Proof.
  apply Forall_impl. intros n [z [-> _]]. exists z. reflexivity.
Qed.

(** X8. The weight field of the Ship Packages note never hangs the note
    and never stores anything but small weights: for every text the
    handler returns, either with the component unchanged or with at most
    15 weights that are integers between 0 and 50, the trace generated
    from them (the search loop ends), index 0 and the playback stopped. *)
Theorem ship_handler_stores_small_weights (val : string) (c : Ship.Component) :
  exists c',
    Ship.handleWeightChange val c = Some c' /\
    (c' = c \/
     (Ship.weights c' = parse_parts val /\
      len (Ship.weights c') <= 15 /\
      Forall (fun n => exists z, n = Fin z /\ 0 <= z <= 50) (Ship.weights c') /\
      Ship.trace (Ship.weights c') (Ship.days c') = Some (Ship.steps c') /\
      Ship.days c' = Ship.days c /\
      Ship.currentStepIndex c' = 0 /\
      Ship.isPlaying c' = false)).
Proof.
  unfold Ship.handleWeightChange.
  destruct (all_chars Ship.allowed val) eqn:Hp; [|exists c; auto].
  destruct ((len (parse_parts val) <=? Ship.MAX_ARR_SIZE)
            && forallb (fun n => le n (Fin Ship.MAX_VAL)) (parse_parts val))
    eqn:Hb; [|exists c; auto].
  apply andb_true_iff in Hb. destruct Hb as [Hl Hv].
  apply Z.leb_le in Hl.
  pose proof (unsigned_parts_in_range val Ship.MAX_VAL Hp Hv) as Hr.
  destruct (ship_midpoints_within (parse_parts val) (Ship.days c)
              (in_range_is_int _ _ Hr)) as [steps [l' [h' [a' [Ht _]]]]].
  unfold Ship.setWeights, Ship.generateSteps.
  cbn [Ship.weights Ship.days Ship.isConfigOpen Ship.playbackSpeed].
  rewrite Ht. eexists. split; [reflexivity|]. right.
  cbn [Ship.weights Ship.days Ship.steps Ship.currentStepIndex Ship.isPlaying].
  repeat split; try assumption.
Qed.

Lemma split_trace_empty (k : Z) :
  exists s t, SplitArray.trace [] k = Some (s :: t).
Proof.
  unfold SplitArray.trace, SplitArray.trace_fuel.
  cbn -[Z.leb]. unfold SplitArray.probe. cbn -[Z.leb].
  destruct (1 <=? k); cbn; do 2 eexists; reflexivity.
Qed.

(** Once the array is empty the note does not survive the next render
    that has a Step to show: at once, or after the effect has stored the
    Steps. *)
Lemma split_update_empty (c : SplitArray.Component) :
  SplitArray.arr c = [] -> SplitArray.update c = SplitArray.Unmounted.
Proof.
  intros Ha. unfold SplitArray.update, SplitArray.render_throws.
  rewrite Ha. destruct (SplitArray.currentStep c); [reflexivity|].
  unfold SplitArray.generateSteps. rewrite Ha.
  destruct (split_trace_empty (SplitArray.k c)) as [s [t E]]. rewrite E.
  reflexivity.
Qed.

Lemma split_update_shows (c : SplitArray.Component) (first : num)
    (rest : list num) :
  SplitArray.arr c = first :: rest ->
  Forall is_int (first :: rest) ->
  exists t,
    SplitArray.trace (SplitArray.arr c) (SplitArray.k c) = Some t /\
    SplitArray.update c
    = SplitArray.Shows
        (SplitArray.mkComponent (SplitArray.arr c) (SplitArray.k c)
           (SplitArray.isConfigOpen c) (SplitArray.playbackSpeed c) false t 0).
Proof.
  intros Ha Hi.
  destruct (split_midpoints_within first rest (SplitArray.k c) Hi)
    as [steps [l' [h' [r' [Ht _]]]]].
  rewrite <- Ha in Ht. eexists. split; [exact Ht|].
  unfold SplitArray.update, SplitArray.render_throws.
  rewrite Ha. destruct (SplitArray.currentStep c);
    unfold SplitArray.generateSteps; rewrite <- Ha, Ht;
    unfold SplitArray.render, SplitArray.render_throws;
    cbn [SplitArray.arr]; rewrite Ha;
    destruct (SplitArray.currentStep _); reflexivity.
Qed.

(** X9. What the array field of the Split Array note does with a text: it
    leaves the component as it was; or, when the text passes the checks
    and has no token, the render throws on the empty array and the note
    is unmounted; or it stores at most 12 integers between 0 and 100, the
    trace generated from them, index 0 and the playback stopped.  It never
    hangs. *)
Theorem split_handler_stores_small_values
    (val : string) (c : SplitArray.Component) :
  SplitArray.handleArrChange val c = SplitArray.Shows c \/
  (SplitArray.handleArrChange val c = SplitArray.Unmounted /\
   all_chars SplitArray.allowed val = true /\
   parse_parts val = []) \/
  exists c',
    SplitArray.handleArrChange val c = SplitArray.Shows c' /\
    SplitArray.arr c' = parse_parts val /\
    SplitArray.arr c' <> [] /\
    len (SplitArray.arr c') <= 12 /\
    Forall (fun n => exists z, n = Fin z /\ 0 <= z <= 100)
      (SplitArray.arr c') /\
    SplitArray.trace (SplitArray.arr c') (SplitArray.k c')
      = Some (SplitArray.steps c') /\
    SplitArray.k c' = SplitArray.k c /\
    SplitArray.currentStepIndex c' = 0 /\
    SplitArray.isPlaying c' = false.
Proof.
  unfold SplitArray.handleArrChange.
  destruct (all_chars SplitArray.allowed val) eqn:Hp; [|left; reflexivity].
  destruct ((len (parse_parts val) <=? SplitArray.MAX_ARR_SIZE)
            && forallb (fun n => le n (Fin SplitArray.MAX_VAL))
                 (parse_parts val))
    eqn:Hb; [|left; reflexivity].
  right.
  apply andb_true_iff in Hb. destruct Hb as [Hl Hv].
  apply Z.leb_le in Hl.
  pose proof (unsigned_parts_in_range val SplitArray.MAX_VAL Hp Hv) as Hr.
  unfold SplitArray.setArr.
  destruct (parse_parts val) as [|first rest] eqn:E.
  - left. split; [|split; reflexivity].
    apply split_update_empty. reflexivity.
  - right.
    destruct (split_update_shows
                (SplitArray.mkComponent (first :: rest) (SplitArray.k c)
                   (SplitArray.isConfigOpen c) (SplitArray.playbackSpeed c)
                   (SplitArray.isPlaying c) (SplitArray.steps c)
                   (SplitArray.currentStepIndex c)) first rest eq_refl
                (in_range_is_int _ _ Hr)) as [t [Ht Eu]].
    rewrite Eu. eexists. split; [reflexivity|].
    cbn [SplitArray.arr SplitArray.k SplitArray.steps
         SplitArray.currentStepIndex SplitArray.isPlaying] in *.
    repeat split; try assumption. discriminate.
Qed.

(** ** The result of the Sum of Subarray Minimums generator *)

Lemma min_int (a b : Z) : min (Fin a) (Fin b) = Fin (Z.min a b).
Proof.
  cbn. destruct (Z.leb_spec a b); f_equal; lia.
Qed.

Lemma prefix_mins_from (m : Z) (rest : list Z) :
  map (fun p => fold_left Z.min p m) (prefixes rest) = running_mins m rest.
Proof.
  revert m. induction rest as [|y rest IH]; intros m; [reflexivity|].
  cbn [prefixes map running_mins fold_left]. f_equal.
  rewrite map_map. cbn [fold_left]. apply IH.
Qed.

Lemma prefix_mins (x : Z) (rest : list Z) :
  map list_min (prefixes (x :: rest)) = x :: running_mins x rest.
Proof.
  cbn [prefixes map list_min fold_left]. f_equal.
  rewrite map_map. cbn [list_min]. apply prefix_mins_from.
Qed.

Lemma mins_inner_spec (arr : list num) (i : Z) (zs : list Z) :
  forall idx m t,
    exists steps,
      SubarrayMins.inner arr i idx (map Fin zs) (Fin m) (Fin t)
      = (steps, Fin (fold_left add_mod (running_mins m zs) t)) /\
      map SubarrayMins.currentMin steps = map Fin (running_mins m zs).
Proof.
  induction zs as [|y zs IH]; intros idx m t; cbn [map SubarrayMins.inner].
  - eexists. split; reflexivity.
  - rewrite min_int.
    destruct (IH (idx + 1) (Z.min m y) (add_mod t (Z.min m y)))
      as [more [E Hm]].
    change (rem (add (Fin t) (Fin (Z.min m y))) SubarrayMins.MOD)
      with (Fin (add_mod t (Z.min m y))).
    rewrite E. eexists. split; [reflexivity|].
    cbn [map SubarrayMins.currentMin running_mins]. rewrite Hm. reflexivity.
Qed.

Lemma mins_outer_spec (arr : list num) (zs : list Z) :
  forall i t,
    exists steps,
      SubarrayMins.outer arr i (map Fin zs) (Fin t)
      = (steps, Fin (fold_left add_mod (map list_min (subarrays zs)) t)) /\
      map SubarrayMins.currentMin steps
      = map Fin (map list_min (subarrays zs)).
Proof.
  induction zs as [|x zs IH]; intros i t.
  - eexists. split; reflexivity.
  - cbn [map SubarrayMins.outer SubarrayMins.inner].
    assert (Ex : min PInf (Fin x) = Fin x) by reflexivity. rewrite Ex.
    change (rem (add (Fin t) (Fin x)) SubarrayMins.MOD)
      with (Fin (add_mod t x)).
    destruct (mins_inner_spec arr i zs (i + 1) x (add_mod t x))
      as [more [E Hm]].
    rewrite E.
    destruct (IH (i + 1)
                (fold_left add_mod (running_mins x zs) (add_mod t x)))
      as [steps2 [E2 Hm2]].
    rewrite E2. eexists. split.
    + f_equal. cbn [subarrays]. rewrite map_app, fold_left_app, prefix_mins.
      reflexivity.
    + cbn [subarrays]. rewrite !map_app, prefix_mins.
      cbn [map SubarrayMins.currentMin app]. rewrite Hm, Hm2. reflexivity.
Qed.

Lemma add_mod_fold (ms : list Z) :
  Forall (fun m => 0 <= m) ms ->
  forall t, 0 <= t ->
    fold_left add_mod ms t
    = match ms with
      | [] => t
      | _ => (t + fold_right Z.add 0 ms) mod SubarrayMins.MOD
      end /\
    0 <= fold_right Z.add 0 ms.
Proof.
  induction 1 as [|m ms Hm _ IH]; intros t Ht; [split; [reflexivity | cbn; lia]|].
  cbn [fold_left fold_right].
  assert (Hr : add_mod t m = (t + m) mod SubarrayMins.MOD).
  { unfold add_mod. apply Z.rem_mod_nonneg; unfold SubarrayMins.MOD; lia. }
  assert (H0 : 0 <= add_mod t m).
  { rewrite Hr. apply Z.mod_pos_bound. unfold SubarrayMins.MOD. lia. }
  destruct (IH (add_mod t m) H0) as [E Hs]. split; [|lia].
  rewrite E. destruct ms as [|m' ms].
  - cbn. rewrite Z.add_0_r. exact Hr.
  - rewrite Hr, Zplus_mod_idemp_l. f_equal. lia.
Qed.

Lemma list_min_nonneg (l : list Z) :
  Forall (fun z => 0 <= z) l -> 0 <= list_min l.
Proof.
  destruct l as [|x rest]; cbn [list_min]; [lia|].
  intros H. inversion H as [|? ? Hx Hr]; subst. clear H.
  revert x Hx. induction Hr as [|y rest Hy _ IH]; intros x Hx; cbn; [exact Hx|].
  apply IH. lia.
Qed.

Lemma prefixes_nonneg (xs : list Z) :
  Forall (fun z => 0 <= z) xs ->
  Forall (Forall (fun z => 0 <= z)) (prefixes xs).
Proof.
  induction 1 as [|x xs Hx Hxs IH]; cbn [prefixes]; [constructor|].
  constructor; [repeat constructor; exact Hx|].
  apply Forall_forall. intros p Hp. apply in_map_iff in Hp.
  destruct Hp as [q [<- Hq]]. constructor; [exact Hx|].
  rewrite Forall_forall in IH. apply IH, Hq.
Qed.

Lemma subarrays_nonneg (xs : list Z) :
  Forall (fun z => 0 <= z) xs ->
  Forall (Forall (fun z => 0 <= z)) (subarrays xs).
Proof.
  induction 1 as [|x xs Hx Hxs IH]; [constructor|].
  change (subarrays (x :: xs)) with (prefixes (x :: xs) ++ subarrays xs).
  apply Forall_app. split; [|exact IH].
  apply prefixes_nonneg. constructor; assumption.
Qed.

Lemma prefixes_length (xs : list Z) :
  List.length (prefixes xs) = List.length xs.
Proof.
  induction xs as [|x xs IH]; [reflexivity|].
  cbn [prefixes List.length]. rewrite length_map, IH. reflexivity.
Qed.

Lemma subarrays_length (xs : list Z) :
  2 * len (subarrays xs) = len xs * (len xs + 1).
Proof.
  unfold len. induction xs as [|x xs IH]; [reflexivity|].
  change (subarrays (x :: xs)) with (prefixes (x :: xs) ++ subarrays xs).
  rewrite length_app, prefixes_length. cbn [List.length]. lia.
Qed.

(** X10. On an array of non-negative integers, small enough for the
    running total plus an element to be a safe integer, the generator of
    the Sum of Subarray Minimums note records one Step for every
    contiguous subarray, in order of start and end, whose [currentMin] is
    the minimum of that subarray; there are n(n+1)/2 of them; and the
    closing Step carries the sum of these minimums modulo 1000000007. *)
Theorem mins_total_is_sum_of_minimums (zs : list Z) :
  Forall (fun z => 0 <= z /\ z + SubarrayMins.MOD <= MAX_SAFE_INTEGER) zs ->
  exists front,
    SubarrayMins.trace (map Fin zs)
    = front ++ [SubarrayMins.done_step
                  (Fin (sum_of_mins zs mod SubarrayMins.MOD))] /\
    map SubarrayMins.currentMin front
    = map Fin (map list_min (subarrays zs)) /\
    2 * len front = len zs * (len zs + 1).
Proof.
  intros Hb.
  assert (Hz : Forall (fun z => 0 <= z) zs).
  { eapply Forall_impl; [|exact Hb]. cbv beta. intros z [Hz0 _]. exact Hz0. }
  unfold SubarrayMins.trace.
  destruct (mins_outer_spec (map Fin zs) zs 0 0) as [steps [E Hm]].
  rewrite E. exists steps. split; [|split].
  - do 3 f_equal.
    assert (Hms : Forall (fun m => 0 <= m) (map list_min (subarrays zs))).
    { apply Forall_forall. intros m Hm'. apply in_map_iff in Hm'.
      destruct Hm' as [l [<- Hl]]. apply list_min_nonneg.
      pose proof (subarrays_nonneg zs Hz) as Hs.
      rewrite Forall_forall in Hs. apply Hs, Hl. }
    destruct (add_mod_fold _ Hms 0 ltac:(lia)) as [Ef _]. rewrite Ef.
    unfold sum_of_mins.
    destruct (map list_min (subarrays zs)); [reflexivity|].
    rewrite Z.add_0_l. reflexivity.
  - exact Hm.
  - rewrite <- subarrays_length. f_equal. unfold len. f_equal.
    apply (f_equal (@List.length num)) in Hm.
    rewrite !length_map in Hm. exact Hm.
Qed.

Lemma mins_total_is_sum_of_minimums_witness :
  exists front,
    SubarrayMins.trace (map Fin [3; 1; 2; 4])
    = front ++ [SubarrayMins.done_step (Fin 17)] /\
    map SubarrayMins.currentMin front
    = map Fin [3; 1; 1; 1; 1; 1; 1; 2; 2; 4] /\
    2 * len front = 20.
Proof.
  apply (mins_total_is_sum_of_minimums [3; 1; 2; 4]).
  repeat constructor; vm_compute; discriminate.
Defined.

(** ** The result of the Maximum Product generator *)

Lemma list_prod_snoc (l : list Z) (x : Z) :
  list_prod (l ++ [x]) = list_prod l * x.
Proof.
  unfold list_prod.
  induction l as [|a l IH]; cbn [app fold_right]; [lia|].
  rewrite IH. lia.
Qed.

Lemma suffix_snoc (sub l : list Z) (x : Z) :
  is_suffix sub (l ++ [x]) <->
  sub = [x] \/ exists s, is_suffix s l /\ sub = s ++ [x].
Proof.
  split.
  - intros [Hne [pre E]].
    destruct (exists_last Hne) as [s [y ->]].
    rewrite app_assoc in E. apply app_inj_tail in E. destruct E as [El <-].
    destruct s as [|a s]; [left; reflexivity|].
    right. exists (a :: s). split; [|reflexivity].
    split; [discriminate | exists pre; exact El].
  - intros [->|[s [[Hne [pre ->]] ->]]].
    + split; [discriminate | exists l; reflexivity].
    + split; [destruct s; discriminate|].
      exists pre. rewrite app_assoc. reflexivity.
Qed.

Lemma subarray_snoc (sub l : list Z) (x : Z) :
  is_subarray sub (l ++ [x]) <->
  is_subarray sub l \/ is_suffix sub (l ++ [x]).
Proof.
  split.
  - intros [Hne [pre [post E]]].
    destruct post as [|p post'] using rev_ind.
    + right. split; [exact Hne|]. exists pre.
      rewrite app_nil_r in E. exact E.
    + left. clear IHpost'. rewrite !app_assoc in E.
      apply app_inj_tail in E. destruct E as [E _].
      split; [exact Hne|]. exists pre, post'.
      rewrite E, app_assoc. reflexivity.
  - intros [[Hne [pre [post ->]]]|[Hne [pre E]]].
    + split; [exact Hne|]. exists pre, (post ++ [x]).
      rewrite <- !app_assoc. reflexivity.
    + split; [exact Hne|]. exists pre, []. rewrite app_nil_r. exact E.
Qed.

Lemma max_int (a b : Z) : max (Fin a) (Fin b) = Fin (Z.max a b).
Proof.
  cbn. destruct (Z.leb_spec a b); f_equal; lia.
Qed.

(** One iteration of the loop keeps the three accumulators what they are
    meant to be. *)
Lemma max_product_step (l : list Z) (x M m R : Z) :
  greatest_ending l M -> least_ending l m -> greatest_product l R ->
  let M1 := if x <? 0 then m else M in
  let m1 := if x <? 0 then M else m in
  greatest_ending (l ++ [x]) (Z.max x (x * M1)) /\
  least_ending (l ++ [x]) (Z.min x (x * m1)) /\
  greatest_product (l ++ [x]) (Z.max R (Z.max x (x * M1))).
Proof.
  intros [[sM [HsM EM]] HM] [[sm [Hsm Em]] Hm] [[sR [HsR ER]] HR].
  cbv zeta.
  assert (HM1 : greatest_ending (l ++ [x])
                  (Z.max x (x * (if x <? 0 then m else M)))).
  { split.
    - destruct (Z.max_spec x (x * (if x <? 0 then m else M))) as [[_ E]|[_ E]];
        rewrite E.
      + destruct (x <? 0).
        * exists (sm ++ [x]). split; [apply suffix_snoc; right; eauto|].
          rewrite list_prod_snoc, ?EM, ?Em. lia.
        * exists (sM ++ [x]). split; [apply suffix_snoc; right; eauto|].
          rewrite list_prod_snoc, ?EM, ?Em. lia.
      + exists [x]. split; [apply suffix_snoc; left; reflexivity|].
        cbn. lia.
    - intros s Hs. apply suffix_snoc in Hs.
      destruct Hs as [->|[s0 [Hs0 ->]]]; [cbn; lia|].
      rewrite list_prod_snoc.
      pose proof (HM s0 Hs0). pose proof (Hm s0 Hs0).
      destruct (Z.ltb_spec x 0); nia. }
  split; [exact HM1|]. split.
  - split.
    + destruct (Z.min_spec x (x * (if x <? 0 then M else m))) as [[_ E]|[_ E]];
        rewrite E.
      * exists [x]. split; [apply suffix_snoc; left; reflexivity|].
        cbn. lia.
      * destruct (x <? 0).
        -- exists (sM ++ [x]). split; [apply suffix_snoc; right; eauto|].
           rewrite list_prod_snoc, ?EM, ?Em. lia.
        -- exists (sm ++ [x]). split; [apply suffix_snoc; right; eauto|].
           rewrite list_prod_snoc, ?EM, ?Em. lia.
    + intros s Hs. apply suffix_snoc in Hs.
      destruct Hs as [->|[s0 [Hs0 ->]]]; [cbn; lia|].
      rewrite list_prod_snoc.
      pose proof (HM s0 Hs0). pose proof (Hm s0 Hs0).
      destruct (Z.ltb_spec x 0); nia.
  - destruct HM1 as [[s1 [Hs1 E1]] HM1]. split.
    + destruct (Z.max_spec R (Z.max x (x * (if x <? 0 then m else M))))
        as [[_ E]|[_ E]]; rewrite E.
      * exists s1. split; [apply subarray_snoc; right; exact Hs1 | exact E1].
      * exists sR. split; [apply subarray_snoc; left; exact HsR | exact ER].
    + intros s Hs. apply subarray_snoc in Hs. destruct Hs as [Hs|Hs].
      * pose proof (HR s Hs). lia.
      * pose proof (HM1 s Hs). lia.
Qed.

Lemma max_product_loop (nums : list num) (rest : list Z) :
  forall l i M m R,
    greatest_ending l M -> least_ending l m -> greatest_product l R ->
    exists steps M' m' R',
      MaxProduct.main_loop nums i (map Fin rest) (Fin M) (Fin m) (Fin R)
      = (steps, (Fin M', Fin m', Fin R')) /\
      greatest_ending (l ++ rest) M' /\ least_ending (l ++ rest) m' /\
      greatest_product (l ++ rest) R'.
Proof.
  induction rest as [|x rest IH]; intros l i M m R HM Hm HR.
  - exists [], M, m, R. rewrite app_nil_r. auto.
  - destruct (max_product_step l x M m R HM Hm HR) as [HM1 [Hm1 HR1]].
    cbn [map MaxProduct.main_loop]. cbn [lt].
    destruct (x <? 0); cbn [mul]; rewrite !max_int, !min_int;
      match goal with
      | |- context [MaxProduct.main_loop nums ?j _ (Fin ?a) (Fin ?b) (Fin ?c)] =>
          destruct (IH (l ++ [x]) j a b c HM1 Hm1 HR1)
            as [more [M' [m' [R' [E [H1 [H2 H3]]]]]]]; rewrite E
      end;
      rewrite <- app_assoc in H1, H2, H3;
      do 4 eexists; (split; [reflexivity|]); auto.
Qed.

(** X11. On every array of integers that is not empty, and whose
    products are safe integers, the trace of the Maximum Product note ends
    with the complete Step, and the [result] it records is the greatest
    product of a contiguous subarray: some subarray has this product and
    none has a greater one. *)
Theorem max_product_result_is_greatest (first : Z) (rest : list Z) :
  magnitude (first :: rest) <= MAX_SAFE_INTEGER ->
  exists front s R,
    MaxProduct.trace (map Fin (first :: rest)) = Some (front ++ [s]) /\
    MaxProduct.phase s = MaxProduct.complete /\
    MaxProduct.result s = Fin R /\
    (exists sub, is_subarray sub (first :: rest) /\ list_prod sub = R) /\
    (forall sub, is_subarray sub (first :: rest) -> list_prod sub <= R).
Proof.
  intros _.
  assert (Hs : forall s, is_suffix s [first] -> s = [first]).
  { intros s [Hne [pre E]]. destruct pre as [|a pre].
    - cbn in E. congruence.
    - injection E as _ E. destruct pre; destruct s; try discriminate E.
      contradiction. }
  assert (Hone : is_suffix [first] [first])
    by (split; [discriminate | exists []; reflexivity]).
  assert (HM : greatest_ending [first] first).
  { split; [exists [first]; split; [exact Hone | cbn; lia]|].
    intros s H. rewrite (Hs s H). cbn. lia. }
  assert (Hm : least_ending [first] first).
  { split; [exists [first]; split; [exact Hone | cbn; lia]|].
    intros s H. rewrite (Hs s H). cbn. lia. }
  assert (HR : greatest_product [first] first).
  { split.
    - exists [first]. split; [|cbn; lia].
      split; [discriminate | exists [], []; reflexivity].
    - intros s [Hne [pre [post E]]].
      assert (s = [first]) as ->; [|cbn; lia].
      apply Hs. split; [exact Hne|].
      destruct pre as [|a pre].
      + destruct s as [|b s]; [contradiction|].
        cbn in E. injection E as -> E.
        destruct s; destruct post; try discriminate E.
        exists []. reflexivity.
      + injection E as _ E.
        destruct pre; destruct s; try discriminate E. contradiction. }
  destruct (max_product_loop (map Fin (first :: rest)) rest [first] 1
              first first first HM Hm HR)
    as [steps [M' [m' [R' [E [_ [_ [H1 H2]]]]]]]].
  unfold MaxProduct.trace. cbn [map]. cbn [map] in E. rewrite E.
  eexists (_ :: steps), _, R'. split.
  - cbn [app]. reflexivity.
  - cbn. auto.
Qed.

Lemma max_product_result_is_greatest_witness :
  exists front s R,
    MaxProduct.trace (map Fin [2; 3; -2; 4]) = Some (front ++ [s]) /\
    MaxProduct.phase s = MaxProduct.complete /\
    MaxProduct.result s = Fin R /\
    (exists sub, is_subarray sub [2; 3; -2; 4] /\ list_prod sub = R) /\
    (forall sub, is_subarray sub [2; 3; -2; 4] -> list_prod sub <= R).
Proof.
  apply (max_product_result_is_greatest 2 [3; -2; 4]).
  vm_compute. discriminate.
Defined.

(** ** What the input field shows is read back as the stored array *)

Lemma digits_value_uint (d : Decimal.uint) (acc : Z) :
  digits_value acc (NilEmpty.string_of_uint d) = Some (uint_value d acc).
Proof.
  revert acc. induction d; intros acc; cbn [NilEmpty.string_of_uint uint_value];
    try reflexivity; apply IHd.
Qed.

Lemma uint_value_pos (d : Decimal.uint) (acc : positive) :
  uint_value d (Z.pos acc) = Z.pos (Pos.of_uint_acc d acc).
Proof.
  revert acc. induction d; intros acc; cbn [uint_value Pos.of_uint_acc];
    try reflexivity; rewrite <- IHd; f_equal; lia.
Qed.

Lemma uint_value_zero (d : Decimal.uint) :
  uint_value d 0 = Z.of_N (Pos.of_uint d).
Proof.
  induction d; cbn [uint_value Pos.of_uint]; try reflexivity;
    try exact IHd; apply (uint_value_pos d).
Qed.

Lemma uint_digits (d : Decimal.uint) :
  all_chars is_digit (NilEmpty.string_of_uint d) = true.
Proof.
  induction d; cbn [NilEmpty.string_of_uint all_chars];
    try reflexivity; exact IHd.
Qed.

Lemma uint_head (d : Decimal.uint) :
  d <> Decimal.Nil ->
  exists ch r, NilEmpty.string_of_uint d = String ch r /\
               is_digit ch = true.
Proof.
  intros H. destruct d; [contradiction| ..];
    cbn [NilEmpty.string_of_uint]; do 2 eexists; split; reflexivity.
Qed.

Lemma uint_nonnil_string (d : Decimal.uint) :
  d <> Decimal.Nil ->
  NilZero.string_of_uint d = NilEmpty.string_of_uint d.
Proof. intros H. destruct d; [contradiction| ..]; reflexivity. Qed.

Lemma digit_is_not_minus (ch : ascii) :
  is_digit ch = true -> Ascii.eqb ch minus = false.
Proof.
  intros H. destruct (Ascii.eqb_spec ch minus) as [->|]; [|reflexivity].
  discriminate H.
Qed.

Lemma digits_numeral (s : string) :
  all_chars is_digit s = true -> all_chars numeral_char s = true.
Proof.
  induction s as [|ch r IH]; cbn [all_chars]; [reflexivity|].
  rewrite !andb_true_iff. intros [H1 H2]. split; [|exact (IH H2)].
  unfold numeral_char. rewrite H1. reflexivity.
Qed.

Lemma pos_value (p : positive) :
  digits_value 0 (NilEmpty.string_of_uint (Pos.to_uint p)) = Some (Z.pos p).
Proof.
  rewrite digits_value_uint, uint_value_zero, Unsigned.of_to. reflexivity.
Qed.

Lemma Number_show (z : Z) :
  safe_integer z -> Number (show (Fin z)) = Fin z.
Proof.
  unfold safe_integer, MAX_SAFE_INTEGER. intros Hs.
  destruct z as [|p|p]; cbn [show Z.to_int NilZero.string_of_int].
  - reflexivity.
  - rewrite (uint_nonnil_string _ (Unsigned.to_uint_nonnil p)).
    pose proof (pos_value p) as E.
    destruct (uint_head _ (Unsigned.to_uint_nonnil p)) as [ch [r [Es Hd]]].
    rewrite Es in E |- *. unfold Number.
    rewrite (digit_is_not_minus ch Hd), E.
    apply round_to_double_exact. lia.
  - rewrite (uint_nonnil_string _ (Unsigned.to_uint_nonnil p)).
    pose proof (pos_value p) as E.
    destruct (uint_head _ (Unsigned.to_uint_nonnil p)) as [ch [r [Es Hd]]].
    rewrite Es in E |- *. unfold Number.
    change (Ascii.eqb "-" minus) with true. cbv iota.
    rewrite E, round_to_double_exact by lia. reflexivity.
Qed.

Lemma show_chars (z : Z) : all_chars numeral_char (show (Fin z)) = true.
Proof.
  destruct z as [|p|p]; cbn [show Z.to_int NilZero.string_of_int].
  - reflexivity.
  - rewrite (uint_nonnil_string _ (Unsigned.to_uint_nonnil p)).
    apply digits_numeral, uint_digits.
  - rewrite (uint_nonnil_string _ (Unsigned.to_uint_nonnil p)).
    cbn [all_chars]. rewrite digits_numeral by apply uint_digits.
    reflexivity.
Qed.

Lemma show_nonempty (z : Z) : nonempty (show (Fin z)) = true.
Proof.
  destruct z as [|p|p]; cbn [show Z.to_int NilZero.string_of_int];
    try reflexivity.
  rewrite (uint_nonnil_string _ (Unsigned.to_uint_nonnil p)).
  destruct (uint_head _ (Unsigned.to_uint_nonnil p)) as [ch [r [Es _]]].
  rewrite Es. reflexivity.
Qed.

Lemma numeral_field_char (c : ascii) :
  numeral_char c = true -> field_char c = true.
Proof.
  unfold numeral_char, field_char. intros H.
  destruct (Ascii.eqb_spec c comma) as [->|]; [discriminate H | reflexivity].
Qed.

Lemma numeral_not_space (c : ascii) :
  numeral_char c = true -> is_space c = false.
Proof.
  unfold numeral_char. intros H. apply orb_true_iff in H as [H|H].
  - unfold is_digit in H. unfold is_space.
    apply andb_true_iff in H as [H1 H2].
    apply Nat.leb_le in H1. apply Nat.leb_le in H2.
    apply orb_false_iff. split.
    + apply Nat.eqb_neq. lia.
    + apply andb_false_iff. right. apply Nat.leb_gt. lia.
  - apply Ascii.eqb_eq in H. subst c. reflexivity.
Qed.

Lemma split_last_field (t : string) :
  all_chars field_char t = true -> split_comma t = [t].
Proof.
  induction t as [|c r IH]; cbn [all_chars split_comma]; [reflexivity|].
  rewrite andb_true_iff. intros [H1 H2].
  unfold field_char in H1. apply negb_true_iff in H1.
  rewrite H1, (IH H2). reflexivity.
Qed.

Lemma split_field (t s : string) :
  all_chars field_char t = true ->
  split_comma (t ++ String comma s) = t :: split_comma s.
Proof.
  induction t as [|c r IH]; cbn [all_chars split_comma append].
  - intros _. rewrite Ascii.eqb_refl. reflexivity.
  - rewrite andb_true_iff. intros [H1 H2].
    unfold field_char in H1. apply negb_true_iff in H1.
    rewrite H1, (IH H2). reflexivity.
Qed.

Lemma numeral_field (t : string) :
  all_chars numeral_char t = true -> all_chars field_char t = true.
Proof.
  apply all_chars_impl. exact numeral_field_char.
Qed.

Lemma lead_field (b : bool) (t : string) :
  all_chars numeral_char t = true -> all_chars field_char (lead b t) = true.
Proof.
  intros H. destruct b; cbn [lead all_chars].
  - rewrite (numeral_field t H). reflexivity.
  - exact (numeral_field t H).
Qed.

Lemma trim_start_numeral (t : string) :
  all_chars numeral_char t = true -> trim_start t = t.
Proof.
  destruct t as [|c r]; cbn [all_chars trim_start]; [reflexivity|].
  rewrite andb_true_iff. intros [H _].
  rewrite (numeral_not_space c H). reflexivity.
Qed.

Lemma trim_end_numeral (t : string) :
  all_chars numeral_char t = true -> trim_end t = t.
Proof.
  induction t as [|c r IH]; cbn [all_chars trim_end]; [reflexivity|].
  rewrite andb_true_iff. intros [H1 H2]. rewrite (IH H2).
  destruct r; [|reflexivity].
  rewrite (numeral_not_space c H1). reflexivity.
Qed.

Lemma trim_lead (b : bool) (t : string) :
  all_chars numeral_char t = true -> trim (lead b t) = t.
Proof.
  intros H. unfold trim.
  assert (E : trim_start (lead b t) = trim_start t)
    by (destruct b; reflexivity).
  rewrite E, (trim_start_numeral t H). exact (trim_end_numeral t H).
Qed.

Lemma lead_append (b : bool) (t s : string) :
  lead b (t ++ s) = (lead b t ++ s)%string.
Proof. destruct b; reflexivity. Qed.

Lemma fields_of_value (b : bool) (z : Z) (zs : list Z) :
  map trim (split_comma (lead b (field_value (map Fin (z :: zs)))))
  = map show (map Fin (z :: zs)).
Proof.
  revert b z. induction zs as [|z' zs IH]; intros b z.
  - unfold field_value. cbn [map join].
    rewrite (split_last_field _ (lead_field b _ (show_chars z))).
    cbn [map]. rewrite (trim_lead b _ (show_chars z)). reflexivity.
  - specialize (IH true z').
    unfold field_value in IH |- *. cbn [map join] in IH |- *.
    rewrite lead_append.
    change (", " ++ ?s)%string with (String comma (lead true s)).
    rewrite (split_field _ _ (lead_field b _ (show_chars z))).
    cbn [map]. rewrite (trim_lead b _ (show_chars z)).
    f_equal. exact IH.
Qed.

Lemma shown_nonempty (zs : list Z) :
  filter nonempty (map show (map Fin zs)) = map show (map Fin zs).
Proof.
  induction zs as [|z zs IH]; cbn [map filter]; [reflexivity|].
  rewrite (show_nonempty z), IH. reflexivity.
Qed.

Lemma shown_numbers (zs : list Z) :
  Forall safe_integer zs ->
  map Number (map show (map Fin zs)) = map Fin zs.
Proof.
  induction 1 as [|z zs Hz _ IH]; cbn [map]; [reflexivity|].
  rewrite (Number_show z Hz), IH. reflexivity.
Qed.

Lemma parse_field_value (zs : list Z) :
  Forall safe_integer zs ->
  parse_parts (field_value (map Fin zs)) = map Fin zs.
Proof.
  intros Hs. destruct zs as [|z zs]; [reflexivity|].
  unfold parse_parts.
  change (field_value (map Fin (z :: zs)))
    with (lead false (field_value (map Fin (z :: zs)))).
  rewrite (fields_of_value false z zs), shown_nonempty.
  apply shown_numbers, Hs.
Qed.

Lemma all_chars_app (cls : ascii -> bool) (a b : string) :
  all_chars cls (a ++ b) = all_chars cls a && all_chars cls b.
Proof.
  induction a as [|c r IH]; cbn [append all_chars]; [reflexivity|].
  rewrite IH, andb_assoc. reflexivity.
Qed.

Lemma join_cons (sep x y : string) (rest : list string) :
  join sep (x :: y :: rest) = (x ++ sep ++ join sep (y :: rest))%string.
Proof. reflexivity. Qed.

Lemma field_value_chars (cls tok : ascii -> bool) (ns : list num) :
  (forall c, tok c = true -> cls c = true) ->
  cls comma = true -> cls space = true ->
  Forall (fun n => all_chars tok (show n) = true) ns ->
  all_chars cls (field_value ns) = true.
Proof.
  intros Ht Hc Hs. induction 1 as [|n ns Hn Hns IH]; [reflexivity|].
  destruct ns as [|n' ns].
  - exact (all_chars_impl tok cls _ Ht Hn).
  - unfold field_value in IH |- *. cbn [map] in IH |- *.
    rewrite join_cons, all_chars_app, (all_chars_impl tok cls _ Ht Hn).
    cbn [append all_chars].
    change (cls ",")%char with (cls comma).
    change (cls " ")%char with (cls space).
    rewrite Hc, Hs, IH. reflexivity.
Qed.

Lemma show_digits (z : Z) :
  0 <= z -> all_chars is_digit (show (Fin z)) = true.
Proof.
  intros Hz. destruct z as [|p|p]; [reflexivity| |lia].
  cbn [show Z.to_int NilZero.string_of_int].
  rewrite (uint_nonnil_string _ (Unsigned.to_uint_nonnil p)).
  apply uint_digits.
Qed.

Lemma unsigned_field_value (cls : ascii -> bool) (zs : list Z) :
  (forall c, is_digit c = true -> cls c = true) ->
  cls comma = true -> cls space = true ->
  Forall (fun z => 0 <= z) zs ->
  all_chars cls (field_value (map Fin zs)) = true.
Proof.
  intros Hd Hc Hs H. apply (field_value_chars cls is_digit); try assumption.
  apply Forall_map. eapply Forall_impl; [|exact H].
  intros z Hz. exact (show_digits z Hz).
Qed.

Lemma field_value_allowed (zs : list Z) :
  all_chars NGE.allowed (field_value (map Fin zs)) = true.
Proof.
  apply (field_value_chars NGE.allowed numeral_char); try reflexivity.
  - intros c. unfold numeral_char, NGE.allowed.
    intros H. apply orb_true_iff in H as [H|H]; rewrite H;
      rewrite ?orb_true_r; reflexivity.
  - apply Forall_map, Forall_forall. intros z _. apply show_chars.
Qed.

Lemma digit_class (c : ascii) :
  is_digit c = true ->
  is_digit c || Ascii.eqb c comma || Ascii.eqb c space = true.
Proof. intros ->. reflexivity. Qed.

(** X12. What an input field shows is read back as the array it shows:
    for every array of safe integers, the text [arr.join(", ")] passes the
    pattern of the Next Greater Element note and its tokens are read as
    the same array; when no element is negative the text also passes the
    pattern of the Ship Packages, Split Array and Sum of Subarray
    Minimums notes, which admit no minus sign. *)
Theorem shown_array_is_read_back (zs : list Z) :
  Forall safe_integer zs ->
  parse_parts (field_value (map Fin zs)) = map Fin zs /\
  all_chars NGE.allowed (field_value (map Fin zs)) = true /\
  (Forall (fun z => 0 <= z) zs ->
   all_chars Ship.allowed (field_value (map Fin zs)) = true /\
   all_chars SplitArray.allowed (field_value (map Fin zs)) = true /\
   all_chars SubarrayMins.allowed (field_value (map Fin zs)) = true).
Proof.
  intros Hs.
  split; [apply parse_field_value, Hs|].
  split; [apply field_value_allowed|].
  intros H.
  repeat split; apply unsigned_field_value;
    solve [exact digit_class | reflexivity | exact H].
Qed.

Lemma shown_array_is_read_back_witness :
  parse_parts (field_value (map Fin [4; -5; 0; 25])) = map Fin [4; -5; 0; 25]
  /\ all_chars Ship.allowed (field_value (map Fin [3; 2; 2; 4; 1; 4])) = true.
Proof.
  split.
  - apply (shown_array_is_read_back [4; -5; 0; 25]).
    repeat constructor; vm_compute; discriminate.
  - apply (shown_array_is_read_back [3; 2; 2; 4; 1; 4]).
    + repeat constructor; vm_compute; discriminate.
    + repeat constructor; lia.
Defined.

Lemma within_bound_ints (ns : list num) :
  Forall within_bound ns ->
  exists zs, ns = map Fin zs /\ Forall safe_integer zs.
Proof.
  induction 1 as [|n ns [z [-> Hz]] _ [zs [-> Hzs]]].
  - exists []. split; [reflexivity | constructor].
  - exists (z :: zs). split; [reflexivity|].
    constructor; [|exact Hzs].
    unfold safe_integer, MAX_SAFE_INTEGER. unfold NGE.MAX_VAL in Hz. lia.
Qed.

(** X13. Submitting the text that the input field of the Next Greater
    Element note shows changes neither the array nor the trace: in every
    state the note can reach, the handler accepts the shown text, stores
    the same array and the same Steps, and goes back to the first Step
    with the playback stopped. *)
Theorem nge_shown_text_is_accepted (es : list Event) :
  let c := session es in
  let c' := NGE.handleArrChange (field_value (NGE.arr c)) c in
  nge_valid (field_value (NGE.arr c)) /\
  NGE.arr c' = NGE.arr c /\
  NGE.steps c' = NGE.steps c /\
  NGE.currentStepIndex c' = 0 /\
  NGE.isPlaying c' = false /\
  NGE.isConfigOpen c' = NGE.isConfigOpen c /\
  NGE.playbackSpeed c' = NGE.playbackSpeed c.
Proof.
  cbv zeta. destruct (session_consistent es) as [Hs [_ [Hl Hb]]].
  destruct (within_bound_ints _ Hb) as [zs [E Hsafe]].
  assert (Hv : nge_valid (field_value (NGE.arr (session es)))).
  { unfold nge_valid. rewrite E, (parse_field_value zs Hsafe), <- E.
    split; [|split; assumption].
    apply all_chars_spec. rewrite E. apply field_value_allowed. }
  split; [exact Hv|].
  rewrite nge_handler_cases.
  rewrite (proj2 (nge_handler_accepts _) Hv).
  assert (Ep : parse_parts (field_value (NGE.arr (session es)))
               = NGE.arr (session es))
    by (rewrite E; apply parse_field_value, Hsafe).
  rewrite Ep.
  unfold NGE.setArr, NGE.generateSteps.
  cbn [NGE.arr NGE.steps NGE.currentStepIndex NGE.isPlaying
       NGE.isConfigOpen NGE.playbackSpeed].
  rewrite Hs. repeat split.
Qed.

(** ** Ship Packages: the search returns the least capacity *)

Lemma ship_sim_step (low high ans : num) (cap i wt cw day : Z)
    (rest : list num) (bins : list (list num)) :
  snd (Ship.sim low high (Fin cap) ans i (Fin wt :: rest) (Fin cw) day bins) =
  if cw + wt <=? cap
  then snd (Ship.sim low high (Fin cap) ans (i + 1) rest (Fin (cw + wt)) day
              (Ship.push_at (day - 1) (Fin wt) bins))
  else if cap <? wt
       then Ship.mkSim false (Fin wt) (day + 1) (bins ++ [[Fin wt]])
       else snd (Ship.sim low high (Fin cap) ans (i + 1) rest (Fin wt)
                   (day + 1) (bins ++ [[Fin wt]])).
Proof.
  cbn [Ship.sim]. cbn [add le].
  destruct (Z.leb_spec (cw + wt) cap) as [Hle|Hgt]; cbn [gt lt].
  - destruct (Z.ltb_spec cap (cw + wt)); [lia|].
    destruct (Ship.sim low high (Fin cap) ans (i + 1) rest _ _ _).
    reflexivity.
  - destruct (cap <? wt); [reflexivity|].
    destruct (Ship.sim low high (Fin cap) ans (i + 1) rest _ _ _).
    reflexivity.
Qed.

Lemma set_nth_last {A} (done : list A) (cur v : A) :
  set_nth (List.length done) v (done ++ [cur]) = done ++ [v].
Proof.
  induction done as [|d done IH]; cbn [List.length app set_nth];
    [reflexivity|]. rewrite IH. reflexivity.
Qed.

Lemma push_at_last (done : list (list num)) (cur : list num) (wt : num) :
  Ship.push_at (len done) wt (done ++ [cur]) = done ++ [cur ++ [wt]].
Proof.
  unfold Ship.push_at, len. rewrite Nat2Z.id, nth_middle.
  apply set_nth_last.
Qed.

Lemma load_weight_app (a b : list Z) :
  load_weight (a ++ b) = load_weight a + load_weight b.
Proof.
  unfold load_weight. induction a as [|x a IH]; cbn [app fold_right]; lia.
Qed.

Lemma load_weight_nonneg (g : list Z) :
  Forall (fun w => 0 <= w) g -> 0 <= load_weight g.
Proof.
  unfold load_weight. induction 1; cbn [fold_right]; lia.
Qed.

Lemma load_weight_member (g : list Z) (w : Z) :
  Forall (fun w => 0 <= w) g -> In w g -> w <= load_weight g.
Proof.
  induction 1 as [|x g Hx Hg IH]; intros Hin; [contradiction|].
  pose proof (load_weight_nonneg g Hg) as Hn.
  change (load_weight (x :: g)) with (x + load_weight g).
  destruct Hin as [->|Hin]; [lia|]. specialize (IH Hin). lia.
Qed.

Lemma bins_of_app (a b : list (list Z)) :
  bins_of (a ++ b) = bins_of a ++ bins_of b.
Proof. apply map_app. Qed.

Lemma ship_sim_sound (low high ans : num) (cap : Z) (rest : list Z) :
  forall i cw day done cur,
    len done = day - 1 ->
    load_weight cur = cw ->
    Forall (fun l => load_weight l <= cap) (done ++ [cur]) ->
    Ship.possible
      (snd (Ship.sim low high (Fin cap) ans i (map Fin rest) (Fin cw) day
              (bins_of (done ++ [cur])))) = true ->
    exists loads,
      Ship.allDayLoads
        (snd (Ship.sim low high (Fin cap) ans i (map Fin rest) (Fin cw) day
                (bins_of (done ++ [cur])))) = bins_of loads /\
      List.concat loads = List.concat (done ++ [cur]) ++ rest /\
      len loads =
        Ship.day
          (snd (Ship.sim low high (Fin cap) ans i (map Fin rest) (Fin cw) day
                  (bins_of (done ++ [cur])))) /\
      Forall (fun l => load_weight l <= cap) loads.
Proof.
  induction rest as [|wt rest IH]; intros i cw day done cur Hd Hc Hf.
  - cbn [map Ship.sim snd Ship.possible Ship.allDayLoads Ship.day].
    intros _. exists (done ++ [cur]). rewrite app_nil_r.
    repeat split; try assumption.
    unfold len in *. rewrite length_app. cbn [List.length]. lia.
  - cbn [map]. rewrite ship_sim_step.
    destruct (Z.leb_spec (cw + wt) cap) as [Hle|Hgt].
    + replace (Ship.push_at (day - 1) (Fin wt) (bins_of (done ++ [cur])))
        with (bins_of (done ++ [cur ++ [wt]])).
      * intros Hp.
        destruct (IH (i + 1) (cw + wt) day done (cur ++ [wt])) as [loads H];
          try assumption.
        { rewrite load_weight_app. cbn. lia. }
        { apply Forall_app. apply Forall_app in Hf. destruct Hf as [Hf _].
          split; [exact Hf|]. constructor; [|constructor].
          rewrite load_weight_app. cbn. lia. }
        destruct H as [H1 [H2 [H3 H4]]]. exists loads.
        repeat split; try assumption.
        rewrite H2, !concat_app. cbn [List.concat]. rewrite !app_nil_r.
        rewrite <- !app_assoc. reflexivity.
      * rewrite !bins_of_app. cbn [bins_of map].
        replace (day - 1) with (len (bins_of done))
          by (unfold bins_of, len in *; rewrite length_map; exact Hd).
        rewrite push_at_last, map_app. reflexivity.
    + destruct (Z.ltb_spec cap wt) as [Hw|Hw].
      * cbn [Ship.possible]. discriminate.
      * replace (bins_of (done ++ [cur]) ++ [[Fin wt]])
          with (bins_of ((done ++ [cur]) ++ [[wt]]))
          by (rewrite (bins_of_app (done ++ [cur])); reflexivity).
        intros Hp.
        destruct (IH (i + 1) wt (day + 1) (done ++ [cur]) [wt])
          as [loads H]; try assumption.
        { unfold len in *. rewrite length_app. cbn [List.length]. lia. }
        { cbn. lia. }
        { apply Forall_app. split; [exact Hf|].
          constructor; [cbn; lia | constructor]. }
        destruct H as [H1 [H2 [H3 H4]]]. exists loads.
        repeat split; try assumption.
        rewrite H2, (concat_app (done ++ [cur])). cbn [List.concat].
        rewrite <- !app_assoc. reflexivity.
Qed.

Lemma ship_sim_fits (low high ans : num) (cap : Z) (g : list Z) :
  forall rest i cw day bins,
    Forall (fun w => 0 <= w) g ->
    cw + load_weight g <= cap ->
    exists i' bins',
      snd (Ship.sim low high (Fin cap) ans i (map Fin (g ++ rest)) (Fin cw)
             day bins)
      = snd (Ship.sim low high (Fin cap) ans i' (map Fin rest)
               (Fin (cw + load_weight g)) day bins').
Proof.
  induction g as [|w g IH]; intros rest i cw day bins Hg Hc.
  - exists i, bins. cbn [app load_weight fold_right].
    rewrite Z.add_0_r. reflexivity.
  - inversion Hg as [|? ? Hw Hg']; subst.
    pose proof (load_weight_nonneg g Hg') as Hn.
    change (load_weight (w :: g)) with (w + load_weight g) in *.
    cbn [app map]. rewrite ship_sim_step.
    destruct (Z.leb_spec (cw + w) cap) as [Hle|Hgt]; [|lia].
    destruct (IH rest (i + 1) (cw + w) day
                (Ship.push_at (day - 1) (Fin w) bins) Hg' ltac:(lia))
      as [i' [bins' E]].
    exists i', bins'. rewrite E, Z.add_assoc. reflexivity.
Qed.

Lemma ship_sim_load (low high ans : num) (cap : Z) (g : list Z) :
  forall rest i cw day bins,
    Forall (fun w => 0 <= w) g ->
    load_weight g <= cap ->
    cw <= cap ->
    exists i' bins' cw' day',
      snd (Ship.sim low high (Fin cap) ans i (map Fin (g ++ rest)) (Fin cw)
             day bins)
      = snd (Ship.sim low high (Fin cap) ans i' (map Fin rest) (Fin cw')
               day' bins') /\
      cw' <= cap /\ day' <= day + 1.
Proof.
  induction g as [|w g IH]; intros rest i cw day bins Hg Hl Hc.
  - exists i, bins, cw, day. split; [reflexivity | lia].
  - inversion Hg as [|? ? Hw Hg']; subst.
    pose proof (load_weight_nonneg g Hg') as Hn.
    change (load_weight (w :: g)) with (w + load_weight g) in *.
    cbn [app map]. rewrite ship_sim_step.
    destruct (Z.leb_spec (cw + w) cap) as [Hle|Hgt].
    + apply IH; [exact Hg' | lia | lia].
    + destruct (Z.ltb_spec cap w) as [Hw'|Hw']; [lia|].
      destruct (ship_sim_fits low high ans cap g rest (i + 1) w (day + 1)
                  (bins ++ [[Fin w]]) Hg' Hl) as [i' [bins' E]].
      exists i', bins', (w + load_weight g), (day + 1).
      split; [exact E | lia].
Qed.

Lemma ship_sim_complete (low high ans : num) (cap : Z)
    (loads : list (list Z)) :
  forall i cw day bins,
    Forall (fun w => 0 <= w) (List.concat loads) ->
    Forall (fun l => load_weight l <= cap) loads ->
    cw <= cap ->
    Ship.possible
      (snd (Ship.sim low high (Fin cap) ans i (map Fin (List.concat loads))
              (Fin cw) day bins)) = true /\
    Ship.day
      (snd (Ship.sim low high (Fin cap) ans i (map Fin (List.concat loads))
              (Fin cw) day bins)) <= day + len loads.
Proof.
  induction loads as [|g gs IH]; intros i cw day bins Hn Hl Hc.
  - cbn. split; [reflexivity | lia].
  - cbn [List.concat] in *. apply Forall_app in Hn. destruct Hn as [Hg Hgs].
    inversion Hl as [|? ? Hlg Hlgs]; subst.
    destruct (ship_sim_load low high ans cap g (List.concat gs) i cw day bins
                Hg Hlg Hc) as [i' [bins' [cw' [day' [E [Hc' Hd']]]]]].
    rewrite E.
    destruct (IH i' cw' day' bins' Hgs Hlgs Hc') as [H1 H2].
    split; [exact H1|].
    unfold len in *. cbn [List.length]. lia.
Qed.

Lemma ship_probe_decides (low high ans : num) (ws : list Z) (days cap : Z) :
  Forall (fun w => 0 <= w) ws ->
  1 <= days ->
  0 <= cap ->
  (Ship.possible
     (snd (Ship.sim low high (Fin cap) ans 0 (map Fin ws) (Fin 0) 1 [[]]))
   = true /\
   Ship.day
     (snd (Ship.sim low high (Fin cap) ans 0 (map Fin ws) (Fin 0) 1 [[]]))
   <= days)
  <-> can_ship ws days cap.
Proof.
  intros Hw Hd Hcap. split.
  - intros [Hp Hdays].
    destruct (ship_sim_sound low high ans cap ws 0 0 1 [] [])
      as [loads [_ [H2 [H3 H4]]]]; try reflexivity; try exact Hp.
    { constructor; [exact Hcap | constructor]. }
    exists loads. split; [exact H2|]. split; [|exact H4].
    rewrite H3. exact Hdays.
  - intros [loads [Hc [Hl Hf]]]. subst ws.
    destruct loads as [|g gs].
    + cbn. split; [reflexivity | exact Hd].
    + cbn [List.concat] in *. apply Forall_app in Hw. destruct Hw as [Hg Hgs].
      inversion Hf as [|? ? Hfg Hfgs]; subst.
      destruct (ship_sim_fits low high ans cap g (List.concat gs) 0 0 1 [[]]
                  Hg ltac:(lia)) as [i' [bins' E]].
      rewrite E.
      destruct (ship_sim_complete low high ans cap gs i'
                  (0 + load_weight g) 1 bins' Hgs Hfgs ltac:(lia))
        as [H1 H2].
      split; [exact H1|].
      unfold len in *. cbn [List.length] in Hl. lia.
Qed.

Lemma can_ship_mono (ws : list Z) (days c c' : Z) :
  c <= c' -> can_ship ws days c -> can_ship ws days c'.
Proof.
  intros Hc [loads [H1 [H2 H3]]]. exists loads.
  split; [exact H1|]. split; [exact H2|].
  eapply Forall_impl; [|exact H3]. cbv beta. intros l Hl. lia.
Qed.

Lemma can_ship_bounds (ws : list Z) (days c w : Z) :
  Forall (fun w => 0 <= w) ws ->
  can_ship ws days c -> In w ws -> w <= c.
Proof.
  intros Hw [loads [H1 [_ H3]]] Hin. subst ws.
  apply in_concat in Hin. destruct Hin as [g [Hg Hin]].
  rewrite Forall_forall in H3. specialize (H3 g Hg).
  assert (Hn : Forall (fun w => 0 <= w) g).
  { rewrite Forall_forall in *. intros x Hx. apply Hw.
    apply in_concat. exists g. split; assumption. }
  pose proof (load_weight_member g w Hn Hin). lia.
Qed.

Lemma can_ship_all (ws : list Z) (days : Z) :
  1 <= days -> can_ship ws days (load_weight ws).
Proof.
  intros Hd. exists [ws]. cbn [List.concat]. rewrite app_nil_r.
  split; [reflexivity|]. split; [exact Hd|].
  constructor; [lia | constructor].
Qed.

Lemma ship_probe_result (ws : list Z) (days l h : Z) (ans : num) :
  Forall (fun w => 0 <= w) ws ->
  1 <= days ->
  0 <= l + (h - l) / 2 ->
  (can_ship ws days (l + (h - l) / 2) /\
   snd (Ship.probe (map Fin ws) days (Fin l) (Fin h) ans)
   = (Fin l, Fin (l + (h - l) / 2 - 1), Fin (l + (h - l) / 2)))
  \/
  (~ can_ship ws days (l + (h - l) / 2) /\
   snd (Ship.probe (map Fin ws) days (Fin l) (Fin h) ans)
   = (Fin (l + (h - l) / 2 + 1), Fin h, ans)).
Proof.
  intros Hw Hd Hm.
  pose proof (ship_probe_decides (Fin l) (Fin h) ans ws days
                (l + (h - l) / 2) Hw Hd Hm) as Hdec.
  unfold Ship.probe. rewrite floor_add_half_int.
  destruct (Ship.sim (Fin l) (Fin h) _ ans 0 (map Fin ws) (Fin 0) 1 [[]])
    as [steps r].
  cbn [snd] in Hdec.
  destruct (Ship.possible r).
  - destruct (Z.leb_spec (Ship.day r) days) as [Hle|Hgt]; cbn [snd].
    + left. split; [apply Hdec; split; [reflexivity | exact Hle]|].
      cbn. unfold Z.sub. reflexivity.
    + right. split; [|reflexivity].
      intros Hcan. apply Hdec in Hcan. lia.
  - cbn [snd]. right. split; [|reflexivity].
    intros Hcan. apply Hdec in Hcan. destruct Hcan as [Hcan _].
    discriminate Hcan.
Qed.

Lemma ship_search_result (ws : list Z) (days : Z) (fuel : nat) :
  Forall (fun w => 0 <= w) ws ->
  1 <= days ->
  forall l h ans steps fin,
    0 <= l -> l <= h + 1 ->
    (forall c, c < l -> ~ can_ship ws days c) ->
    (can_ship ws days h \/ (ans = Fin (h + 1) /\ can_ship ws days (h + 1))) ->
    Ship.search_loop (map Fin ws) days fuel (Fin l) (Fin h) ans
      = Some (steps, fin) ->
    exists c, snd fin = Fin c /\ least_capacity ws days c.
Proof.
  intros Hw Hd.
  assert (Hend : forall l h ans,
    h < l -> l <= h + 1 ->
    (forall c, c < l -> ~ can_ship ws days c) ->
    (can_ship ws days h \/ (ans = Fin (h + 1) /\ can_ship ws days (h + 1))) ->
    exists c, ans = Fin c /\ least_capacity ws days c).
  { intros l h ans Hgt Hlh Hlow [Hcan|[-> Hcan]].
    - exfalso. exact (Hlow h Hgt Hcan).
    - exists (h + 1). split; [reflexivity|]. split; [exact Hcan|].
      intros c Hc. destruct (Z.lt_ge_cases c (h + 1)) as [Hlt|Hge];
        [|exact Hge].
      exfalso. apply (Hlow c); [lia | exact Hc]. }
  induction fuel as [|fuel IH]; intros l h ans steps fin H0 Hlh Hlow Hhigh H;
    cbn [Ship.search_loop] in H; cbn [le] in H;
    destruct (Z.leb_spec l h) as [Hle|Hgt].
  - discriminate H.
  - injection H as _ <-. cbn [snd]. eapply Hend; eassumption.
  - pose proof (midpoint_bounds l h Hle) as Hm.
    destruct (ship_probe_result ws days l h ans Hw Hd ltac:(lia))
      as [[Hcan Hn]|[Hcan Hn]];
      destruct (Ship.probe (map Fin ws) days (Fin l) (Fin h) ans)
        as [steps1 [[low1 high1] ans1]];
      cbn [snd] in Hn; injection Hn as -> -> ->;
      match type of H with
      | context [Ship.search_loop ?w ?d ?f ?a ?b ?c] =>
          destruct (Ship.search_loop w d f a b c) as [[steps2 fin2]|] eqn:E
      end; try discriminate H;
      injection H as _ <-.
    + eapply (IH l (l + (h - l) / 2 - 1)); try exact E; try lia;
        try exact Hlow.
      right. split; [f_equal; lia|].
      replace (l + (h - l) / 2 - 1 + 1) with (l + (h - l) / 2) by lia.
      exact Hcan.
    + eapply (IH (l + (h - l) / 2 + 1) h); try exact E; try lia;
        try exact Hhigh.
      intros c Hc Hcc. apply Hcan.
      apply (can_ship_mono ws days c); [lia | exact Hcc].
  - injection H as _ <-. cbn [snd]. eapply Hend; eassumption.
Qed.

Lemma sum_of_weights (ws : list Z) (a : Z) :
  fold_left add (map Fin ws) (Fin a) = Fin (a + load_weight ws).
Proof.
  revert a. induction ws as [|w ws IH]; intros a; cbn [map fold_left].
  - cbn. rewrite Z.add_0_r. reflexivity.
  - cbn [add]. rewrite IH.
    change (load_weight (w :: ws)) with (w + load_weight ws).
    rewrite Z.add_assoc. reflexivity.
Qed.

Lemma min_of_weights (ws : list Z) (a : Z) :
  exists m, fold_left min (map Fin ws) (Fin a) = Fin m /\
            (m = a \/ In m ws).
Proof.
  revert a. induction ws as [|w ws IH]; intros a; cbn [map fold_left].
  - exists a. auto.
  - cbn [min le]. destruct (a <=? w).
    + destruct (IH a) as [m [E Hm]]. exists m. cbn [In].
      destruct Hm; auto.
    + destruct (IH w) as [m [E Hm]]. exists m. cbn [In].
      destruct Hm; auto.
Qed.

Lemma ship_trace_result (w : Z) (ws : list Z) (days : Z) :
  Forall (fun x => 0 <= x) (w :: ws) ->
  1 <= days ->
  exists front low' high' cap,
    Ship.trace (map Fin (w :: ws)) days
    = Some (front ++ [Ship.complete_step low' high' (Fin cap)]) /\
    least_capacity (w :: ws) days cap.
Proof.
  intros Hw Hd. unfold Ship.trace, Ship.trace_fuel.
  unfold sum. rewrite sum_of_weights. rewrite Z.add_0_l.
  unfold Math_min. cbn [map fold_left]. cbn [min le].
  destruct (min_of_weights ws w) as [m [Em Hm]]. rewrite Em.
  assert (Hin : In m (w :: ws)) by (cbn [In]; destruct Hm; auto).
  unfold Ship.iterations.
  destruct (ship_search_loop_ends (map Fin (w :: ws)) days
              (Z.to_nat (load_weight (w :: ws) - m + 1)) m
              (load_weight (w :: ws)) (Fin 0) (Nat.le_refl _))
    as [[steps [[low' high'] ans']] E].
  cbn [map] in E. rewrite E.
  destruct (ship_search_result (w :: ws) days
              (Z.to_nat (load_weight (w :: ws) - m + 1)) Hw Hd m
              (load_weight (w :: ws)) (Fin 0) steps (low', high', ans'))
    as [cap [Ec Hc]].
  - rewrite Forall_forall in Hw. apply Hw, Hin.
  - pose proof (load_weight_member (w :: ws) m Hw Hin). lia.
  - intros c Hc Hcan.
    pose proof (can_ship_bounds (w :: ws) days c m Hw Hcan Hin). lia.
  - left. apply can_ship_all, Hd.
  - exact E.
  - cbn [snd] in Ec. subst ans'.
    exists (Ship.init_step (Fin m) (Fin (load_weight (w :: ws))) :: steps),
      low', high', cap.
    split; [reflexivity | exact Hc].
Qed.

(** X14. On every list of packages that is not empty and holds no
    negative weight, of a safe total, and every limit of at least one day,
    the trace of the
    Ship Packages note ends with the complete Step, and the [ans] it
    records is the least capacity with which the packages can be shipped
    in order within the limit: they split into at most [days] consecutive
    loads of at most [ans], and into no such loads for a smaller
    capacity. *)
Theorem ship_answer_is_least_capacity (w : Z) (ws : list Z) (days : Z) :
  Forall (fun x => 0 <= x) (w :: ws) ->
  safe_total (w :: ws) ->
  1 <= days ->
  exists front last cap,
    Ship.trace (map Fin (w :: ws)) days = Some (front ++ [last]) /\
    Ship.phase last = Ship.complete /\
    Ship.ans last = Fin cap /\
    least_capacity (w :: ws) days cap.
Proof.
  intros Hw _ Hd.
  destruct (ship_trace_result w ws days Hw Hd)
    as [front [low' [high' [cap [E Hc]]]]].
  exists front, (Ship.complete_step low' high' (Fin cap)), cap.
  split; [exact E|]. split; [reflexivity|].
  split; [reflexivity | exact Hc].
Qed.

Lemma ship_answer_is_least_capacity_witness :
  exists front last cap,
    Ship.trace (map Fin [3; 2; 2; 4; 1; 4]) 3 = Some (front ++ [last]) /\
    Ship.phase last = Ship.complete /\
    Ship.ans last = Fin cap /\
    least_capacity [3; 2; 2; 4; 1; 4] 3 cap.
Proof.
  apply (ship_answer_is_least_capacity 3 [2; 2; 4; 1; 4] 3).
  - repeat constructor; lia.
  - vm_compute. discriminate.
  - lia.
Defined.

Lemma ship_sim_phases (low high mid ans : num) (rest : list num) :
  forall i cw day bins,
    Forall (fun s => Ship.phase s <> Ship.sim_success)
      (fst (Ship.sim low high mid ans i rest cw day bins)).
Proof.
  induction rest as [|wt rest IH]; intros i cw day bins;
    cbn [Ship.sim fst]; [constructor|].
  destruct (le (add cw wt) mid).
  - destruct (gt (add cw wt) mid).
    + cbn [fst]. repeat (constructor; [discriminate|]). constructor.
    + specialize (IH (i + 1) (add cw wt) day
                    (Ship.push_at (day - 1) wt bins)).
      destruct (Ship.sim low high mid ans (i + 1) rest _ _ _) as [more r].
      cbn [fst] in *. repeat (constructor; [discriminate|]). exact IH.
  - destruct (gt wt mid).
    + cbn [fst]. repeat (constructor; [discriminate|]). constructor.
    + specialize (IH (i + 1) wt (day + 1) (bins ++ [[wt]])).
      destruct (Ship.sim low high mid ans (i + 1) rest _ _ _) as [more r].
      cbn [fst] in *. repeat (constructor; [discriminate|]). exact IH.
Qed.

Lemma ship_probe_success (ws : list Z) (days l h : Z) (ans : num) :
  0 <= l + (h - l) / 2 ->
  Forall (fun s => Ship.phase s = Ship.sim_success -> shows_loading ws days s)
    (fst (Ship.probe (map Fin ws) days (Fin l) (Fin h) ans)).
Proof.
  intros Hm. unfold Ship.probe. rewrite floor_add_half_int.
  pose proof (ship_sim_phases (Fin l) (Fin h) (Fin (l + (h - l) / 2)) ans
                (map Fin ws) 0 (Fin 0) 1 [[]]) as Hph.
  pose proof (ship_sim_sound (Fin l) (Fin h) ans (l + (h - l) / 2) ws
                0 0 1 [] [] eq_refl eq_refl) as Hs.
  cbn [app bins_of map] in Hs.
  destruct (Ship.sim (Fin l) (Fin h) _ ans 0 (map Fin ws) (Fin 0) 1 [[]])
    as [steps r].
  cbn [fst snd] in Hph, Hs.
  assert (Hsteps : Forall (fun s => Ship.phase s = Ship.sim_success ->
                                    shows_loading ws days s) steps).
  { eapply Forall_impl; [|exact Hph]. cbv beta. intros s Hn Hp.
    contradiction. }
  destruct (Ship.possible r) eqn:Hp.
  - destruct (Z.leb_spec (Ship.day r) days) as [Hle|Hgt]; cbn [fst];
      (constructor; [discriminate|]);
      (apply Forall_app; split; [exact Hsteps|]);
      (constructor; [|constructor]).
    + intros _.
      destruct Hs as [loads [H1 [H2 [H3 H4]]]]; [|reflexivity|].
      { constructor; [exact Hm | constructor]. }
      exists (l + (h - l) / 2), loads.
      cbn [Ship.mid Ship.ans Ship.dayLoads Ship.currentDay].
      repeat split; assumption.
    + discriminate.
  - cbn [fst]. constructor; [discriminate | exact Hsteps].
Qed.

Lemma ship_search_success (ws : list Z) (days : Z) (fuel : nat) :
  forall l h ans steps fin,
    0 <= l ->
    Ship.search_loop (map Fin ws) days fuel (Fin l) (Fin h) ans
      = Some (steps, fin) ->
    Forall (fun s => Ship.phase s = Ship.sim_success ->
                     shows_loading ws days s) steps.
Proof.
  induction fuel as [|fuel IH]; intros l h ans steps fin H0 H;
    cbn [Ship.search_loop] in H; cbn [le] in H;
    destruct (Z.leb_spec l h) as [Hle|Hgt].
  - discriminate H.
  - injection H as <- _. constructor.
  - pose proof (midpoint_bounds l h Hle) as Hm.
    pose proof (ship_probe_success ws days l h ans ltac:(lia)) as Hp.
    destruct (ship_probe_next (map Fin ws) days l h ans) as [ans' Hn].
    destruct (Ship.probe (map Fin ws) days (Fin l) (Fin h) ans)
      as [steps1 [[low1 high1] ans1]].
    cbn [fst snd] in Hp, Hn.
    destruct Hn as [Hn|Hn]; injection Hn as -> -> ->;
      match type of H with
      | context [Ship.search_loop ?w ?d ?f ?a ?b ?c] =>
          destruct (Ship.search_loop w d f a b c) as [[steps2 fin2]|] eqn:E
      end; try discriminate H;
      injection H as <- _; apply Forall_app; split; try exact Hp;
      eapply IH; try exact E; lia.
  - injection H as <- _. constructor.
Qed.

(** X15. Whenever a Step of the Ship Packages note announces a success,
    what it draws is a real loading: for every list of weights that are
    not negative, of a safe total, every Step of phase [sim_success] in
    the trace shows in
    [dayLoads] consecutive loads that make up the packages, one for each
    of the [currentDay] days used, which are within the limit, and none
    heavier than the capacity [mid] under test, recorded as [ans]. *)
Theorem ship_success_shows_a_loading (ws : list Z) (days : Z)
    (steps : list Ship.StepState) (s : Ship.StepState) :
  Forall (fun x => 0 <= x) ws ->
  safe_total ws ->
  Ship.trace (map Fin ws) days = Some steps ->
  In s steps ->
  Ship.phase s = Ship.sim_success ->
  shows_loading ws days s.
Proof.
  intros Hw _ Ht Hin Hp. revert Ht.
  unfold Ship.trace, Ship.trace_fuel.
  destruct ws as [|w ws].
  - cbn. intros [= <-]. cbn in Hin.
    destruct Hin as [<-|[<-|[]]]; discriminate Hp.
  - unfold sum. rewrite sum_of_weights, Z.add_0_l.
    unfold Math_min. cbn [map fold_left]. cbn [min le].
    destruct (min_of_weights ws w) as [m [Em Hm]]. rewrite Em.
    assert (Hm0 : 0 <= m).
    { rewrite Forall_forall in Hw. apply Hw. cbn [In]. destruct Hm; auto. }
    destruct (Ship.search_loop _ days _ (Fin m) _ (Fin 0))
      as [[steps1 [[low' high'] ans']]|] eqn:E; [|discriminate].
    intros [= <-].
    pose proof (ship_search_success (w :: ws) days _ m _ (Fin 0) steps1 _
                  Hm0 E) as Hall.
    cbn [In] in Hin. destruct Hin as [<-|Hin]; [discriminate Hp|].
    apply in_app_or in Hin. destruct Hin as [Hin|[<-|[]]];
      [|discriminate Hp].
    rewrite Forall_forall in Hall. exact (Hall s Hin Hp).
Qed.

Lemma ship_success_shows_a_loading_witness :
  let steps :=
    match Ship.trace (map Fin [1; 2; 3]) 2 with Some t => t | None => [] end in
  let s := nth 8 steps (Ship.init_step (Fin 0) (Fin 0)) in
  Ship.phase s = Ship.sim_success /\ shows_loading [1; 2; 3] 2 s.
Proof.
  cbv zeta. split; [vm_compute; reflexivity|].
  apply (ship_success_shows_a_loading [1; 2; 3] 2
           match Ship.trace (map Fin [1; 2; 3]) 2 with
           | Some t => t
           | None => []
           end).
  - repeat constructor; lia.
  - vm_compute. discriminate.
  - vm_compute. reflexivity.
  - apply nth_In. vm_compute. lia.
  - vm_compute. reflexivity.
Defined.

(** ** Split Array: the search returns the least largest sum *)

Lemma split_check_step (lo hi res : num) (cap i v parts cs : Z)
    (rest : list num) (splits : list Z) :
  snd (SplitArray.check lo hi (Fin cap) res i (Fin v :: rest) parts (Fin cs)
         splits) =
  if cap <? cs + v
  then snd (SplitArray.check lo hi (Fin cap) res (i + 1) rest (parts + 1)
              (Fin v) (splits ++ [i]))
  else snd (SplitArray.check lo hi (Fin cap) res (i + 1) rest parts
              (Fin (cs + v)) splits).
Proof.
  cbn [SplitArray.check]. cbn [add gt lt].
  destruct (cap <? cs + v);
    destruct (SplitArray.check lo hi (Fin cap) res (i + 1) rest _ _ _);
    reflexivity.
Qed.

Lemma split_check_sound (lo hi res : num) (cap : Z) (rest : list Z) :
  forall i parts cs splits cur,
    load_weight cur = cs ->
    cs <= cap ->
    Forall (fun v => v <= cap) rest ->
    exists loads,
      List.concat loads = cur ++ rest /\
      len loads =
        partitions_of
          (snd (SplitArray.check lo hi (Fin cap) res i (map Fin rest) parts
                  (Fin cs) splits)) - parts + 1 /\
      Forall (fun part => load_weight part <= cap) loads.
Proof.
  induction rest as [|v rest IH]; intros i parts cs splits cur Hc Hle Hr.
  - exists [cur]. cbn [map SplitArray.check snd partitions_of fst].
    cbn [List.concat]. split; [reflexivity|].
    split; [unfold len; cbn [List.length]; lia|].
    constructor; [lia | constructor].
  - inversion Hr as [|? ? Hv Hr']; subst.
    cbn [map]. rewrite split_check_step.
    destruct (Z.ltb_spec cap (load_weight cur + v)) as [Hgt|Hfit].
    + destruct (IH (i + 1) (parts + 1) v (splits ++ [i]) [v])
        as [loads [H1 [H2 H3]]]; try assumption.
      { cbn. lia. }
      exists (cur :: loads). cbn [List.concat]. rewrite H1.
      split; [reflexivity|].
      split; [unfold len in *; cbn [List.length]; lia|].
      constructor; [lia | exact H3].
    + destruct (IH (i + 1) parts (load_weight cur + v) splits (cur ++ [v]))
        as [loads [H1 [H2 H3]]]; try assumption.
      { rewrite load_weight_app. cbn. lia. }
      exists loads. rewrite H1, <- app_assoc.
      split; [reflexivity|]. split; assumption.
Qed.

Lemma split_check_fits (lo hi res : num) (cap : Z) (g : list Z) :
  forall rest i parts cs splits,
    Forall (fun w => 0 <= w) g ->
    cs + load_weight g <= cap ->
    exists i' splits',
      snd (SplitArray.check lo hi (Fin cap) res i (map Fin (g ++ rest)) parts
             (Fin cs) splits)
      = snd (SplitArray.check lo hi (Fin cap) res i' (map Fin rest) parts
               (Fin (cs + load_weight g)) splits').
Proof.
  induction g as [|w g IH]; intros rest i parts cs splits Hg Hc.
  - exists i, splits. cbn [app load_weight fold_right].
    rewrite Z.add_0_r. reflexivity.
  - inversion Hg as [|? ? Hw Hg']; subst.
    pose proof (load_weight_nonneg g Hg') as Hn.
    change (load_weight (w :: g)) with (w + load_weight g) in *.
    cbn [app map]. rewrite split_check_step.
    destruct (Z.ltb_spec cap (cs + w)) as [Hgt|Hle]; [lia|].
    destruct (IH rest (i + 1) parts (cs + w) splits Hg' ltac:(lia))
      as [i' [splits' E]].
    exists i', splits'. rewrite E, Z.add_assoc. reflexivity.
Qed.

Lemma split_check_load (lo hi res : num) (cap : Z) (g : list Z) :
  forall rest i parts cs splits,
    Forall (fun w => 0 <= w) g ->
    load_weight g <= cap ->
    exists i' splits' cs' parts',
      snd (SplitArray.check lo hi (Fin cap) res i (map Fin (g ++ rest)) parts
             (Fin cs) splits)
      = snd (SplitArray.check lo hi (Fin cap) res i' (map Fin rest) parts'
               (Fin cs') splits') /\
      parts' <= parts + 1.
Proof.
  induction g as [|w g IH]; intros rest i parts cs splits Hg Hl.
  - exists i, splits, cs, parts. split; [reflexivity | lia].
  - inversion Hg as [|? ? Hw Hg']; subst.
    pose proof (load_weight_nonneg g Hg') as Hn.
    change (load_weight (w :: g)) with (w + load_weight g) in *.
    cbn [app map]. rewrite split_check_step.
    destruct (Z.ltb_spec cap (cs + w)) as [Hgt|Hle].
    + destruct (split_check_fits lo hi res cap g rest (i + 1) (parts + 1) w
                  (splits ++ [i]) Hg' Hl) as [i' [splits' E]].
      exists i', splits', (w + load_weight g), (parts + 1).
      split; [exact E | lia].
    + apply IH; [exact Hg' | lia].
Qed.

Lemma split_check_complete (lo hi res : num) (cap : Z)
    (loads : list (list Z)) :
  forall i parts cs splits,
    Forall (fun w => 0 <= w) (List.concat loads) ->
    Forall (fun l => load_weight l <= cap) loads ->
    partitions_of
      (snd (SplitArray.check lo hi (Fin cap) res i
              (map Fin (List.concat loads)) parts (Fin cs) splits))
    <= parts + len loads.
Proof.
  induction loads as [|g gs IH]; intros i parts cs splits Hn Hl.
  - cbn. lia.
  - cbn [List.concat] in *. apply Forall_app in Hn. destruct Hn as [Hg Hgs].
    inversion Hl as [|? ? Hlg Hlgs]; subst.
    destruct (split_check_load lo hi res cap g (List.concat gs) i parts cs
                splits Hg Hlg) as [i' [splits' [cs' [parts' [E Hp]]]]].
    rewrite E.
    pose proof (IH i' parts' cs' splits' Hgs Hlgs) as H.
    unfold len in *. cbn [List.length]. lia.
Qed.

Lemma split_check_decides (lo hi res : num) (arr : list Z) (k cap : Z) :
  Forall (fun w => 0 <= w) arr ->
  Forall (fun v => v <= cap) arr ->
  1 <= k ->
  0 <= cap ->
  partitions_of
    (snd (SplitArray.check lo hi (Fin cap) res 0 (map Fin arr) 1 (Fin 0) []))
  <= k
  <-> can_split arr k cap.
Proof.
  intros Hw Hb Hk Hcap. split.
  - intros Hp.
    destruct (split_check_sound lo hi res cap arr 0 1 0 [] [] eq_refl Hcap Hb)
      as [loads [H1 [H2 H3]]].
    exists loads. split; [exact H1|]. split; [lia | exact H3].
  - intros [loads [Hc [Hl Hf]]]. subst arr.
    destruct loads as [|g gs].
    + cbn. exact Hk.
    + cbn [List.concat] in *. apply Forall_app in Hw. destruct Hw as [Hg Hgs].
      inversion Hf as [|? ? Hfg Hfgs]; subst.
      destruct (split_check_fits lo hi res cap g (List.concat gs) 0 1 0 []
                  Hg ltac:(lia)) as [i' [splits' E]].
      rewrite E.
      pose proof (split_check_complete lo hi res cap gs i' 1
                    (0 + load_weight g) splits' Hgs Hfgs) as H.
      unfold len in *. cbn [List.length] in Hl. lia.
Qed.

Lemma can_split_mono (arr : list Z) (k c c' : Z) :
  c <= c' -> can_split arr k c -> can_split arr k c'.
Proof. apply can_ship_mono. Qed.

Lemma split_probe_result (arr : list Z) (k l h : Z) (res : num) :
  Forall (fun w => 0 <= w) arr ->
  Forall (fun v => v <= l + (h - l) / 2) arr ->
  1 <= k ->
  0 <= l + (h - l) / 2 ->
  (can_split arr k (l + (h - l) / 2) /\
   snd (SplitArray.probe (map Fin arr) k (Fin l) (Fin h) res)
   = (Fin l, Fin (l + (h - l) / 2 - 1), Fin (l + (h - l) / 2)))
  \/
  (~ can_split arr k (l + (h - l) / 2) /\
   snd (SplitArray.probe (map Fin arr) k (Fin l) (Fin h) res)
   = (Fin (l + (h - l) / 2 + 1), Fin h, res)).
Proof.
  intros Hw Hb Hk Hm.
  pose proof (split_check_decides (Fin l) (Fin h) res arr k
                (l + (h - l) / 2) Hw Hb Hk Hm) as Hdec.
  unfold SplitArray.probe. rewrite floor_add_half_int.
  destruct (SplitArray.check (Fin l) (Fin h) _ res 0 (map Fin arr) 1 (Fin 0) [])
    as [steps [[parts cs] splits]].
  cbn [snd partitions_of fst] in Hdec.
  destruct (Z.leb_spec parts k) as [Hle|Hgt]; cbn [snd].
  - left. split; [apply Hdec; exact Hle|].
    cbn. unfold Z.sub. reflexivity.
  - right. split; [|reflexivity].
    intros Hcan. apply Hdec in Hcan. lia.
Qed.

Lemma split_search_result (arr : list Z) (k : Z) (fuel : nat) :
  Forall (fun w => 0 <= w) arr ->
  1 <= k ->
  forall l h res steps fin,
    0 <= l -> l <= h + 1 ->
    Forall (fun v => v <= l) arr ->
    (forall c, c < l -> ~ can_split arr k c) ->
    (can_split arr k h \/ (res = Fin (h + 1) /\ can_split arr k (h + 1))) ->
    SplitArray.search_loop (map Fin arr) k fuel (Fin l) (Fin h) res
      = Some (steps, fin) ->
    exists c, snd fin = Fin c /\ least_largest_sum arr k c.
Proof.
  intros Hw Hk.
  assert (Hend : forall l h res,
    h < l -> l <= h + 1 ->
    (forall c, c < l -> ~ can_split arr k c) ->
    (can_split arr k h \/ (res = Fin (h + 1) /\ can_split arr k (h + 1))) ->
    exists c, res = Fin c /\ least_largest_sum arr k c).
  { intros l h res Hgt Hlh Hlow [Hcan|[-> Hcan]].
    - exfalso. exact (Hlow h Hgt Hcan).
    - exists (h + 1). split; [reflexivity|]. split; [exact Hcan|].
      intros c Hc. destruct (Z.lt_ge_cases c (h + 1)) as [Hlt|Hge];
        [|exact Hge].
      exfalso. apply (Hlow c); [lia | exact Hc]. }
  induction fuel as [|fuel IH];
    intros l h res steps fin H0 Hlh Hb Hlow Hhigh H;
    cbn [SplitArray.search_loop] in H; cbn [le] in H;
    destruct (Z.leb_spec l h) as [Hle|Hgt].
  - discriminate H.
  - injection H as _ <-. cbn [snd]. eapply Hend; eassumption.
  - pose proof (midpoint_bounds l h Hle) as Hm.
    assert (Hb' : Forall (fun v => v <= l + (h - l) / 2) arr).
    { eapply Forall_impl; [|exact Hb]. cbv beta. intros v Hv. lia. }
    destruct (split_probe_result arr k l h res Hw Hb' Hk ltac:(lia))
      as [[Hcan Hn]|[Hcan Hn]];
      destruct (SplitArray.probe (map Fin arr) k (Fin l) (Fin h) res)
        as [steps1 [[lo1 hi1] res1]];
      cbn [snd] in Hn; injection Hn as -> -> ->;
      match type of H with
      | context [SplitArray.search_loop ?w ?d ?f ?a ?b ?c] =>
          destruct (SplitArray.search_loop w d f a b c)
            as [[steps2 fin2]|] eqn:E
      end; try discriminate H;
      injection H as _ <-.
    + eapply (IH l (l + (h - l) / 2 - 1)); try exact E; try lia;
        try exact Hlow; try exact Hb.
      right. split; [f_equal; lia|].
      replace (l + (h - l) / 2 - 1 + 1) with (l + (h - l) / 2) by lia.
      exact Hcan.
    + eapply (IH (l + (h - l) / 2 + 1) h); try exact E; try lia;
        try exact Hhigh.
      * eapply Forall_impl; [|exact Hb]. cbv beta. intros v Hv. lia.
      * intros c Hc Hcc. apply Hcan.
        apply (can_split_mono arr k c); [lia | exact Hcc].
  - injection H as _ <-. cbn [snd]. eapply Hend; eassumption.
Qed.

Lemma max_of_values (vs : list Z) (a : Z) :
  exists m, fold_left max (map Fin vs) (Fin a) = Fin m /\
            (m = a \/ In m vs) /\ a <= m /\ Forall (fun v => v <= m) vs.
Proof.
  revert a. induction vs as [|v vs IH]; intros a; cbn [map fold_left].
  - exists a. split; [reflexivity|]. split; [auto|]. split; [lia|constructor].
  - cbn [max le]. destruct (Z.leb_spec a v) as [Hle|Hgt].
    + destruct (IH v) as [m [E [Hm [Hv Hall]]]]. exists m. cbn [In].
      split; [exact E|]. split; [destruct Hm; auto|]. split; [lia|].
      constructor; assumption.
    + destruct (IH a) as [m [E [Hm [Ha Hall]]]]. exists m. cbn [In].
      split; [exact E|]. split; [destruct Hm; auto|]. split; [lia|].
      constructor; [lia | assumption].
Qed.

Lemma split_trace_result (v : Z) (vs : list Z) (k : Z) :
  Forall (fun x => 0 <= x) (v :: vs) ->
  1 <= k ->
  exists front lo' hi' cap,
    SplitArray.trace (map Fin (v :: vs)) k
    = Some (front ++ [SplitArray.final_step lo' hi' (Fin cap)]) /\
    least_largest_sum (v :: vs) k cap.
Proof.
  intros Hw Hk. unfold SplitArray.trace, SplitArray.trace_fuel.
  unfold sum. rewrite sum_of_weights. rewrite Z.add_0_l.
  unfold Math_max. cbn [map fold_left]. cbn [max le].
  destruct (max_of_values vs v) as [m [Em [Hm [Hv Hall]]]]. rewrite Em.
  assert (Hin : In m (v :: vs)) by (cbn [In]; destruct Hm; auto).
  unfold SplitArray.iterations.
  destruct (split_search_loop_ends (map Fin (v :: vs)) k
              (Z.to_nat (load_weight (v :: vs) - m + 1)) m
              (load_weight (v :: vs)) (Fin (-1)) (Nat.le_refl _))
    as [[steps [[lo' hi'] res']] E].
  cbn [map] in E. rewrite E.
  destruct (split_search_result (v :: vs) k
              (Z.to_nat (load_weight (v :: vs) - m + 1)) Hw Hk m
              (load_weight (v :: vs)) (Fin (-1)) steps (lo', hi', res'))
    as [cap [Ec Hc]].
  - rewrite Forall_forall in Hw. apply Hw, Hin.
  - pose proof (load_weight_member (v :: vs) m Hw Hin). lia.
  - constructor; assumption.
  - intros c Hc Hcan.
    pose proof (can_ship_bounds (v :: vs) k c m Hw Hcan Hin). lia.
  - left. apply can_ship_all, Hk.
  - exact E.
  - cbn [snd] in Ec. subst res'.
    exists (SplitArray.init_step (Fin m) (Fin (load_weight (v :: vs)))
              :: steps), lo', hi', cap.
    split; [reflexivity | exact Hc].
Qed.

(** X16. On every array that is not empty and holds no negative value,
    of a safe total, and every number [k] of at least one subarray, the
    trace of the Split
    Array note ends with the Step of the [return-res] line, and the [res]
    it records is the least largest sum: the array splits into at most
    [k] consecutive subarrays of sums at most [res], and into no such
    subarrays for a smaller bound. *)
Theorem split_answer_is_least_largest_sum (v : Z) (vs : list Z) (k : Z) :
  Forall (fun x => 0 <= x) (v :: vs) ->
  safe_total (v :: vs) ->
  1 <= k ->
  exists front last cap,
    SplitArray.trace (map Fin (v :: vs)) k = Some (front ++ [last]) /\
    SplitArray.codeLine last = "return-res"%string /\
    SplitArray.res last = Fin cap /\
    least_largest_sum (v :: vs) k cap.
Proof.
  intros Hw _ Hk.
  destruct (split_trace_result v vs k Hw Hk)
    as [front [lo' [hi' [cap [E Hc]]]]].
  exists front, (SplitArray.final_step lo' hi' (Fin cap)), cap.
  split; [exact E|]. split; [reflexivity|].
  split; [reflexivity | exact Hc].
Qed.

Lemma split_answer_is_least_largest_sum_witness :
  exists front last cap,
    SplitArray.trace (map Fin [7; 2; 5; 10; 8]) 2 = Some (front ++ [last]) /\
    SplitArray.codeLine last = "return-res"%string /\
    SplitArray.res last = Fin cap /\
    least_largest_sum [7; 2; 5; 10; 8] 2 cap.
Proof.
  apply (split_answer_is_least_largest_sum 7 [2; 5; 10; 8] 2).
  - repeat constructor; lia.
  - vm_compute. discriminate.
  - lia.
Defined.

(** ** Maximum Width Ramp: the result is the greatest width *)

Lemma value_at_middle (pre : list Z) (x : Z) (post : list Z) :
  value_at (pre ++ x :: post) (len pre) = x.
Proof. unfold value_at, len. rewrite Nat2Z.id. apply nth_middle. Qed.

Lemma len_snoc {A} (l : list A) (x : A) : len (l ++ [x]) = len l + 1.
Proof. unfold len. rewrite length_app. cbn [List.length]. lia. Qed.

Lemma ramp_get (zs : list Z) (t : Z) :
  0 <= t < len zs -> Ramp.get (map Fin zs) t = Fin (value_at zs t).
Proof.
  intros Ht. unfold Ramp.get, at_index, value_at, len in *.
  destruct (Z.ltb_spec t 0); [lia|].
  rewrite nth_error_map, (nth_error_nth' zs 0) by lia. reflexivity.
Qed.

Lemma ramp_build_snd (arr : list num) (i : Z) (x : num) (rest : list num)
    (st : list Z) :
  snd (Ramp.build arr i (x :: rest) st)
  = snd (Ramp.build arr (i + 1) rest
           match st with
           | [] => [i]
           | t :: _ => if lt x (Ramp.get arr t) then i :: st else st
           end).
Proof.
  cbn [Ramp.build]. destruct st as [|t st].
  - destruct (Ramp.build arr (i + 1) rest [i]). reflexivity.
  - destruct (lt x (Ramp.get arr t));
      destruct (Ramp.build arr (i + 1) rest _); reflexivity.
Qed.

Lemma ramp_build_built (zs : list Z) :
  forall rest pre st,
    zs = pre ++ rest ->
    built zs (len pre) st ->
    built zs (len zs) (snd (Ramp.build (map Fin zs) (len pre) (map Fin rest) st)).
Proof.
  induction rest as [|x rest IH]; intros pre st Hz Hb.
  - rewrite app_nil_r in Hz. subst pre. exact Hb.
  - cbn [map]. rewrite ramp_build_snd.
    assert (Hx : value_at zs (len pre) = x)
      by (rewrite Hz; apply value_at_middle).
    assert (Hn : len zs = len pre + 1 + len rest).
    { rewrite Hz. unfold len. rewrite length_app. cbn [List.length]. lia. }
    assert (Hp : 0 <= len pre) by (unfold len; lia).
    assert (Hr : 0 <= len rest) by (unfold len; lia).
    rewrite <- (len_snoc pre x).
    apply IH; [rewrite Hz, <- app_assoc; reflexivity|].
    rewrite len_snoc. destruct Hb as [Hf [Hs Hc]].
    assert (Hweak : forall l, Forall (fun t => 0 <= t < len pre) l ->
                              Forall (fun t => 0 <= t < len pre + 1) l).
    { intros l. apply Forall_impl. cbv beta. intros t Ht. lia. }
    assert (Hcov : forall st',
      (forall t, In t st -> In t st') ->
      (exists t, In t st' /\ t <= len pre /\
                 value_at zs t <= value_at zs (len pre)) ->
      covers zs st' (len pre + 1)).
    { intros st' Hsub Hnew k Hk.
      destruct (Z.eq_dec k (len pre)) as [->|Hne]; [exact Hnew|].
      destruct (Hc k ltac:(lia)) as [t [Hin Ht]].
      exists t. split; [apply Hsub, Hin | exact Ht]. }
    destruct st as [|t st].
    + split; [constructor; [lia | constructor]|].
      split; [constructor; constructor|].
      apply Hcov; [intros t []|].
      exists (len pre). cbn [In]. split; [auto | lia].
    + pose proof (Forall_inv Hf) as Ht. cbv beta in Ht.
      rewrite ramp_get by lia. cbn [lt]. rewrite <- Hx.
      destruct (Z.ltb_spec (value_at zs (len pre)) (value_at zs t))
        as [Hlt|Hge].
      * split; [constructor; [lia | apply Hweak, Hf]|].
        split.
        { constructor; [exact Hs|].
          apply StronglySorted_inv in Hs. destruct Hs as [_ Hall].
          constructor; [split; [lia | exact Hlt]|].
          eapply Forall_impl; [|exact Hall]. cbv beta.
          intros u [Hu1 Hu2]. split; lia. }
        apply Hcov; [intros u Hu; right; exact Hu|].
        exists (len pre). cbn [In]. split; [auto | lia].
      * split; [apply Hweak, Hf|]. split; [exact Hs|].
        apply Hcov; [auto|].
        exists t. cbn [In]. split; [auto | lia].
Qed.

Lemma ramp_pops_snd (arr : list num) (i : Z) (x : num) (t : Z)
    (st : list Z) (mw : Z) :
  snd (Ramp.pops arr i x (t :: st) mw)
  = if ge x (Ramp.get arr t)
    then snd (Ramp.pops arr i x st (Z.max mw (i - t)))
    else (t :: st, mw).
Proof.
  cbn [Ramp.pops]. destruct (ge x (Ramp.get arr t)); [|reflexivity].
  destruct (Ramp.pops arr i x st _). reflexivity.
Qed.

Lemma ramp_widths_snd (arr : list num) (x : num) (upto : list num)
    (st : list Z) (mw : Z) :
  snd (Ramp.widths arr (x :: upto) st mw)
  = snd (Ramp.widths arr upto
           (fst (snd (Ramp.pops arr (len upto) x st mw)))
           (snd (snd (Ramp.pops arr (len upto) x st mw)))).
Proof.
  cbn [Ramp.widths].
  destruct (Ramp.pops arr (len upto) x st mw) as [popping [st1 mw1]].
  cbn [fst snd].
  destruct (Ramp.widths arr upto st1 mw1). reflexivity.
Qed.

Lemma ramp_pops_spec (zs : list Z) (j : Z) :
  0 <= j < len zs ->
  forall st mw,
    Forall (fun t => 0 <= t <= j) st ->
    exists popped st' mw',
      snd (Ramp.pops (map Fin zs) j (Fin (value_at zs j)) st mw)
      = (st', mw') /\
      st = popped ++ st' /\
      mw <= mw' /\
      Forall (fun t => value_at zs t <= value_at zs j /\ j - t <= mw')
        popped /\
      (mw' = mw \/ exists t, In t popped /\ mw' = j - t) /\
      match st' with
      | [] => True
      | u :: _ => value_at zs j < value_at zs u
      end.
Proof.
  intros Hj. induction st as [|t st IH]; intros mw Hf.
  - exists [], [], mw. cbn. repeat split; auto; lia.
  - pose proof (Forall_inv Hf) as Ht. cbv beta in Ht.
    pose proof (Forall_inv_tail Hf) as Hf'.
    rewrite ramp_pops_snd, ramp_get by lia. cbn [ge le].
    destruct (Z.leb_spec (value_at zs t) (value_at zs j)) as [Hle|Hgt].
    + destruct (IH (Z.max mw (j - t)) Hf')
        as [popped [st' [mw' [E [Hs [Hm [Hp [Hw Htop]]]]]]]].
      exists (t :: popped), st', mw'.
      split; [exact E|]. split; [cbn [app]; f_equal; exact Hs|].
      split; [lia|]. split; [constructor; [split; lia | exact Hp]|].
      split; [|exact Htop].
      destruct Hw as [->|[u [Hu ->]]].
      * destruct (Z.max_spec mw (j - t)) as [[_ ->]|[_ ->]].
        { right. exists t. cbn [In]. auto. }
        { left. reflexivity. }
      * right. exists u. cbn [In]. auto.
    + exists [], (t :: st), mw. cbn [app].
      repeat split; auto; try lia.
Qed.

Lemma ramp_iteration (zs st0 st : list Z) (j mw : Z) :
  0 <= j < len zs ->
  covers zs st0 (len zs) ->
  popping zs st0 j st mw ->
  popping zs st0 (j - 1)
    (fst (snd (Ramp.pops (map Fin zs) j (Fin (value_at zs j)) st mw)))
    (snd (snd (Ramp.pops (map Fin zs) j (Fin (value_at zs j)) st mw))).
Proof.
  intros Hj Hcov [Hf [Hs [Hg [Hw Hr]]]].
  destruct (ramp_pops_spec zs j Hj st mw Hf)
    as [popped [st' [mw' [E [Hst [Hm [Hp [Hw' Htop]]]]]]]].
  rewrite E. cbn [fst snd]. subst st.
  apply Forall_app in Hf. destruct Hf as [Hfp Hf'].
  assert (Hs' : StronglySorted (above zs) st').
  { clear - Hs. induction popped as [|p popped IH]; [exact Hs|].
    apply IH. cbn [app] in Hs. apply StronglySorted_inv in Hs. tauto. }
  assert (Hnot : forall t, In t st' -> value_at zs j < value_at zs t).
  { intros t Hin. destruct st' as [|u st']; [contradiction|].
    destruct Hin as [<-|Hin]; [exact Htop|].
    apply StronglySorted_inv in Hs'. destruct Hs' as [_ Hall].
    rewrite Forall_forall in Hall. destruct (Hall t Hin) as [_ Hv]. lia. }
  split.
  { rewrite Forall_forall in *. intros t Hin.
    specialize (Hf' t Hin). cbv beta in Hf'. specialize (Hnot t Hin).
    assert (t <> j) by (intros ->; lia). lia. }
  split; [exact Hs'|]. split.
  { intros t Hin. destruct (Hg t Hin) as [Hin'|Hb].
    - apply in_app_or in Hin'. destruct Hin' as [Hin'|Hin']; [|auto].
      right. rewrite Forall_forall in Hp. destruct (Hp t Hin'). lia.
    - right. lia. }
  split.
  { destruct Hw' as [->|[t [Hin ->]]]; [exact Hw|].
    right. exists t, j. split; [|reflexivity].
    rewrite Forall_forall in Hfp, Hp.
    specialize (Hfp t Hin). cbv beta in Hfp.
    destruct (Hp t Hin) as [Hv _].
    unfold is_ramp. repeat split; lia. }
  intros k j' Hramp Hlt.
  destruct (Z.eq_dec j' j) as [->|Hne].
  - destruct Hramp as [Hk0 [Hkj [_ Hv]]].
    destruct (Hcov k ltac:(lia)) as [t [Hin [Htk Htv]]].
    destruct (Hg t Hin) as [Hin'|Hb]; [|lia].
    apply in_app_or in Hin'. destruct Hin' as [Hin'|Hin'].
    + rewrite Forall_forall in Hp. destruct (Hp t Hin'). lia.
    + specialize (Hnot t Hin'). lia.
  - specialize (Hr k j' Hramp ltac:(lia)). lia.
Qed.

Lemma ramp_widths_popping (zs st0 : list Z) :
  covers zs st0 (len zs) ->
  forall upto st mw post,
    zs = rev upto ++ post ->
    popping zs st0 (len upto - 1) st mw ->
    popping zs st0 (-1)
      (fst (snd (Ramp.widths (map Fin zs) (map Fin upto) st mw)))
      (snd (snd (Ramp.widths (map Fin zs) (map Fin upto) st mw))).
Proof.
  intros Hcov. induction upto as [|x upto IH]; intros st mw post Hz Hp.
  - cbn. exact Hp.
  - cbn [map]. rewrite ramp_widths_snd.
    assert (Hl : len (map Fin upto) = len upto)
      by (unfold len; rewrite length_map; reflexivity).
    rewrite Hl.
    assert (Hz' : zs = rev upto ++ x :: post)
      by (rewrite Hz; cbn [rev]; rewrite <- app_assoc; reflexivity).
    assert (Hlr : len (rev upto) = len upto)
      by (unfold len; rewrite length_rev; reflexivity).
    assert (Hx : value_at zs (len upto) = x).
    { rewrite Hz', <- Hlr. apply value_at_middle. }
    assert (Hj : 0 <= len upto < len zs).
    { rewrite Hz'. unfold len. rewrite length_app, length_rev.
      cbn [List.length]. lia. }
    rewrite <- Hx.
    apply (IH _ _ (x :: post) Hz').
    apply ramp_iteration; [exact Hj | exact Hcov|].
    replace (len upto) with (len (x :: upto) - 1); [exact Hp|].
    unfold len. cbn [List.length]. lia.
Qed.

(** X17. For every array of integers the trace of the Maximum Width Ramp
    note ends with the complete Step, and the [maxWidth] it records is the
    greatest width [j - i] of a ramp, a pair of indices [i <= j] with
    [arr[i] <= arr[j]]: no ramp is wider, and some ramp has this width (on
    the empty array it is 0). *)
Theorem ramp_result_is_widest (zs : list Z) :
  exists front last,
    Ramp.trace (map Fin zs) = front ++ [last] /\
    Ramp.phase last = Ramp.complete /\
    widest_ramp zs (Ramp.maxWidth last).
Proof.
  unfold Ramp.trace.
  assert (Hb0 : built zs (len (@nil Z)) []).
  { split; [constructor|]. split; [constructor|].
    intros k Hk. cbn in Hk. lia. }
  pose proof (ramp_build_built zs zs [] [] eq_refl Hb0) as Hb.
  change (len []) with 0 in Hb.
  destruct (Ramp.build (map Fin zs) 0 (map Fin zs) []) as [steps1 st1].
  cbn [snd] in Hb. destruct Hb as [Hf [Hs Hc]].
  assert (Hp0 : popping zs st1 (len (rev zs) - 1) st1 0).
  { assert (Hl : len (rev zs) = len zs)
      by (unfold len; rewrite length_rev; reflexivity).
    rewrite Hl. split.
    { eapply Forall_impl; [|exact Hf]. cbv beta. intros t Ht. lia. }
    split; [exact Hs|]. split; [auto|]. split; [auto|].
    intros k j' [_ [_ [Hj _]]] Hlt. lia. }
  pose proof (ramp_widths_popping zs st1 Hc (rev zs) st1 0 []
                ltac:(rewrite rev_involutive, app_nil_r; reflexivity) Hp0)
    as Hp.
  rewrite <- map_rev.
  destruct (Ramp.widths (map Fin zs) (map Fin (rev zs)) st1 0)
    as [steps2 [st2 mw]].
  cbn [fst snd] in Hp. destruct Hp as [_ [_ [_ [Hw Hr]]]].
  exists (Ramp.init_step :: steps1
            ++ [Ramp.transition_step st1 (len (map Fin zs))] ++ steps2),
    (Ramp.complete_step st2 mw).
  split; [cbn [app]; rewrite <- !app_assoc; reflexivity|].
  split; [reflexivity|].
  cbn [Ramp.complete_step Ramp.maxWidth]. split.
  - intros i j Hramp. apply Hr; [exact Hramp|].
    destruct Hramp as [Hi [Hij _]]. lia.
  - destruct Hw as [->|Hex]; [|right; exact Hex].
    destruct zs as [|z zs]; [left; auto|].
    right. exists 0, 0. split; [|reflexivity].
    unfold is_ramp, len. cbn [List.length]. repeat split; lia.
Qed.

(** ** Ship Packages: the answer after any edits of the weights *)

Lemma in_range_values (bound : Z) (ns : list num) :
  Forall (fun n => exists z, n = Fin z /\ 0 <= z <= bound) ns ->
  exists zs, ns = map Fin zs /\ Forall (fun z => 0 <= z) zs.
Proof.
  induction 1 as [|n ns [z [-> Hz]] _ [zs [-> Hzs]]].
  - exists []. split; [reflexivity | constructor].
  - exists (z :: zs). split; [reflexivity|]. constructor; [lia | exact Hzs].
Qed.

Lemma ship_mounted_ready : exists c, ship_mounted = Some c /\ ship_ready c.
Proof.
  unfold ship_mounted, Ship.generateSteps.
  destruct (ship_midpoints_within (Ship.weights Ship.initial)
              (Ship.days Ship.initial))
    as [steps [l' [h' [a' [Ht _]]]]].
  { cbn. repeat constructor; eexists; reflexivity. }
  rewrite Ht. eexists. split; [reflexivity|].
  split; [reflexivity|].
  exists [1; 2; 3; 4; 5; 6; 7; 8; 9; 10].
  split; [reflexivity|]. split; [repeat constructor; lia|].
  exact Ht.
Qed.

Lemma ship_edit_ready (val : string) (c : Ship.Component) :
  ship_ready c ->
  exists c', Ship.handleWeightChange val c = Some c' /\ ship_ready c'.
Proof.
  intros Hc. unfold Ship.handleWeightChange.
  destruct (all_chars Ship.allowed val) eqn:Hp; [|exists c; auto].
  destruct ((len (parse_parts val) <=? Ship.MAX_ARR_SIZE)
            && forallb (fun n => le n (Fin Ship.MAX_VAL)) (parse_parts val))
    eqn:Hb; [|exists c; auto].
  apply andb_true_iff in Hb. destruct Hb as [_ Hv].
  pose proof (unsigned_parts_in_range val Ship.MAX_VAL Hp Hv) as Hr.
  destruct (ship_midpoints_within (parse_parts val) (Ship.days c)
              (in_range_is_int _ _ Hr)) as [steps [l' [h' [a' [Ht _]]]]].
  destruct (in_range_values _ _ Hr) as [ws [Ews Hws]].
  unfold Ship.setWeights, Ship.generateSteps.
  cbn [Ship.weights Ship.days Ship.isConfigOpen Ship.playbackSpeed].
  rewrite Ht. eexists. split; [reflexivity|].
  destruct Hc as [Hd _]. split; [exact Hd|].
  exists ws. cbn [Ship.weights Ship.days Ship.steps].
  split; [exact Ews|]. split; [exact Hws | exact Ht].
Qed.

Lemma ship_edits_ready (vals : list string) :
  exists c, ship_edits vals = Some c /\ ship_ready c.
Proof.
  unfold ship_edits.
  destruct ship_mounted_ready as [c0 [E0 H0]]. rewrite E0. clear E0.
  revert c0 H0. induction vals as [|val vals IH]; intros c0 H0.
  - exists c0. auto.
  - cbn [fold_left].
    destruct (ship_edit_ready val c0 H0) as [c1 [E1 H1]]. rewrite E1.
    apply IH, H1.
Qed.

(** X18. Whatever is typed in the field of weights of the Ship Packages
    note, from the mounted note on, the note is never left hanging, and
    when the weights it holds are not empty its trace ends with the
    complete Step whose [ans] is the least capacity with which these
    weights can be shipped within the five days of the limit. *)
Theorem ship_typed_weights_answer (vals : list string) :
  exists c ws,
    ship_edits vals = Some c /\
    Ship.weights c = map Fin ws /\
    Ship.days c = 5 /\
    (ws = [] \/
     exists front last cap,
       Ship.steps c = front ++ [last] /\
       Ship.phase last = Ship.complete /\
       Ship.ans last = Fin cap /\
       least_capacity ws 5 cap).
Proof.
  destruct (ship_edits_ready vals) as [c [E [Hd [ws [Ew [Hws Ht]]]]]].
  exists c, ws. split; [exact E|]. split; [exact Ew|].
  split; [exact Hd|].
  destruct ws as [|w ws]; [left; reflexivity | right].
  destruct (ship_trace_result w ws 5 Hws ltac:(lia))
    as [front [low' [high' [cap [Et Hc]]]]].
  rewrite Ew, Hd, Et in Ht. injection Ht as <-.
  exists front, (Ship.complete_step low' high' (Fin cap)), cap.
  split; [reflexivity|]. split; [reflexivity|].
  split; [reflexivity | exact Hc].
Qed.

(** ** Split Array: the answer after any edits of the array and of [k] *)

Lemma split_k_value (parsed : num) (n : Z) :
  1 <= n ->
  exists k',
    min (max (Fin 1) (SplitControls.or_one parsed)) (Fin n) = Fin k' /\
    1 <= k'.
Proof.
  intros Hn.
  assert (Hint : forall z,
    exists k', min (max (Fin 1) (Fin z)) (Fin n) = Fin k' /\ 1 <= k').
  { intros z. rewrite max_int, min_int. eexists.
    split; [reflexivity | lia]. }
  destruct parsed as [z| | |]; cbn [SplitControls.or_one].
  - destruct (z =? 0); apply Hint.
  - cbn. exists n. split; [reflexivity | lia].
  - change (max (Fin 1) NInf) with (Fin 1).
    destruct (Hint 1) as [k' [E H]]. exists k'. split; [|exact H].
    rewrite <- E, max_int. reflexivity.
  - apply Hint.
Qed.

Lemma split_update_ready (c : SplitArray.Component) (z : Z) (zs : list Z) :
  SplitArray.arr c = map Fin (z :: zs) ->
  Forall (fun x => 0 <= x <= 100) (z :: zs) ->
  1 <= SplitArray.k c ->
  exists c', SplitArray.update c = SplitArray.Shows c' /\ split_ready c'.
Proof.
  intros Ha Hz Hk.
  destruct (split_update_shows c (Fin z) (map Fin zs) Ha) as [t [Ht Eu]].
  { change (Forall is_int (map Fin (z :: zs))).
    apply Forall_map, Forall_forall. intros x _. exists x. reflexivity. }
  rewrite Eu. eexists. split; [reflexivity|].
  split; [exact Hk|]. exists z, zs.
  cbn [SplitArray.arr SplitArray.k SplitArray.steps].
  split; [exact Ha|]. split; [exact Hz | exact Ht].
Qed.

Lemma in_range_list (ns : list num) :
  Forall (fun n => exists z, n = Fin z /\ 0 <= z <= 100) ns ->
  exists zs, ns = map Fin zs /\ Forall (fun x => 0 <= x <= 100) zs.
Proof.
  induction 1 as [|n ns [z [-> Hz]] _ [zs [-> Hzs]]].
  - exists []. split; [reflexivity | constructor].
  - exists (z :: zs). split; [reflexivity|]. constructor; assumption.
Qed.

Lemma split_react_ready (e : SplitEvent) (c : SplitArray.Component) :
  split_ready c ->
  (split_react e c = SplitArray.Unmounted /\ ~ keeps_array e) \/
  exists c', split_react e c = SplitArray.Shows c' /\ split_ready c'.
Proof.
  intros Hc. pose proof Hc as [Hk [z [zs [Ea [Hz Ht]]]]].
  destruct e as [val|parsed]; cbn [split_react keeps_array].
  - unfold SplitArray.handleArrChange.
    destruct (all_chars SplitArray.allowed val) eqn:Hp;
      [|right; exists c; auto].
    destruct ((len (parse_parts val) <=? SplitArray.MAX_ARR_SIZE)
              && forallb (fun n => le n (Fin SplitArray.MAX_VAL))
                   (parse_parts val))
      eqn:Hb; [|right; exists c; auto].
    apply andb_true_iff in Hb. destruct Hb as [_ Hv].
    pose proof (unsigned_parts_in_range val SplitArray.MAX_VAL Hp Hv) as Hr.
    destruct (in_range_list _ Hr) as [ws [Ews Hws]].
    unfold SplitArray.setArr. rewrite Ews.
    destruct ws as [|w ws].
    + left. split; [|intros H; apply H; reflexivity].
      apply split_update_empty. reflexivity.
    + right. apply (split_update_ready _ w ws); [reflexivity | exact Hws|].
      exact Hk.
  - right. unfold SplitControls.handleKChange.
    destruct (split_k_value parsed (len (SplitArray.arr c)))
      as [k' [Ek Hk']].
    { rewrite Ea. unfold len. cbn [map List.length]. lia. }
    rewrite Ek. unfold SplitControls.setK.
    destruct (k' =? SplitArray.k c); [exists c; auto|].
    apply (split_update_ready _ z zs); [exact Ea | exact Hz | exact Hk'].
Qed.

Lemma split_session_unmounted (es : list SplitEvent) :
  split_session_from es SplitArray.Unmounted = SplitArray.Unmounted.
Proof.
  unfold split_session_from. induction es as [|e es IH]; [reflexivity|].
  exact IH.
Qed.

Lemma split_session_ready (es : list SplitEvent) :
  forall c0, split_ready c0 ->
    (split_session_from es (SplitArray.Shows c0) = SplitArray.Unmounted /\
     ~ Forall keeps_array es) \/
    exists c,
      split_session_from es (SplitArray.Shows c0) = SplitArray.Shows c /\
      split_ready c.
Proof.
  induction es as [|e es IH]; intros c0 H0.
  - right. exists c0. auto.
  - change (split_session_from (e :: es) (SplitArray.Shows c0))
      with (split_session_from es (split_react e c0)).
    destruct (split_react_ready e c0 H0) as [[E1 Hn]|[c1 [E1 H1]]];
      rewrite E1.
    + left. split; [apply split_session_unmounted|].
      intros H. apply Hn. exact (Forall_inv H).
    + destruct (IH c1 H1) as [[E Hn]|[c [E H]]].
      * left. split; [exact E|].
        intros H. apply Hn. exact (Forall_inv_tail H).
      * right. exists c. auto.
Qed.

Lemma split_mounted_ready :
  exists c, SplitArray.mounted = SplitArray.Shows c /\ split_ready c.
Proof.
  apply (split_update_ready SplitArray.initial 7 [2; 5; 10; 8]).
  - reflexivity.
  - repeat constructor; lia.
  - cbn. lia.
Qed.

Lemma split_ready_answer (c : SplitArray.Component) :
  split_ready c ->
  exists zs,
    SplitArray.arr c = map Fin zs /\ zs <> [] /\ 1 <= SplitArray.k c /\
    exists front last cap,
      SplitArray.steps c = front ++ [last] /\
      SplitArray.codeLine last = "return-res"%string /\
      SplitArray.res last = Fin cap /\
      least_largest_sum zs (SplitArray.k c) cap.
Proof.
  intros [Hk [z [zs [Ea [Hz Ht]]]]]. exists (z :: zs).
  split; [exact Ea|]. split; [discriminate|]. split; [exact Hk|].
  assert (Hz0 : Forall (fun x => 0 <= x) (z :: zs)).
  { eapply Forall_impl; [|exact Hz]. cbv beta. intros x Hx. lia. }
  destruct (split_trace_result z zs (SplitArray.k c) Hz0 Hk)
    as [front [lo' [hi' [cap [Et Hc]]]]].
  rewrite Ea, Et in Ht. injection Ht as <-.
  exists front, (SplitArray.final_step lo' hi' (Fin cap)), cap.
  split; [reflexivity|]. split; [reflexivity|].
  split; [reflexivity | exact Hc].
Qed.

(** X19. Whatever is typed in the fields of the array and of [k] of the
    Split Array note, from the mounted note on, the note never hangs.
    Either it has been unmounted, which takes an edit of the array that
    leaves no token; or it shows an array of integers that is not empty
    and a [k >= 1], and its trace ends with the Step of the [return-res]
    line, whose [res] is the least largest sum of a split into at most [k]
    subarrays. *)
Theorem split_typed_fields_answer (es : list SplitEvent) :
  (split_session es = SplitArray.Unmounted \/
   exists c zs,
     split_session es = SplitArray.Shows c /\
     SplitArray.arr c = map Fin zs /\ zs <> [] /\ 1 <= SplitArray.k c /\
     exists front last cap,
       SplitArray.steps c = front ++ [last] /\
       SplitArray.codeLine last = "return-res"%string /\
       SplitArray.res last = Fin cap /\
       least_largest_sum zs (SplitArray.k c) cap) /\
  (Forall keeps_array es -> split_session es <> SplitArray.Unmounted).
Proof.
  unfold split_session.
  destruct split_mounted_ready as [c0 [E0 H0]]. rewrite E0.
  destruct (split_session_ready es c0 H0) as [[E Hn]|[c [E H]]]; rewrite E.
  - split; [left; reflexivity|]. intros Hk. contradiction.
  - split; [|discriminate]. right.
    destruct (split_ready_answer c H) as [zs Hans].
    exists c, zs. split; [reflexivity | exact Hans].
Qed.

Lemma split_typed_fields_answer_witness :
  split_session [EditArr "1, 2, 3"; EditK (Fin 7); EditArr "4, x"]
  <> SplitArray.Unmounted.
Proof.
  apply (split_typed_fields_answer
           [EditArr "1, 2, 3"; EditK (Fin 7); EditArr "4, x"]).
  repeat constructor; vm_compute; discriminate.
Defined.

(** ** Split Array: an array field left blank *)

Lemma split_blank (s : string) :
  all_chars blank_char s = true ->
  Forall (fun t => all_chars (fun ch => Ascii.eqb ch space) t = true)
    (split_comma s).
Proof.
  induction s as [|ch r IH]; cbn [all_chars split_comma]; intros H.
  - repeat constructor.
  - apply andb_true_iff in H. destruct H as [Hc Hr]. specialize (IH Hr).
    unfold blank_char in Hc.
    destruct (Ascii.eqb ch comma) eqn:Ec.
    + constructor; [reflexivity | exact IH].
    + cbn [orb] in Hc.
      destruct (split_comma r) as [|t ts].
      * constructor; [|constructor]. cbn [all_chars]. rewrite Hc. reflexivity.
      * inversion IH as [|? ? Ht Hts]; subst.
        constructor; [|exact Hts]. cbn [all_chars]. rewrite Hc, Ht.
        reflexivity.
Qed.

Lemma trim_spaces (t : string) :
  all_chars (fun ch => Ascii.eqb ch space) t = true -> trim t = EmptyString.
Proof.
  unfold trim. induction t as [|ch r IH]; cbn [all_chars trim_start];
    intros H; [reflexivity|].
  apply andb_true_iff in H. destruct H as [Hc Hr].
  apply Ascii.eqb_eq in Hc. subst ch.
  change (is_space space) with true. cbv iota. exact (IH Hr).
Qed.

Lemma blank_text_has_no_token (val : string) :
  all_chars blank_char val = true ->
  all_chars SplitArray.allowed val = true /\ parse_parts val = [].
Proof.
  intros H. split.
  - apply (all_chars_impl blank_char); [|exact H].
    intros ch Hc. unfold blank_char in Hc. unfold SplitArray.allowed.
    apply orb_true_iff in Hc. destruct Hc as [Hc|Hc]; rewrite Hc;
      rewrite ?orb_true_r; reflexivity.
  - unfold parse_parts.
    assert (E : filter nonempty (map trim (split_comma val)) = []).
    { pose proof (split_blank val H) as Hs.
      induction Hs as [|t ts Ht _ IH]; [reflexivity|].
      cbn [map filter]. rewrite (trim_spaces t Ht). exact IH. }
    rewrite E. reflexivity.
Qed.

Lemma split_session_app (es1 es2 : list SplitEvent) :
  split_session (es1 ++ es2) = split_session_from es2 (split_session es1).
Proof.
  unfold split_session, split_session_from. apply fold_left_app.
Qed.

(** X20. Leaving the array field of the Split Array note without a token
    unmounts the note: whatever was typed before in the two fields, a
    text of the array made of commas and spaces only passes the checks of
    the handler, the render that follows throws on the empty array, and
    nothing typed afterwards reaches the note. *)
Theorem split_blank_array_unmounts
    (es more : list SplitEvent) (blank : string) :
  all_chars blank_char blank = true ->
  split_session (es ++ EditArr blank :: more) = SplitArray.Unmounted.
Proof.
  intros Hb. rewrite split_session_app.
  destruct (blank_text_has_no_token blank Hb) as [Hp Ep].
  assert (Hstep : forall c,
            split_react (EditArr blank) c = SplitArray.Unmounted).
  { intros c. cbn [split_react]. unfold SplitArray.handleArrChange.
    rewrite Hp, Ep. cbn [len List.length forallb andb].
    change (Z.of_nat 0 <=? SplitArray.MAX_ARR_SIZE) with true. cbv iota.
    unfold SplitArray.setArr. apply split_update_empty. reflexivity. }
  unfold split_session.
  destruct split_mounted_ready as [c0 [E0 H0]]. rewrite E0.
  change (split_session_from (EditArr blank :: more) ?o)
    with (split_session_from more (split_step o (EditArr blank))).
  destruct (split_session_ready es c0 H0) as [[E _]|[c [E _]]]; rewrite E.
  - apply split_session_unmounted.
  - cbn [split_step]. rewrite Hstep. apply split_session_unmounted.
Qed.

Lemma split_blank_array_unmounts_witness :
  split_session
    ([EditK (Fin 3)] ++ EditArr " , " :: [EditArr "1, 2"; EditK (Fin 1)])
  = SplitArray.Unmounted.
Proof.
  apply (split_blank_array_unmounts [EditK (Fin 3)]
           [EditArr "1, 2"; EditK (Fin 1)] " , ").
  reflexivity.
Defined.
